(** * Thread pool against process pool on a recursive Fibonacci workload

    A shallow embedding of [concu_vs_parall.py] and
    [concu_vs_parall_with_patters.py].

    - Python integers are unbounded: they are [Z].
    - A call either returns a value or raises: [outcome].
    - [fibonacci], [fibonacci_naive] are the recursive functions of the two
      files, defined by well-founded recursion on the argument.
    - [fibonacci_memo] is the function decorated with [lru_cache(maxsize=None)]:
      a computation over the cache, whose only atomic actions are the
      decorator's lookup and its store.
    - [run_pool] is the block [with Executor() as executor: results =
      list(executor.map(fn, numbers))] of [concurrent.futures]: one future per
      input, workers that advance in any interleaving, a result iterator that
      reads the futures in submission order, and the shutdown of the pool.
    - [measure_time] is the timing decorator, over a world that holds the
      clock, the standard output and the cache of the main process.
    - The call stack is modelled twice.  [fibonacci_naive], [fibonacci],
      [fibonacci_memo] and the strategies named as in the source run on a
      stack without bound.  [fibonacci_naive_at], [fibonacci_at],
      [fibonacci_memo_at] and the strategies whose names end in [_at] run
      with room for a given number of frames, as CPython does under its
      recursion limit: a call that finds no frame raises [RecursionError].
      The two agree on every input that has the room it needs.

    The two Tk programs of the repository are embedded as far as their logic
    goes, each as the state of its object and a main loop that hands events
    to the handlers: [Draw] for the strokes and the undo and redo stacks of
    [draw.py], [ReactionGame] for the levels of [reaction_game.py]. *)

From Stdlib Require Import ZArith Lia List FunctionalExtensionality DecimalString.
From Corelib Require Import PrimFloat.
From Equations Require Import Equations.
From stdpp Require Import gmap strings list.

Local Open Scope Z_scope.

(** ** Results of a call *)

(** The exceptions a call can end with.  [RecursionError] is what CPython
    raises when the call stack outgrows its limit; [PyError] stands for any
    other exception class, by name. *)
Inductive exn : Type :=
| RecursionError
| PyError (name : string).

Inductive outcome (A : Type) : Type :=
| Return (value : A)
| Raise (e : exn).
Arguments Return {A} value.
Arguments Raise {A} e.

Definition outcome_bind {A B : Type} (r : outcome A) (k : A -> outcome B) : outcome B :=
  match r with
  | Return a => k a
  | Raise e => Raise e
  end.

(** What the comprehension [[compute(x) for x in L]] evaluates to, given the
    outcome of each call from left to right: the list of values, or the
    exception of the first call that raises. *)
Fixpoint comprehension (calls : list (outcome Z)) : outcome (list Z) :=
  match calls with
  | [] => Return []
  | r :: rest =>
      outcome_bind r (fun v =>
      outcome_bind (comprehension rest) (fun vs => Return (v :: vs)))
  end.

(** ** The compute functions *)

(** [concu_vs_parall_with_patters.py], [fibonacci_naive]:
    [if n <= 1: return n], else the sum of the calls on [n - 1] and [n - 2]. *)
Equations? fibonacci_naive (n : Z) : Z by wf (Z.to_nat n) lt :=
  fibonacci_naive n with Z_le_gt_dec n 1 := {
    | left _ := n
    | right _ := fibonacci_naive (n - 1) + fibonacci_naive (n - 2) }.
Proof. all: lia. Qed.

(** [concu_vs_parall.py], [fibonacci]: the same body under another name. *)
Equations? fibonacci (n : Z) : Z by wf (Z.to_nat n) lt :=
  fibonacci n with Z_le_gt_dec n 1 := {
    | left _ := n
    | right _ := fibonacci (n - 1) + fibonacci (n - 2) }.
Proof. all: lia. Qed.

(** The body of [fibonacci_naive] run with room for [depth] nested calls.
    Every call takes one frame; a call that finds no room raises
    [RecursionError], which the callers do not catch. *)
Fixpoint fibonacci_naive_at (depth : nat) (n : Z) : outcome Z :=
  match depth with
  | O => Raise RecursionError
  | S below =>
      if n <=? 1 then Return n
      else
        outcome_bind (fibonacci_naive_at below (n - 1)) (fun a =>
        outcome_bind (fibonacci_naive_at below (n - 2)) (fun b =>
        Return (a + b)))
  end.

(** Modelled from the spec: the oracle of the test suite, "an independent,
    non-recursive method (e.g., iterative accumulation)"; it is no part of the
    repository's files.  The loop keeps two consecutive values and advances
    them [n] times. *)
Fixpoint accumulate (rounds : nat) (a b : Z) : Z :=
  match rounds with
  | O => a
  | S rounds' => accumulate rounds' b (a + b)
  end.

Definition closed_form (n : Z) : Z := accumulate (Z.to_nat n) 0 1.

(** ** The memoization cache *)

(** A computation that uses the cache of [lru_cache].  The decorator touches
    its dictionary in two places only, [cache_get(key, sentinel)] and
    [cache[key] = result]; each is atomic for the threads of one process, and
    everything between two of them is local to the thread.  [CacheGet]
    continues with what the lookup found. *)
Inductive prog : Type :=
| Done (r : outcome Z)
| CacheGet (key : Z) (cont : option Z -> prog)
| CacheSet (key value : Z) (next : prog).

(** Sequencing: run [p], and on a value continue with [k]; an exception of [p]
    skips [k]. *)
Fixpoint bind (p : prog) (k : Z -> prog) : prog :=
  match p with
  | Done (Return v) => k v
  | Done (Raise e) => Done (Raise e)
  | CacheGet key cont => CacheGet key (fun found => bind (cont found) k)
  | CacheSet key value next => CacheSet key value (bind next k)
  end.

(** The wrapper that [lru_cache(maxsize=None)] builds around a function of
    one integer: a hit returns the stored result; a miss calls the function,
    stores the result under the key and returns it.  With [maxsize=None] there
    is no bound and no eviction: the wrapper has no action that removes a key. *)
Definition lru_cache (key : Z) (user_function : prog) : prog :=
  CacheGet key (fun found =>
    match found with
    | Some result => Done (Return result)
    | None =>
        bind user_function (fun result =>
        CacheSet key result (Done (Return result)))
    end).

(** [fibonacci_memo]: the body of [fibonacci_naive] with both recursive calls
    going through the wrapper, the left operand first.  This is the call on
    a stack without bound; [fibonacci_memo_at] below is the call with room
    for a given number of frames, which raises [RecursionError] when the room
    is short, and the two are the same computation on every input that has
    the room it needs ([fibonacci_memo_at_enough]). *)
Equations? fibonacci_memo (n : Z) : prog by wf (Z.to_nat n) lt :=
  fibonacci_memo n :=
    lru_cache n
      (match Z_le_gt_dec n 1 with
       | left _ => Done (Return n)
       | right _ =>
           bind (fibonacci_memo (n - 1)) (fun a =>
           bind (fibonacci_memo (n - 2)) (fun b =>
           Done (Return (a + b))))
       end).
Proof. all: lia. Qed.

(** One thread running a computation alone on a cache: the result and the
    cache it leaves. *)
Fixpoint exec (p : prog) (c : gmap Z Z) : outcome Z * gmap Z Z :=
  match p with
  | Done r => (r, c)
  | CacheGet key cont => exec (cont (c !! key)) c
  | CacheSet key value next => exec next (<[key := value]> c)
  end.

(** Calls made one after the other by one thread. *)
Fixpoint call_each (ns : list Z) (c : gmap Z Z) : list (outcome Z) * gmap Z Z :=
  match ns with
  | [] => ([], c)
  | n :: rest =>
      let first := exec (fibonacci_memo n) c in
      let others := call_each rest (snd first) in
      (fst first :: fst others, snd others)
  end.

(** ** The executors of [concurrent.futures] *)

(** A future of [Executor.map]: submitted and not yet picked up by a worker,
    being computed, done with a result or an exception, or cancelled. *)
Inductive future : Type :=
| Pending (task : Z)
| Running (p : prog)
| Finished (r : outcome Z)
| Cancelled.

(** A pool at work.  [spaces] gives every address space its cache, [futures]
    holds one future per input in submission order, and [completed] logs the
    indices in the order in which the workers finished them. *)
Record pool : Type := Pool {
  spaces : nat -> gmap Z Z;
  futures : list future;
  completed : list nat
}.

Definition set_space (s : nat) (c : gmap Z Z) (sp : nat -> gmap Z Z) : nat -> gmap Z Z :=
  fun s' => if Nat.eqb s' s then c else sp s'.

(** The worker of future [i] has finished with [r], leaving cache [c] in its
    address space [s]. *)
Definition settle (s i : nat) (rc : outcome Z * gmap Z Z) (p : pool) : pool :=
  {| spaces := set_space s (snd rc) (spaces p);
     futures := <[i := Finished (fst rc)]> (futures p);
     completed := completed p ++ [i] |}.

(** [executor.submit] for every input, in order: one pending future each. *)
Definition submit (numbers : list Z) (caches : nat -> gmap Z Z) : pool :=
  {| spaces := caches; futures := map Pending numbers; completed := [] |}.

Section Executor.
(** What a worker runs for a task, and the address space in which the
    worker of each future lives. *)
Variable fn : Z -> prog.
Variable scope : nat -> nat.

(** One atomic step of the worker of future [i]: pick the task up, do one
    cache action, or set the result.  A future that is done, cancelled or
    out of range does not move. *)
Definition step (i : nat) (p : pool) : pool :=
  match futures p !! i with
  | Some (Pending task) =>
      {| spaces := spaces p;
         futures := <[i := Running (fn task)]> (futures p);
         completed := completed p |}
  | Some (Running (Done r)) =>
      {| spaces := spaces p;
         futures := <[i := Finished r]> (futures p);
         completed := completed p ++ [i] |}
  | Some (Running (CacheGet key cont)) =>
      {| spaces := spaces p;
         futures := <[i := Running (cont (spaces p (scope i) !! key))]> (futures p);
         completed := completed p |}
  | Some (Running (CacheSet key value next)) =>
      {| spaces := set_space (scope i) (<[key := value]> (spaces p (scope i))) (spaces p);
         futures := <[i := Running next]> (futures p);
         completed := completed p |}
  | _ => p
  end.

(** The workers advance in the order the scheduler picks. *)
Definition interleave (sched : list nat) (p : pool) : pool :=
  foldl (fun q i => step i q) p sched.

(** [future.result()]: the caller blocks until future [i] is done. *)
Definition wait (i : nat) (p : pool) : pool :=
  match futures p !! i with
  | Some (Pending task) => settle (scope i) i (exec (fn task) (spaces p (scope i))) p
  | Some (Running q) => settle (scope i) i (exec q (spaces p (scope i))) p
  | _ => p
  end.

(** [future.cancel()] on every future: only one that no worker has picked
    up is cancelled. *)
Definition cancel_pending (p : pool) : pool :=
  {| spaces := spaces p;
     futures := map (fun f => match f with Pending _ => Cancelled | _ => f end) (futures p);
     completed := completed p |}.

(** The iterator that [Executor.map] returns, consumed by [list(...)]: the
    results of the futures in submission order, from future [i] on.  The
    first future that holds an exception re-raises it, and the iterator
    cancels what is left. *)
Fixpoint result_iterator (i count : nat) (p : pool) : outcome (list Z) * pool :=
  match count with
  | O => (Return [], p)
  | S count' =>
      let p1 := wait i p in
      match futures p1 !! i with
      | Some (Finished (Return v)) =>
          let rest := result_iterator (S i) count' p1 in
          (outcome_bind (fst rest) (fun vs => Return (v :: vs)), snd rest)
      | Some (Finished (Raise e)) => (Raise e, cancel_pending p1)
      | _ => (Raise (PyError "CancelledError"), p1)
      end
  end.

(** [Executor.shutdown(wait=True)], which leaving the [with] block calls:
    every future that is not cancelled runs to its end. *)
Definition shutdown (p : pool) : pool :=
  foldl (fun q i => wait i q) p (seq 0 (length (futures p))).

(** [with Executor() as executor: results = list(executor.map(fn, numbers))]:
    submit every input, let the workers run as [sched] says, read the
    results in submission order, shut the pool down. *)
Definition run_pool (sched : list nat) (numbers : list Z) (caches : nat -> gmap Z Z)
  : outcome (list Z) * pool :=
  let read := result_iterator 0 (length numbers) (interleave sched (submit numbers caches)) in
  (fst read, shutdown (snd read)).
End Executor.

(** ** The world of the main process *)

(** The line that [measure_time] prints; [elapsed] is the float that the
    format [{elapsed:.4f}] renders. *)
Inductive line : Type :=
| Took (func_name : string) (elapsed : float).

(** [clock k] is what the [k]-th call of [time.time()] returns, [reads] counts
    the calls made so far, [stdout] is what has been printed, and [memo] is
    the cache of [fibonacci_memo] in the main process. *)
Record world : Type := World {
  clock : nat -> float;
  reads : nat;
  stdout : list line;
  memo : gmap Z Z
}.

Definition M (A : Type) : Type := world -> outcome A * world.

Definition time_time (w : world) : float * world :=
  (clock w (reads w),
   {| clock := clock w; reads := S (reads w); stdout := stdout w; memo := memo w |}).

Definition print (l : line) (w : world) : world :=
  {| clock := clock w; reads := reads w; stdout := stdout w ++ [l]; memo := memo w |}.

Definition set_memo (c : gmap Z Z) (w : world) : world :=
  {| clock := clock w; reads := reads w; stdout := stdout w; memo := c |}.

(** [measure_time(func)]: the wrapper reads the clock, calls [func], reads the
    clock again, prints the difference and returns the result.  There is no
    [try]: an exception of [func] leaves the wrapper at the call. *)
Definition measure_time {A B : Type} (func_name : string) (func : A -> M B) : A -> M B :=
  fun args w =>
    let (start_time, w1) := time_time w in
    match func args w1 with
    | (Return result, w2) =>
        let (end_time, w3) := time_time w2 in
        let elapsed := PrimFloat.sub end_time start_time in
        (Return result, print (Took func_name elapsed) w3)
    | (Raise e, w2) => (Raise e, w2)
    end.

(** ** The strategies *)

(** What the host decides in one run: the interleaving of the workers, the
    worker process that serves each future, and whether a worker process
    starts as a fork of the main process (with a copy of its memory) or as a
    fresh interpreter. *)
Record host : Type := Host {
  schedule : list nat;
  worker_of : nat -> nat;
  forked : bool
}.

(** The threads of a [ThreadPoolExecutor] live in the main process: one
    address space, and the cache of the main process. *)
Definition thread_pool_run (fn : Z -> prog) (h : host) (numbers : list Z) (w : world)
  : outcome (list Z) * pool :=
  run_pool fn (fun _ => 0%nat) (schedule h) numbers (fun _ => memo w).

Definition thread_pool_map (fn : Z -> prog) (h : host) (numbers : list Z) : M (list Z) :=
  fun w =>
    let run := thread_pool_run fn h numbers w in
    (fst run, set_memo (spaces (snd run) 0%nat) w).

(** The workers of a [ProcessPoolExecutor] are processes of their own: each
    has a private cache, and nothing of it comes back to the main process. *)
Definition process_pool_run (fn : Z -> prog) (h : host) (numbers : list Z) (w : world)
  : outcome (list Z) * pool :=
  run_pool fn (worker_of h) (schedule h) numbers
    (fun _ => if forked h then memo w else ∅).

Definition process_pool_map (fn : Z -> prog) (h : host) (numbers : list Z) : M (list Z) :=
  fun w => (fst (process_pool_run fn h numbers w), w).

(** A worker that calls a function which uses no cache. *)
Definition call (f : Z -> outcome Z) : Z -> prog := fun n => Done (f n).

(** The naive worker on a stack without bound: its call returns on every
    input.  [call (fibonacci_naive_at limit)] is the worker whose call has
    room for [limit] frames, and the two are the same on every input that has
    the room it needs ([naive_worker_at_enough]); so are
    [call (fun n => Return (fibonacci n))] and [call (fibonacci_at limit)]
    for the other file ([fibonacci_worker_at_enough]). *)
Definition naive_worker : Z -> prog := call (fun n => Return (fibonacci_naive n)).

(** The strategies on stacks without bound.  Those of [concu_vs_parall.py]: *)
Definition multi_threaded_fibonacci (h : host) : list Z -> M (list Z) :=
  measure_time "multi_threaded_fibonacci"
    (thread_pool_map (call (fun n => Return (fibonacci n))) h).

Definition multi_process_fibonacci (h : host) : list Z -> M (list Z) :=
  measure_time "multi_process_fibonacci"
    (process_pool_map (call (fun n => Return (fibonacci n))) h).

(** Those of [concu_vs_parall_with_patters.py]: *)
Definition multi_threaded_fibonacci_naive (h : host) : list Z -> M (list Z) :=
  measure_time "multi_threaded_fibonacci_naive" (thread_pool_map naive_worker h).

Definition multi_threaded_fibonacci_memo (h : host) : list Z -> M (list Z) :=
  measure_time "multi_threaded_fibonacci_memo" (thread_pool_map fibonacci_memo h).

Definition multi_process_fibonacci_naive (h : host) : list Z -> M (list Z) :=
  measure_time "multi_process_fibonacci_naive" (process_pool_map naive_worker h).

Definition multi_process_fibonacci_memo (h : host) : list Z -> M (list Z) :=
  measure_time "multi_process_fibonacci_memo" (process_pool_map fibonacci_memo h).

(** The naive strategies as CPython runs them when a worker has room for
    [limit] nested calls of [fibonacci_naive]. *)
Definition multi_threaded_fibonacci_naive_at (limit : nat) (h : host) : list Z -> M (list Z) :=
  measure_time "multi_threaded_fibonacci_naive"
    (thread_pool_map (call (fibonacci_naive_at limit)) h).

Definition multi_process_fibonacci_naive_at (limit : nat) (h : host) : list Z -> M (list Z) :=
  measure_time "multi_process_fibonacci_naive"
    (process_pool_map (call (fibonacci_naive_at limit)) h).

(** ** Hosts and worlds of the scenarios *)

(** The main process at start: nothing printed, an empty cache, and a clock
    that reads 100.0 at first and 102.5 from then on. *)
Definition boot : world :=
  {| clock := fun k => match k with O => 100%float | S _ => 102.5%float end;
     reads := 0;
     stdout := [];
     memo := ∅ |}.

(** A host whose workers have done nothing by the time the caller reads the
    results: the futures are then served in submission order. *)
Definition in_turn : host :=
  {| schedule := []; worker_of := fun i => i; forked := true |}.

(** A host that serves three futures last to first, on two worker processes
    started as fresh interpreters. *)
Definition last_first : host :=
  {| schedule := [2; 2; 1; 1; 0; 0]%nat; worker_of := fun i => (i mod 2)%nat; forked := false |}.

(** A wrapped function that raises. *)
Definition failing_call : unit -> M Z :=
  fun _ w => (Raise (PyError "ValueError"), w).

(** The words of the specification on the timing wrapper: it "records a
    timestamp immediately before invoking a strategy and another immediately
    after it returns (whether by success or propagated failure), computes the
    difference, and reports it".  So after every call, however it ends, the
    clock has been read once more than the wrapped call left it, and the last
    line printed is the difference of the two readings. *)
Definition times_every_exit : Prop :=
  forall (A B : Type) (func_name : string) (func : A -> M B) (args : A) (w : world),
    let inner := func args (snd (time_time w)) in
    let outer := measure_time func_name func args w in
    reads (snd outer) = S (reads (snd inner)) /\
    stdout (snd outer) =
      stdout (snd inner) ++
      [Took func_name
         (PrimFloat.sub (clock (snd inner) (reads (snd inner))) (clock w (reads w)))].

(** The words of the specification on a failing worker: the failure of the
    run "identif[ies] the failing Task's input and index".  So the index and
    the input of the first failing task can be read off what the run raises. *)
Definition failure_identifies_task (run : list Z -> outcome (list Z)) (f : Z -> outcome Z) : Prop :=
  exists identify : exn -> nat * Z,
    forall (numbers : list Z) (i : nat) (x : Z) (e : exn),
      numbers !! i = Some x ->
      f x = Raise e ->
      (forall j y, (j < i)%nat -> numbers !! j = Some y -> exists v, f y = Return v) ->
      forall e', run numbers = Raise e' -> identify e' = (i, x).

(** A call on [n] makes a call on [m]. *)
Definition calls (m n : Z) : Prop := 1 < n /\ (m = n - 1 \/ m = n - 2).

(** ** Invariants *)

Section Agreement.
(** The value that is expected under each key. *)
Variable val : Z -> Z.

(** Every entry of the cache is the expected value at its key. *)
Definition agrees (c : gmap Z Z) : Prop :=
  forall k v, c !! k = Some v -> v = val k.

(** [yields r p]: on a cache that agrees with [val], whatever the lookups
    of [p] find, [p] ends with [r], and it stores expected values only. *)
Fixpoint yields (r : outcome Z) (p : prog) : Prop :=
  match p with
  | Done r' => r' = r
  | CacheGet key cont => yields r (cont None) /\ yields r (cont (Some (val key)))
  | CacheSet key value next => value = val key /\ yields r next
  end.
End Agreement.

(** A sound cache of [fibonacci_memo]: every entry is the value of the naive
    function at its key. *)
Definition sound (c : gmap Z Z) : Prop := agrees fibonacci_naive c.

Section Tracking.
Variable val : Z -> Z.
(** What a worker's call ends with, for each task. *)
Variable spec : Z -> outcome Z.

(** Future [f] belongs to task [x]. *)
Definition tracks (x : Z) (f : future) : Prop :=
  match f with
  | Pending task => task = x
  | Running q => yields val (spec x) q
  | Finished r => r = spec x
  | Cancelled => True
  end.

(** The futures are those of the inputs, in their order, and every cache
    agrees with [val]. *)
Definition consistent (numbers : list Z) (p : pool) : Prop :=
  Forall2 tracks numbers (futures p) /\ forall s, agrees val (spaces p s).
End Tracking.

Definition live (f : future) : Prop := f <> Cancelled.

(** Future [j] is done. *)
Definition finished_at (fs : list future) (j : nat) : Prop :=
  exists r, fs !! j = Some (Finished r).

(** The log holds the futures that are done, each once. *)
Definition logged (p : pool) : Prop :=
  NoDup (completed p) /\ forall j, j ∈ completed p <-> finished_at (futures p) j.

(** No cache of [p] has lost or changed an entry in [q]. *)
Definition grows (p q : pool) : Prop :=
  forall s, spaces p s ⊆ spaces q s.

(** ** The counters of the cache *)

(** What [cache_info()] of the wrapper reports: the lookups that found their
    key and those that did not. *)
Record cache_info : Type := CacheInfo {
  hits : nat;
  misses : nat
}.

(** The counters after one thread has run a computation alone on a cache:
    the wrapper counts a hit or a miss at every lookup. *)
Fixpoint exec_info (p : prog) (c : gmap Z Z) (info : cache_info) : cache_info :=
  match p with
  | Done _ => info
  | CacheGet key cont =>
      match c !! key with
      | Some result =>
          exec_info (cont (Some result)) c {| hits := S (hits info); misses := misses info |}
      | None =>
          exec_info (cont None) c {| hits := hits info; misses := S (misses info) |}
      end
  | CacheSet key value next => exec_info next (<[key := value]> c) info
  end.

(** [stores_key val x p]: on a cache that agrees with [val], every run of [p]
    stores key [x] before it ends, unless a lookup of [x] itself finds it. *)
Fixpoint stores_key (val : Z -> Z) (x : Z) (p : prog) : Prop :=
  match p with
  | Done _ => False
  | CacheGet key cont =>
      stores_key val x (cont None) /\
      (key = x \/ stores_key val x (cont (Some (val key))))
  | CacheSet key value next => key = x \/ stores_key val x next
  end.

(** Every future that has been picked up either still has the store of its
    own input ahead, or finds its input in the cache of its address space. *)
Definition warming (val : Z -> Z) (scope : nat -> nat) (numbers : list Z) (p : pool) : Prop :=
  forall i x f,
    numbers !! i = Some x -> futures p !! i = Some f ->
    match f with
    | Running q => stores_key val x q \/ is_Some (spaces p (scope i) !! x)
    | Finished _ => is_Some (spaces p (scope i) !! x)
    | _ => True
    end.

(** No future runs a computation that has a cache action left. *)
Definition cache_free (p : pool) : Prop :=
  forall j q, futures p !! j = Some (Running q) -> exists r, q = Done r.

(** The world in which a decorated call that returns leaves the main
    process, when the call itself left it in [after]: the clock has been read
    once more, and one more line has been printed, the difference between
    that reading and the one taken in [w] before the call. *)
Definition timed (func_name : string) (w after : world) : world :=
  {| clock := clock after;
     reads := S (reads after);
     stdout := stdout after ++
               [Took func_name (PrimFloat.sub (clock after (reads after)) (clock w (reads w)))];
     memo := memo after |}.

(** ** The main programs *)

(** What the terminal shows: a line of text, a label followed by a list of
    results, or the line of a timing wrapper. *)
Inductive printed : Type :=
| Text (s : string)
| Values (label : string) (values : list Z)
| Timing (l : line).

(** The main process with its terminal. *)
Record terminal : Type := Terminal {
  process : world;
  screen : list printed
}.

Definition T (A : Type) : Type := terminal -> outcome A * terminal.

Definition say (s : string) : T unit :=
  fun t => (Return tt, {| process := process t; screen := screen t ++ [Text s] |}).

Definition show (label : string) (values : list Z) : T unit :=
  fun t => (Return tt, {| process := process t; screen := screen t ++ [Values label values] |}).

(** A call of a decorated strategy from a main program: what the wrapper
    prints during the call appears on the terminal. *)
Definition run {A : Type} (m : M A) : T A :=
  fun t =>
    let r := m (process t) in
    (fst r,
     {| process := snd r;
        screen := screen t ++
                  map Timing (drop (length (stdout (process t))) (stdout (snd r))) |}).

Definition then_ {A B : Type} (m : T A) (k : A -> T B) : T B :=
  fun t =>
    match m t with
    | (Return a, t') => k a t'
    | (Raise e, t') => (Raise e, t')
    end.

(** The list that both main programs compute. *)
Definition fib_numbers : list Z := [35; 36; 37; 38].

(** The text of a [print] that starts with a line feed. *)
Definition after_blank_line (s : string) : string :=
  String (Ascii.Ascii false true false true false false false false) s.

Module ConcuVsParall.
(** [concu_vs_parall.py], [main]; [h1] and [h2] are the hosts of the two runs. *)
Definition main (h1 h2 : host) : T unit :=
  then_ (say "=== Multi-Threading Demo ===") (fun _ =>
  then_ (run (multi_threaded_fibonacci h1 fib_numbers)) (fun thread_results =>
  then_ (show "Thread Results:" thread_results) (fun _ =>
  then_ (say (after_blank_line "=== Multi-Processing Demo ===")) (fun _ =>
  then_ (run (multi_process_fibonacci h2 fib_numbers)) (fun process_results =>
  show "Process Results:" process_results))))).
End ConcuVsParall.

Module ConcuVsParallWithPatterns.
(** [concu_vs_parall_with_patters.py], [main]; one host for each of the four
    runs. *)
Definition main (h1 h2 h3 h4 : host) : T unit :=
  then_ (say "=== Multi-Threading with Naive Fibonacci ===") (fun _ =>
  then_ (run (multi_threaded_fibonacci_naive h1 fib_numbers)) (fun thread_results_naive =>
  then_ (show "Thread Results (Naive):" thread_results_naive) (fun _ =>
  then_ (say (after_blank_line "=== Multi-Threading with Memoized Fibonacci ===")) (fun _ =>
  then_ (run (multi_threaded_fibonacci_memo h2 fib_numbers)) (fun thread_results_memo =>
  then_ (show "Thread Results (Memo):" thread_results_memo) (fun _ =>
  then_ (say (after_blank_line "=== Multi-Processing with Naive Fibonacci ===")) (fun _ =>
  then_ (run (multi_process_fibonacci_naive h3 fib_numbers)) (fun process_results_naive =>
  then_ (show "Process Results (Naive):" process_results_naive) (fun _ =>
  then_ (say (after_blank_line "=== Multi-Processing with Memoized Fibonacci ===")) (fun _ =>
  then_ (run (multi_process_fibonacci_memo h4 fib_numbers)) (fun process_results_memo =>
  show "Process Results (Memo):" process_results_memo))))))))))).
End ConcuVsParallWithPatterns.

(** The terminal of a main process that has printed nothing yet. *)
Definition blank (w : world) : terminal := {| process := w; screen := [] |}.

(** ** The compute functions under a limit on the call depth *)

(** [fibonacci] of [concu_vs_parall.py] run with room for [depth] frames, as
    [fibonacci_naive_at] is for the function of the other file. *)
Fixpoint fibonacci_at (depth : nat) (n : Z) : outcome Z :=
  match depth with
  | O => Raise RecursionError
  | S below =>
      if n <=? 1 then Return n
      else
        outcome_bind (fibonacci_at below (n - 1)) (fun a =>
        outcome_bind (fibonacci_at below (n - 2)) (fun b =>
        Return (a + b)))
  end.

(** [fibonacci_memo] run with room for [depth] frames.  A call of the
    decorated function enters the wrapper of [lru_cache], which takes one
    frame and looks the key up; on a miss the wrapper calls the function,
    which takes a second frame.  A call that finds no room for the wrapper
    raises [RecursionError] before the lookup; a miss that finds no room for
    the function raises it after the lookup and before any store.  Nothing
    catches the exception, and the wrapper stores a result only when the
    function has returned one. *)
Fixpoint fibonacci_memo_at (depth : nat) (n : Z) : prog :=
  match depth with
  | O => Done (Raise RecursionError)
  | S room =>
      lru_cache n
        (match room with
         | O => Done (Raise RecursionError)
         | S below =>
             if n <=? 1 then Done (Return n)
             else
               bind (fibonacci_memo_at below (n - 1)) (fun a =>
               bind (fibonacci_memo_at below (n - 2)) (fun b =>
               Done (Return (a + b))))
         end)
  end.

(** The frames that a call of the naive function on [n] needs, and those
    that a call of the memoized function on [n] needs when no key is cached:
    one frame, and two, for each of the nested calls on [n], [n - 1], ..., 1. *)
Definition naive_room (n : Z) : nat := if n <=? 1 then 1%nat else Z.to_nat n.

Definition memo_room (n : Z) : nat := (2 * naive_room n)%nat.


(** The strategies as CPython runs them when the call of a worker has room
    for [limit] frames. *)
Definition multi_threaded_fibonacci_at (limit : nat) (h : host) : list Z -> M (list Z) :=
  measure_time "multi_threaded_fibonacci"
    (thread_pool_map (call (fibonacci_at limit)) h).

Definition multi_process_fibonacci_at (limit : nat) (h : host) : list Z -> M (list Z) :=
  measure_time "multi_process_fibonacci"
    (process_pool_map (call (fibonacci_at limit)) h).

Definition multi_threaded_fibonacci_memo_at (limit : nat) (h : host) : list Z -> M (list Z) :=
  measure_time "multi_threaded_fibonacci_memo"
    (thread_pool_map (fibonacci_memo_at limit) h).

Definition multi_process_fibonacci_memo_at (limit : nat) (h : host) : list Z -> M (list Z) :=
  measure_time "multi_process_fibonacci_memo"
    (process_pool_map (fibonacci_memo_at limit) h).

(** ** Invariants of workers that can fail *)

Section Allowing.
Variable val : Z -> Z.

(** [ends_in P p]: on a cache that agrees with [val], whatever the lookups of
    [p] find, [p] ends with an outcome in [P], and it stores expected values
    only. *)
Fixpoint ends_in (P : outcome Z -> Prop) (p : prog) : Prop :=
  match p with
  | Done r => P r
  | CacheGet key cont => ends_in P (cont None) /\ ends_in P (cont (Some (val key)))
  | CacheSet key value next => value = val key /\ ends_in P next
  end.

(** What the call of a worker can end with, for each task. *)
Variable allowed : Z -> outcome Z -> Prop.

Definition follows (x : Z) (f : future) : Prop :=
  match f with
  | Pending task => task = x
  | Running q => ends_in (allowed x) q
  | Finished r => allowed x r
  | Cancelled => True
  end.

Definition coherent (numbers : list Z) (p : pool) : Prop :=
  Forall2 follows numbers (futures p) /\ forall s, agrees val (spaces p s).
End Allowing.

(** A call of [fibonacci_memo] on [x] returns the value of the naive function
    or raises [RecursionError]. *)
Definition value_or_overflow (x : Z) (r : outcome Z) : Prop :=
  r = Return (fibonacci_naive x) \/ r = Raise RecursionError.

(** Every task that a worker has yet to pick up is one of the inputs. *)
Definition submitted (numbers : list Z) (p : pool) : Prop :=
  Forall (fun f => match f with Pending task => task ∈ numbers | _ => True end) (futures p).



(** ** The drawing application *)

Module Draw.

(** The Tk canvas, as far as [draw.py] uses it.  [create_line] adds a line
    item and returns its id; Tk numbers the items of a canvas 1, 2, ... in
    the order of their creation, and the application deletes none, so the
    item of id [i] is the [i]-th element of the list.  The [state] option of
    an item is unset at creation; an item is displayed unless its state is
    [hidden].  [itemconfig] on an id that names no item does nothing. *)
Inductive item_state : Type := unset | normal | hidden.

Record line_item : Type := {
  coords : Z * Z * Z * Z;
  state : item_state
}.

Abbreviation Canvas := (list line_item).

Definition create_line (x0 y0 x1 y1 : Z) (canvas : Canvas) : nat * Canvas :=
  (S (length canvas), canvas ++ [{| coords := (x0, y0, x1, y1); state := unset |}]).

Definition configure (s : item_state) (item : line_item) : line_item :=
  {| coords := coords item; state := s |}.

Definition itemconfig (item_id : nat) (s : item_state) (canvas : Canvas) : Canvas :=
  match item_id with
  | O => canvas
  | S i => alter (configure s) i canvas
  end.

(** What the canvas displays: the lines that are not hidden, in stacking
    order. *)
Definition displayed (item : line_item) : bool :=
  match state item with hidden => false | _ => true end.

Definition picture (canvas : Canvas) : list (Z * Z * Z * Z) :=
  map coords (List.filter displayed canvas).

(** [list.pop()] on a non-empty list: the last element and the rest. *)
Definition pop {A : Type} (l : list A) : option (A * list A) :=
  match rev l with
  | [] => None
  | x :: r => Some (x, rev r)
  end.

(** The attributes of a [DrawingApp] that the drawing and undo logic uses. *)
Record DrawingApp : Type := {
  canvas : Canvas;
  last_x : option Z;
  last_y : option Z;
  current_stroke_item_ids : list nat;
  undo_stack : list (list nat);
  redo_stack : list (list nat)
}.

Definition __init__ : DrawingApp :=
  {| canvas := []; last_x := None; last_y := None;
     current_stroke_item_ids := []; undo_stack := []; redo_stack := [] |}.

Record Event : Type := { x : Z; y : Z }.

Definition on_button_press (event : Event) (self : DrawingApp) : DrawingApp :=
  {| canvas := canvas self;
     last_x := Some (x event); last_y := Some (y event);
     current_stroke_item_ids := [];
     undo_stack := undo_stack self; redo_stack := redo_stack self |}.

Definition draw (event : Event) (self : DrawingApp) : DrawingApp :=
  match last_x self, last_y self with
  | Some lx, Some ly =>
      let (item_id, canvas') := create_line lx ly (x event) (y event) (canvas self) in
      {| canvas := canvas';
         last_x := Some (x event); last_y := Some (y event);
         current_stroke_item_ids := current_stroke_item_ids self ++ [item_id];
         undo_stack := undo_stack self; redo_stack := redo_stack self |}
  | _, _ =>
      {| canvas := canvas self;
         last_x := Some (x event); last_y := Some (y event);
         current_stroke_item_ids := current_stroke_item_ids self;
         undo_stack := undo_stack self; redo_stack := redo_stack self |}
  end.

Definition on_button_release (event : Event) (self : DrawingApp) : DrawingApp :=
  match current_stroke_item_ids self with
  | [] =>
      {| canvas := canvas self; last_x := None; last_y := None;
         current_stroke_item_ids := [];
         undo_stack := undo_stack self; redo_stack := [] |}
  | stroke =>
      {| canvas := canvas self; last_x := None; last_y := None;
         current_stroke_item_ids := [];
         undo_stack := undo_stack self ++ [stroke]; redo_stack := [] |}
  end.

(** The loop [for item_id in stroke: self.canvas.itemconfig(item_id, state=s)]. *)
Definition itemconfig_each (stroke : list nat) (s : item_state) (canvas : Canvas) : Canvas :=
  fold_left (fun canvas item_id => itemconfig item_id s canvas) stroke canvas.

Definition undo (self : DrawingApp) : DrawingApp :=
  match pop (undo_stack self) with
  | None => self
  | Some (stroke, rest) =>
      {| canvas := itemconfig_each stroke hidden (canvas self);
         last_x := last_x self; last_y := last_y self;
         current_stroke_item_ids := current_stroke_item_ids self;
         undo_stack := rest; redo_stack := redo_stack self ++ [stroke] |}
  end.

Definition redo (self : DrawingApp) : DrawingApp :=
  match pop (redo_stack self) with
  | None => self
  | Some (stroke, rest) =>
      {| canvas := itemconfig_each stroke normal (canvas self);
         last_x := last_x self; last_y := last_y self;
         current_stroke_item_ids := current_stroke_item_ids self;
         undo_stack := undo_stack self ++ [stroke]; redo_stack := rest |}
  end.

Definition handle_undo_key (self : DrawingApp) : DrawingApp := undo self.

Definition handle_redo_key (self : DrawingApp) : DrawingApp := redo self.

(** The events bound in [__init__], and the main loop that hands each event
    to its handler. *)
Inductive binding : Type :=
| ButtonPress_1 (event : Event)
| B1_Motion (event : Event)
| ButtonRelease_1 (event : Event)
| Control_z
| Control_Shift_z
| Control_Z.

Definition dispatch (self : DrawingApp) (b : binding) : DrawingApp :=
  match b with
  | ButtonPress_1 event => on_button_press event self
  | B1_Motion event => draw event self
  | ButtonRelease_1 event => on_button_release event self
  | Control_z => handle_undo_key self
  | Control_Shift_z => handle_redo_key self
  | Control_Z => handle_redo_key self
  end.

Definition mainloop (events : list binding) (self : DrawingApp) : DrawingApp :=
  fold_left dispatch events self.

(** The state of the item of an id, if there is one. *)
Definition item (canvas : Canvas) (item_id : nat) : option line_item :=
  match item_id with
  | O => None
  | S i => canvas !! i
  end.

(** The invariant of the stacks: the ids they hold name items of the canvas,
    no id occurs twice, the strokes that can be undone and the stroke in
    progress are displayed, the strokes that can be redone are hidden, and no
    stroke of a stack is empty. *)
Definition shows (canvas : Canvas) (b : bool) (item_id : nat) : Prop :=
  displayed <$> item canvas item_id = Some b.

Definition held (self : DrawingApp) : list nat :=
  concat (undo_stack self) ++ concat (redo_stack self) ++ current_stroke_item_ids self.

Record stacked (self : DrawingApp) : Prop := {
  stacked_once : NoDup (held self);
  stacked_undo : Forall (shows (canvas self) true) (concat (undo_stack self));
  stacked_current : Forall (shows (canvas self) true) (current_stroke_item_ids self);
  stacked_redo : Forall (fun item_id => state <$> item (canvas self) item_id = Some hidden)
                        (concat (redo_stack self));
  stacked_strokes : Forall (fun stroke => stroke <> []) (undo_stack self ++ redo_stack self)
}.

(** The segments of a stroke that starts at [(x0, y0)] and moves through
    [points]. *)
Fixpoint segments (x0 y0 : Z) (points : list Event) : list line_item :=
  match points with
  | [] => []
  | p :: points =>
      {| coords := (x0, y0, x p, y p); state := unset |} :: segments (x p) (y p) points
  end.

Definition stroke_events (start : Event) (points : list Event) (stop : Event) : list binding :=
  ButtonPress_1 start :: map B1_Motion points ++ [ButtonRelease_1 stop].

End Draw.

(** ** The reaction game *)

Module ReactionGame.

(** The widgets, as far as the game configures them: the background of a key
    button, and the state of the [Next Level] button. *)
Inductive colour : Type := gray | red | green.

Inductive button_state : Type := normal | disabled.

(** The bound methods that the game hands to [master.after]. *)
Inductive callback : Type := Light_next_key | Reset_key.

(** The attributes of a [ReactionGame] that its methods assign, with what the
    process holds for it: [pending], the timers of [master.after] that have
    not fired yet, each with its delay; [random k], what the [k]-th call of
    [random.randint(0, 7)] returns, and [drawn], the number of calls made;
    [reported], the exceptions that left a callback, which Tk reports before
    it goes on with the next event.  [key_buttons] holds the background of
    each of the eight key buttons; [info_label] and [next_level_button] hold
    the text and the state of these widgets. *)
Record ReactionGame : Type := {
  level : Z;
  sequence_length : Z;
  sequence : list Z;
  current_index : Z;
  is_game_running : bool;
  waiting_for_click : bool;
  info_label : string;
  key_buttons : list colour;
  next_level_button : button_state;
  pending : list (Z * callback);
  random : nat -> Z;
  drawn : nat;
  reported : list exn
}.

Definition set_level (v : Z) (self : ReactionGame) : ReactionGame :=
  {| level := v; sequence_length := sequence_length self; sequence := sequence self;
     current_index := current_index self; is_game_running := is_game_running self;
     waiting_for_click := waiting_for_click self; info_label := info_label self;
     key_buttons := key_buttons self; next_level_button := next_level_button self;
     pending := pending self; random := random self; drawn := drawn self;
     reported := reported self |}.

Definition set_sequence_length (v : Z) (self : ReactionGame) : ReactionGame :=
  {| level := level self; sequence_length := v; sequence := sequence self;
     current_index := current_index self; is_game_running := is_game_running self;
     waiting_for_click := waiting_for_click self; info_label := info_label self;
     key_buttons := key_buttons self; next_level_button := next_level_button self;
     pending := pending self; random := random self; drawn := drawn self;
     reported := reported self |}.

Definition set_sequence (v : list Z) (self : ReactionGame) : ReactionGame :=
  {| level := level self; sequence_length := sequence_length self; sequence := v;
     current_index := current_index self; is_game_running := is_game_running self;
     waiting_for_click := waiting_for_click self; info_label := info_label self;
     key_buttons := key_buttons self; next_level_button := next_level_button self;
     pending := pending self; random := random self; drawn := drawn self;
     reported := reported self |}.

Definition set_current_index (v : Z) (self : ReactionGame) : ReactionGame :=
  {| level := level self; sequence_length := sequence_length self;
     sequence := sequence self; current_index := v;
     is_game_running := is_game_running self;
     waiting_for_click := waiting_for_click self; info_label := info_label self;
     key_buttons := key_buttons self; next_level_button := next_level_button self;
     pending := pending self; random := random self; drawn := drawn self;
     reported := reported self |}.

Definition set_is_game_running (v : bool) (self : ReactionGame) : ReactionGame :=
  {| level := level self; sequence_length := sequence_length self;
     sequence := sequence self; current_index := current_index self;
     is_game_running := v; waiting_for_click := waiting_for_click self;
     info_label := info_label self; key_buttons := key_buttons self;
     next_level_button := next_level_button self; pending := pending self;
     random := random self; drawn := drawn self; reported := reported self |}.

Definition set_waiting_for_click (v : bool) (self : ReactionGame) : ReactionGame :=
  {| level := level self; sequence_length := sequence_length self;
     sequence := sequence self; current_index := current_index self;
     is_game_running := is_game_running self; waiting_for_click := v;
     info_label := info_label self; key_buttons := key_buttons self;
     next_level_button := next_level_button self; pending := pending self;
     random := random self; drawn := drawn self; reported := reported self |}.

Definition set_info_label (v : string) (self : ReactionGame) : ReactionGame :=
  {| level := level self; sequence_length := sequence_length self;
     sequence := sequence self; current_index := current_index self;
     is_game_running := is_game_running self;
     waiting_for_click := waiting_for_click self; info_label := v;
     key_buttons := key_buttons self; next_level_button := next_level_button self;
     pending := pending self; random := random self; drawn := drawn self;
     reported := reported self |}.

Definition set_key_buttons (v : list colour) (self : ReactionGame) : ReactionGame :=
  {| level := level self; sequence_length := sequence_length self;
     sequence := sequence self; current_index := current_index self;
     is_game_running := is_game_running self;
     waiting_for_click := waiting_for_click self; info_label := info_label self;
     key_buttons := v; next_level_button := next_level_button self;
     pending := pending self; random := random self; drawn := drawn self;
     reported := reported self |}.

Definition set_next_level_button (v : button_state) (self : ReactionGame) : ReactionGame :=
  {| level := level self; sequence_length := sequence_length self;
     sequence := sequence self; current_index := current_index self;
     is_game_running := is_game_running self;
     waiting_for_click := waiting_for_click self; info_label := info_label self;
     key_buttons := key_buttons self; next_level_button := v; pending := pending self;
     random := random self; drawn := drawn self; reported := reported self |}.

Definition set_pending (v : list (Z * callback)) (self : ReactionGame) : ReactionGame :=
  {| level := level self; sequence_length := sequence_length self;
     sequence := sequence self; current_index := current_index self;
     is_game_running := is_game_running self;
     waiting_for_click := waiting_for_click self; info_label := info_label self;
     key_buttons := key_buttons self; next_level_button := next_level_button self;
     pending := v; random := random self; drawn := drawn self;
     reported := reported self |}.

Definition set_drawn (v : nat) (self : ReactionGame) : ReactionGame :=
  {| level := level self; sequence_length := sequence_length self;
     sequence := sequence self; current_index := current_index self;
     is_game_running := is_game_running self;
     waiting_for_click := waiting_for_click self; info_label := info_label self;
     key_buttons := key_buttons self; next_level_button := next_level_button self;
     pending := pending self; random := random self; drawn := v;
     reported := reported self |}.

Definition set_reported (v : list exn) (self : ReactionGame) : ReactionGame :=
  {| level := level self; sequence_length := sequence_length self;
     sequence := sequence self; current_index := current_index self;
     is_game_running := is_game_running self;
     waiting_for_click := waiting_for_click self; info_label := info_label self;
     key_buttons := key_buttons self; next_level_button := next_level_button self;
     pending := pending self; random := random self; drawn := drawn self;
     reported := v |}.

Definition lights_per_level : Z := 10.

Definition lights_increment : Z := 5.

Definition key_map : gmap string Z :=
  list_to_map [("a", 0); ("s", 1); ("d", 2); ("f", 3);
               ("j", 4); ("k", 5); ("l", 6); (";", 7)].

Definition button_labels : list string := ["A"; "S"; "D"; "F"; "J"; "K"; "L"; ";"].

(** [str(n)] for an integer, as an f-string renders it. *)
Definition str (n : Z) : string := NilZero.string_of_int (Z.to_int n).

(** [s.lower()], on text given by its UTF-8 bytes.  The capital letters of
    ASCII go to their small letters.  Two characters outside ASCII have a
    lower case that holds an ASCII letter: KELVIN SIGN (U+212A, bytes E2 84
    AA) goes to [k], and LATIN CAPITAL LETTER I WITH DOT ABOVE (U+0130, bytes
    C4 B0) goes to [i] followed by COMBINING DOT ABOVE (bytes CC 87).  Every
    other character outside ASCII is kept as it is, where [str.lower] gives a
    character outside ASCII as well: the two texts are then the same key of
    [key_map], or both none. *)
Definition lower_ascii (c : Ascii.ascii) : Ascii.ascii :=
  let n := Ascii.nat_of_ascii c in
  if ((65 <=? n) && (n <=? 90))%nat then Ascii.ascii_of_nat (n + 32) else c.

Definition byte_is (n : nat) (c : Ascii.ascii) : bool := (Ascii.nat_of_ascii c =? n)%nat.

Fixpoint lower (s : string) : string :=
  match s with
  | EmptyString => EmptyString
  | String c1 s1 =>
      match s1 with
      | String c2 s2 =>
          if byte_is 196 c1 && byte_is 176 c2 then
            String (Ascii.ascii_of_nat 105)
              (String (Ascii.ascii_of_nat 204) (String (Ascii.ascii_of_nat 135) (lower s2)))
          else
            match s2 with
            | String c3 s3 =>
                if byte_is 226 c1 && byte_is 132 c2 && byte_is 170 c3 then
                  String (Ascii.ascii_of_nat 107) (lower s3)
                else String (lower_ascii c1) (lower s1)
            | EmptyString => String (lower_ascii c1) (lower s1)
            end
      | EmptyString => String (lower_ascii c1) EmptyString
      end
  end.

(** The text of KELVIN SIGN (U+212A). *)
Definition kelvin_sign : string :=
  String (Ascii.ascii_of_nat 226)
    (String (Ascii.ascii_of_nat 132) (String (Ascii.ascii_of_nat 170) EmptyString)).

(** Indexing a Python list: an index from [-len] to [len - 1] names an
    element, counting from the end when it is negative; any other index
    raises [IndexError]. *)
Definition IndexError : exn := PyError "IndexError".

Definition position {A : Type} (l : list A) (i : Z) : outcome nat :=
  let n := Z.of_nat (length l) in
  if (0 <=? i) && (i <? n) then Return (Z.to_nat i)
  else if (- n <=? i) && (i <? 0) then Return (Z.to_nat (i + n))
  else Raise IndexError.

Definition getitem {A : Type} (l : list A) (i : Z) : outcome A :=
  match position l i with
  | Return k =>
      match l !! k with
      | Some a => Return a
      | None => Raise IndexError
      end
  | Raise e => Raise e
  end.

Definition __init__ (random : nat -> Z) : ReactionGame :=
  {| level := 1; sequence_length := 0; sequence := []; current_index := 0;
     is_game_running := false; waiting_for_click := false;
     info_label := "Press 'Start' to begin!";
     key_buttons := map (fun _ => gray) button_labels;
     next_level_button := disabled;
     pending := []; random := random; drawn := 0; reported := [] |}.

(** [self.master.after(ms, callback)]. *)
Definition after (ms : Z) (cb : callback) (self : ReactionGame) : ReactionGame :=
  set_pending (pending self ++ [(ms, cb)]) self.

(** [[random.randint(0, 7) for _ in range(n)]]. *)
Definition randints (n : Z) (self : ReactionGame) : list Z * ReactionGame :=
  (map (fun k => random self (drawn self + k)%nat) (seq 0 (Z.to_nat n)),
   set_drawn (drawn self + Z.to_nat n)%nat self).

(** [self.key_buttons[i].config(bg=c)]. *)
Definition config_bg (i : Z) (c : colour) (self : ReactionGame)
  : outcome unit * ReactionGame :=
  match position (key_buttons self) i with
  | Return k => (Return tt, set_key_buttons (<[k := c]> (key_buttons self)) self)
  | Raise e => (Raise e, self)
  end.

Definition start_game (self : ReactionGame) : outcome unit * ReactionGame :=
  if is_game_running self then (Return tt, self)
  else
    let self := set_info_label ("Get ready... Level " ++ str (level self)) self in
    let self := set_is_game_running true self in
    let self := set_current_index 0 self in
    let self :=
      set_sequence_length (lights_per_level + (level self - 1) * lights_increment) self in
    let self := set_next_level_button disabled self in
    let (numbers, self) := randints (sequence_length self) self in
    let self := set_sequence numbers self in
    (Return tt, after 1500 Light_next_key self).

Definition finish_level (self : ReactionGame) : outcome unit * ReactionGame :=
  let self := set_is_game_running false self in
  let self := set_info_label ("Level " ++ str (level self) ++ " complete!") self in
  let self := set_next_level_button normal self in
  (Return tt, set_key_buttons (map (fun _ => gray) (key_buttons self)) self).

Definition light_next_key (self : ReactionGame) : outcome unit * ReactionGame :=
  if current_index self >=? sequence_length self then finish_level self
  else
    match getitem (sequence self) (current_index self) with
    | Raise e => (Raise e, self)
    | Return key_idx =>
        let self :=
          set_key_buttons
            (imap (fun i _ => if Z.of_nat i =? key_idx then red else gray)
                  (key_buttons self)) self in
        (Return tt, set_waiting_for_click true self)
    end.

Definition on_key_press (char : string) (self : ReactionGame)
  : outcome unit * ReactionGame :=
  if negb (is_game_running self) || negb (waiting_for_click self) then (Return tt, self)
  else
    let pressed_char := lower char in
    match key_map !! pressed_char with
    | None => (Return tt, self)
    | Some pressed_idx =>
        match getitem (sequence self) (current_index self) with
        | Raise e => (Raise e, self)
        | Return correct_idx =>
            if pressed_idx =? correct_idx then
              match config_bg correct_idx green self with
              | (Raise e, self) => (Raise e, self)
              | (Return _, self) =>
                  let self := set_waiting_for_click false self in
                  (Return tt, after 300 Reset_key self)
              end
            else (Return tt, set_info_label "Wrong key! Try again..." self)
        end
    end.

Definition reset_key (self : ReactionGame) : outcome unit * ReactionGame :=
  match getitem (sequence self) (current_index self) with
  | Raise e => (Raise e, self)
  | Return correct_idx =>
      match config_bg correct_idx gray self with
      | (Raise e, self) => (Raise e, self)
      | (Return _, self) =>
          let self := set_current_index (current_index self + 1) self in
          light_next_key self
      end
  end.

Definition next_level (self : ReactionGame) : outcome unit * ReactionGame :=
  let self := set_level (level self + 1) self in
  let self := set_info_label ("Starting Level " ++ str (level self)) self in
  start_game self.

(** The events of the main loop: a click on [Start], a click on [Next Level]
    (which Tk ignores while the button is disabled), a key press with its
    text, and the expiry of a pending timer.  The timers are not ordered in
    the model: any pending one can fire.  An exception that leaves a callback
    is reported, and the loop goes on. *)
Inductive event : Type :=
| Start_command
| Next_level_command
| KeyPress (char : string)
| Timer (k : nat).

Definition call (cb : callback) : ReactionGame -> outcome unit * ReactionGame :=
  match cb with
  | Light_next_key => light_next_key
  | Reset_key => reset_key
  end.

Definition report (r : outcome unit * ReactionGame) : ReactionGame :=
  match r with
  | (Return _, self) => self
  | (Raise e, self) => set_reported (reported self ++ [e]) self
  end.

Definition dispatch (self : ReactionGame) (e : event) : ReactionGame :=
  match e with
  | Start_command => report (start_game self)
  | Next_level_command =>
      match next_level_button self with
      | normal => report (next_level self)
      | disabled => self
      end
  | KeyPress char => report (on_key_press char self)
  | Timer k =>
      match pending self !! k with
      | Some (_, cb) => report (call cb (set_pending (delete k (pending self)) self))
      | None => self
      end
  end.

Definition mainloop (events : list event) (self : ReactionGame) : ReactionGame :=
  fold_left dispatch events self.

(** The invariant of the game.  Between two levels nothing is pending.
    During a level the sequence has the length of the level, its entries name
    key buttons, the index names an entry, the [Next Level] button is
    disabled, and the game is in one of three phases: the timer that lights
    the first key is pending; a key is lit and awaited; or the key has just
    been pressed and the timer that resets it is pending. *)
Definition level_sequence (self : ReactionGame) : Prop :=
  sequence_length self = lights_per_level + (level self - 1) * lights_increment /\
  Z.of_nat (length (sequence self)) = sequence_length self /\
  Forall (fun key_idx => 0 <= key_idx <= 7) (sequence self).

Definition lit (key_idx : Z) : list colour :=
  map (fun i => if Z.of_nat i =? key_idx then red else gray) (seq 0 8).

Definition between_levels (self : ReactionGame) : Prop :=
  is_game_running self = false /\ waiting_for_click self = false /\ pending self = [].

Definition getting_ready (self : ReactionGame) : Prop :=
  waiting_for_click self = false /\ pending self = [(1500, Light_next_key)] /\
  current_index self = 0.

Definition awaiting_key (self : ReactionGame) : Prop :=
  waiting_for_click self = true /\ pending self = [] /\
  exists key_idx, sequence self !! Z.to_nat (current_index self) = Some key_idx /\
                  key_buttons self = lit key_idx.

Definition key_pressed (self : ReactionGame) : Prop :=
  waiting_for_click self = false /\ pending self = [(300, Reset_key)].

Definition in_level (self : ReactionGame) : Prop :=
  is_game_running self = true /\ next_level_button self = disabled /\
  level_sequence self /\ 0 <= current_index self < sequence_length self /\
  (getting_ready self \/ awaiting_key self \/ key_pressed self).

Definition well_formed (self : ReactionGame) : Prop :=
  1 <= level self /\ reported self = [] /\ length (key_buttons self) = 8%nat /\
  (forall k, 0 <= random self k <= 7) /\
  (between_levels self \/ in_level self).

(** The key presses and timer expiries that play the keys [keys] one after
    the other: for each one, the key labelled on its button, then the timer
    that resets the button. *)
Definition label_of (key_idx : Z) : string :=
  default ""%string (button_labels !! Z.to_nat key_idx).

Definition play (keys : list Z) : list event :=
  flat_map (fun key_idx => [KeyPress (label_of key_idx); Timer 0]) keys.

(** The game while it awaits the key of index [i] of the level's sequence, and
    the game when the level is complete. *)
Definition awaiting (self : ReactionGame) (keys : list Z) (i : Z) : ReactionGame :=
  {| level := level self; sequence_length := Z.of_nat (length keys); sequence := keys;
     current_index := i; is_game_running := true; waiting_for_click := true;
     info_label := info_label self;
     key_buttons := lit (default 0 (keys !! Z.to_nat i));
     next_level_button := disabled; pending := []; random := random self;
     drawn := drawn self; reported := [] |}.

Definition completed (self : ReactionGame) (keys : list Z) : ReactionGame :=
  {| level := level self; sequence_length := Z.of_nat (length keys); sequence := keys;
     current_index := Z.of_nat (length keys);
     is_game_running := false; waiting_for_click := false;
     info_label := "Level " ++ str (level self) ++ " complete!";
     key_buttons := replicate 8 gray;
     next_level_button := normal; pending := []; random := random self;
     drawn := drawn self; reported := [] |}.

End ReactionGame.

(** * Properties of the compute functions *)

Lemma fibonacci_naive_body (n : Z) :
  fibonacci_naive n =
  if n <=? 1 then n else fibonacci_naive (n - 1) + fibonacci_naive (n - 2).
Proof.
  rewrite fibonacci_naive_equation_1.
  destruct (Z_le_gt_dec n 1) as [Hle | Hgt]; simpl.
  - destruct (Z.leb_spec n 1); [reflexivity | lia].
  - destruct (Z.leb_spec n 1); [lia | reflexivity].
Qed.

Lemma fibonacci_body (n : Z) :
  fibonacci n = if n <=? 1 then n else fibonacci (n - 1) + fibonacci (n - 2).
Proof.
  rewrite fibonacci_equation_1.
  destruct (Z_le_gt_dec n 1) as [Hle | Hgt]; simpl.
  - destruct (Z.leb_spec n 1); [reflexivity | lia].
  - destruct (Z.leb_spec n 1); [lia | reflexivity].
Qed.

Lemma fibonacci_naive_base (n : Z) : n <= 1 -> fibonacci_naive n = n.
Proof.
  intros Hn. rewrite fibonacci_naive_body.
  destruct (Z.leb_spec n 1); [reflexivity | lia].
Qed.

Lemma fibonacci_naive_step (n : Z) :
  2 <= n -> fibonacci_naive n = fibonacci_naive (n - 1) + fibonacci_naive (n - 2).
Proof.
  intros Hn. rewrite fibonacci_naive_body at 1.
  destruct (Z.leb_spec n 1); [lia | reflexivity].
Qed.

(** Induction along the calls of the recursive functions. *)
Lemma call_induction (P : Z -> Prop) :
  (forall n, n <= 1 -> P n) ->
  (forall n, 2 <= n -> P (n - 1) -> P (n - 2) -> P n) ->
  forall n, P n.
Proof.
  intros Hbase Hstep n.
  remember (Z.to_nat n) as m eqn:Hm.
  revert n Hm. induction m as [m IH] using lt_wf_ind. intros n Hm.
  destruct (Z_le_gt_dec n 1) as [Hle | Hgt].
  - apply Hbase, Hle.
  - apply Hstep; [lia | |]; (eapply IH; [| reflexivity]; lia).
Qed.

Lemma fibonacci_is_naive (n : Z) : fibonacci n = fibonacci_naive n.
Proof.
  induction n as [n Hn | n Hn IH1 IH2] using call_induction;
    rewrite fibonacci_body, fibonacci_naive_body;
    destruct (Z.leb_spec n 1); try lia; congruence.
Qed.

Lemma fibonacci_naive_nonneg (n : Z) : 0 <= n -> 0 <= fibonacci_naive n.
Proof.
  induction n as [n Hn | n Hn IH1 IH2] using call_induction; intros H0.
  - rewrite fibonacci_naive_base by lia. lia.
  - rewrite fibonacci_naive_step by lia.
    assert (0 <= fibonacci_naive (n - 1)) by (apply IH1; lia).
    assert (0 <= fibonacci_naive (n - 2)) by (apply IH2; lia). lia.
Qed.

Lemma accumulate_shift (rounds : nat) (m : Z) :
  0 <= m ->
  accumulate rounds (fibonacci_naive m) (fibonacci_naive (m + 1)) =
  fibonacci_naive (m + Z.of_nat rounds).
Proof.
  revert m. induction rounds as [| rounds IH]; intros m Hm.
  - simpl. f_equal. lia.
  - cbn [accumulate].
    replace (fibonacci_naive m + fibonacci_naive (m + 1))
      with (fibonacci_naive (m + 1 + 1)).
    + rewrite IH by lia. f_equal. lia.
    + rewrite (fibonacci_naive_step (m + 1 + 1)) by lia.
      replace (m + 1 + 1 - 1) with (m + 1) by lia.
      replace (m + 1 + 1 - 2) with m by lia. lia.
Qed.

Lemma closed_form_is_naive (n : Z) : 0 <= n -> closed_form n = fibonacci_naive n.
Proof.
  intros Hn. unfold closed_form.
  change 0 with (fibonacci_naive 0) at 1.
  change 1 with (fibonacci_naive (0 + 1)) at 1.
  rewrite accumulate_shift by lia. f_equal. lia.
Qed.

(** With room for the calls, the run under a depth limit returns the value of
    the function; and it returns no other value. *)
Lemma fibonacci_naive_at_enough (depth : nat) (n : Z) :
  (0 < depth)%nat -> n <= Z.of_nat depth ->
  fibonacci_naive_at depth n = Return (fibonacci_naive n).
Proof.
  revert n. induction depth as [| depth IH]; intros n Hpos Hn; [lia |].
  cbn [fibonacci_naive_at]. rewrite fibonacci_naive_body.
  destruct (Z.leb_spec n 1) as [Hle | Hgt]; [reflexivity |].
  rewrite !IH by lia. reflexivity.
Qed.

Lemma fibonacci_naive_at_value (depth : nat) (n v : Z) :
  fibonacci_naive_at depth n = Return v -> v = fibonacci_naive n.
Proof.
  revert n v. induction depth as [| depth IH]; intros n v; [discriminate |].
  cbn [fibonacci_naive_at]. rewrite fibonacci_naive_body.
  destruct (Z.leb_spec n 1) as [Hle | Hgt]; [congruence |].
  destruct (fibonacci_naive_at depth (n - 1)) as [a |] eqn:Ha; [| discriminate].
  destruct (fibonacci_naive_at depth (n - 2)) as [b |] eqn:Hb; [| discriminate].
  cbn. intros [= <-]. rewrite (IH _ _ Ha), (IH _ _ Hb). reflexivity.
Qed.

Lemma fibonacci_naive_at_short (depth : nat) (n : Z) :
  1 < n -> Z.of_nat depth < n -> fibonacci_naive_at depth n = Raise RecursionError.
Proof.
  revert n. induction depth as [| depth IH]; intros n H1 Hn; [reflexivity |].
  cbn [fibonacci_naive_at].
  destruct (Z.leb_spec n 1) as [Hle | Hgt]; [lia |].
  destruct depth as [| depth'].
  - reflexivity.
  - rewrite IH by lia. reflexivity.
Qed.

(** * Properties of the cache *)

Section AgreementFacts.
Variable val : Z -> Z.

Lemma agrees_empty : agrees val ∅.
Proof. intros k v H. rewrite lookup_empty in H. discriminate. Qed.

Lemma agrees_lookup (c : gmap Z Z) (k : Z) :
  agrees val c -> c !! k = None \/ c !! k = Some (val k).
Proof.
  intros Hc. destruct (c !! k) as [v |] eqn:Hk; [right | left; reflexivity].
  rewrite (Hc _ _ Hk). reflexivity.
Qed.

Lemma agrees_insert (c : gmap Z Z) (k : Z) :
  agrees val c -> agrees val (<[k := val k]> c).
Proof.
  intros Hc k' v. rewrite lookup_insert. case_decide as Hk.
  - intros [= <-]. subst. reflexivity.
  - apply Hc.
Qed.

Lemma agrees_insert_subseteq (c : gmap Z Z) (k : Z) :
  agrees val c -> c ⊆ <[k := val k]> c.
Proof.
  intros Hc. destruct (agrees_lookup c k Hc) as [Hk | Hk].
  - apply insert_subseteq, Hk.
  - rewrite insert_id by exact Hk. reflexivity.
Qed.

Lemma agrees_subseteq (c c' : gmap Z Z) : c ⊆ c' -> agrees val c' -> agrees val c.
Proof.
  intros Hsub Hc k v Hk. apply Hc.
  eapply lookup_weaken; eassumption.
Qed.

Lemma yields_bind (p : prog) (k : Z -> prog) (a : Z) (r : outcome Z) :
  yields val (Return a) p -> yields val r (k a) -> yields val r (bind p k).
Proof.
  intros Hp Hk. induction p as [r' | key cont IH | key value next IH]; simpl in *.
  - subst r'. exact Hk.
  - destruct Hp as [Hnone Hsome]. split; apply IH; assumption.
  - destruct Hp as [Hv Hnext]. split; [exact Hv | apply IH, Hnext].
Qed.

Lemma yields_lru_cache (key : Z) (user_function : prog) :
  yields val (Return (val key)) user_function ->
  yields val (Return (val key)) (lru_cache key user_function).
Proof.
  intros Hu. unfold lru_cache. cbn [yields]. split; [| reflexivity].
  eapply yields_bind; [exact Hu |]. cbn [yields]. auto.
Qed.

(** A worker that uses no cache yields what its function returns, whatever
    the caches hold. *)
Lemma call_yields (f : Z -> outcome Z) (x : Z) : yields val (f x) (call f x).
Proof. reflexivity. Qed.

(** A computation that yields [r], run alone on a cache that agrees, ends
    with [r] and leaves a cache that agrees and in which every old entry
    still stands. *)
Lemma exec_yields (p : prog) (r : outcome Z) (c : gmap Z Z) :
  yields val r p -> agrees val c ->
  fst (exec p c) = r /\ agrees val (snd (exec p c)) /\ c ⊆ snd (exec p c).
Proof.
  revert c. induction p as [r' | key cont IH | key value next IH];
    intros c Hp Hc; simpl in *.
  - subst r'. repeat split; [exact Hc | reflexivity].
  - destruct Hp as [Hnone Hsome].
    destruct (agrees_lookup c key Hc) as [Hk | Hk]; rewrite Hk; apply IH; assumption.
  - destruct Hp as [-> Hnext].
    destruct (IH (<[key := val key]> c) Hnext (agrees_insert c key Hc))
      as (Hr & Hs & Hsub).
    repeat split; [exact Hr | exact Hs |].
    etransitivity; [apply agrees_insert_subseteq, Hc | exact Hsub].
Qed.
End AgreementFacts.

Lemma sound_empty : sound ∅.
Proof. apply agrees_empty. Qed.

Lemma fibonacci_memo_yields (n : Z) :
  yields fibonacci_naive (Return (fibonacci_naive n)) (fibonacci_memo n).
Proof.
  induction n as [n Hn | n Hn IH1 IH2] using call_induction;
    rewrite fibonacci_memo_equation_1; apply yields_lru_cache;
    destruct (Z_le_gt_dec n 1) as [Hle | Hgt]; try lia.
  - cbn [yields]. rewrite fibonacci_naive_base by lia. reflexivity.
  - eapply yields_bind; [exact IH1 |].
    eapply yields_bind; [exact IH2 |].
    cbn [yields]. rewrite (fibonacci_naive_step n) by lia. reflexivity.
Qed.

Lemma exec_bind (p : prog) (k : Z -> prog) (c : gmap Z Z) :
  exec (bind p k) c =
  match fst (exec p c) with
  | Return v => exec (k v) (snd (exec p c))
  | Raise e => (Raise e, snd (exec p c))
  end.
Proof.
  revert c. induction p as [r' | key cont IH | key value next IH]; intros c; simpl.
  - destruct r'; reflexivity.
  - apply IH.
  - apply IH.
Qed.

(** A call of [fibonacci_memo] by one thread, on any cache at all: it returns
    a value, leaves it stored under its key, keeps every entry the cache had,
    and touches no key above its argument. *)
Lemma fibonacci_memo_call (n : Z) (c : gmap Z Z) :
  exists v,
    fst (exec (fibonacci_memo n) c) = Return v /\
    snd (exec (fibonacci_memo n) c) !! n = Some v /\
    c ⊆ snd (exec (fibonacci_memo n) c) /\
    (forall k, n < k -> snd (exec (fibonacci_memo n) c) !! k = c !! k).
Proof.
  revert c. induction n as [n Hn | n Hn IH1 IH2] using call_induction; intros c;
    rewrite fibonacci_memo_equation_1; unfold lru_cache; cbn [exec];
    destruct (c !! n) as [v |] eqn:Hc;
    try (exists v; cbn [exec fst snd]; repeat split; [exact Hc | reflexivity]);
    destruct (Z_le_gt_dec n 1) as [Hle | Hgt]; try lia.
  - exists n. cbn [bind exec fst snd]. repeat split.
    + apply lookup_insert_eq.
    + apply insert_subseteq, Hc.
    + intros k Hk. apply lookup_insert_ne. lia.
  - destruct (IH1 c) as (a & Ha & _ & Hsub1 & Hup1).
    set (c1 := snd (exec (fibonacci_memo (n - 1)) c)) in *.
    destruct (IH2 c1) as (b & Hb & _ & Hsub2 & Hup2).
    set (c2 := snd (exec (fibonacci_memo (n - 2)) c1)) in *.
    assert (Hfresh : c2 !! n = None).
    { unfold c2. rewrite Hup2 by lia. unfold c1. rewrite Hup1 by lia. exact Hc. }
    exists (a + b).
    rewrite !exec_bind, Ha. fold c1. rewrite exec_bind, Hb. fold c2.
    cbn [exec fst snd]. repeat split.
    + apply lookup_insert_eq.
    + etransitivity; [exact Hsub1 |]. etransitivity; [exact Hsub2 |].
      apply insert_subseteq, Hfresh.
    + intros k Hk. rewrite lookup_insert_ne by lia.
      unfold c2. rewrite Hup2 by lia. unfold c1. apply Hup1. lia.
Qed.

Lemma fibonacci_memo_hit (n v : Z) (c : gmap Z Z) :
  c !! n = Some v -> exec (fibonacci_memo n) c = (Return v, c).
Proof.
  intros Hc. rewrite fibonacci_memo_equation_1. unfold lru_cache. cbn [exec].
  rewrite Hc. reflexivity.
Qed.



(** * Properties of the executors *)

Lemma grows_refl (p : pool) : grows p p.
Proof. intros s. reflexivity. Qed.

Lemma grows_trans (p q r : pool) : grows p q -> grows q r -> grows p r.
Proof. intros Hpq Hqr s. etransitivity; [apply Hpq | apply Hqr]. Qed.

Lemma set_space_same (s : nat) (c : gmap Z Z) (sp : nat -> gmap Z Z) :
  set_space s c sp s = c.
Proof. unfold set_space. rewrite Nat.eqb_refl. reflexivity. Qed.

Lemma set_space_grows (s : nat) (c : gmap Z Z) (sp : nat -> gmap Z Z) (s' : nat) :
  sp s ⊆ c -> sp s' ⊆ set_space s c sp s'.
Proof.
  intros Hsub. unfold set_space.
  destruct (Nat.eqb_spec s' s) as [-> | Hne]; [exact Hsub | reflexivity].
Qed.

Lemma set_space_agrees (val : Z -> Z) (s : nat) (c : gmap Z Z) (sp : nat -> gmap Z Z) :
  agrees val c -> (forall s', agrees val (sp s')) -> forall s', agrees val (set_space s c sp s').
Proof.
  intros Hc Hsp s'. unfold set_space.
  destruct (Nat.eqb s' s); [exact Hc | apply Hsp].
Qed.

Lemma interleave_app (fn : Z -> prog) (scope : nat -> nat) (sched more : list nat) (p : pool) :
  interleave fn scope (sched ++ more) p = interleave fn scope more (interleave fn scope sched p).
Proof. unfold interleave. apply foldl_app. Qed.

Section ExecutorFacts.
Variable val : Z -> Z.
Variable fn : Z -> prog.
Variable scope : nat -> nat.
(** What a worker's call ends with, for each task. *)
Variable spec : Z -> outcome Z.
Hypothesis fn_yields : forall x, yields val (spec x) (fn x).

Lemma tracks_insert (numbers : list Z) (fs : list future) (i : nat) (x : Z) (f : future) :
  Forall2 (tracks val spec) numbers fs -> numbers !! i = Some x -> tracks val spec x f ->
  Forall2 (tracks val spec) numbers (<[i := f]> fs).
Proof.
  intros Hall Hx Hf. rewrite <- (list_insert_id numbers i x Hx).
  apply Forall2_insert; assumption.
Qed.

Lemma tracks_lookup (numbers : list Z) (fs : list future) (i : nat) (f : future) :
  Forall2 (tracks val spec) numbers fs -> fs !! i = Some f ->
  exists x, numbers !! i = Some x /\ tracks val spec x f.
Proof.
  intros Hall Hf. destruct (Forall2_lookup_r _ _ _ _ _ Hall Hf) as (x & Hx & Ht).
  exists x. split; assumption.
Qed.

Lemma live_insert (fs : list future) (i : nat) (f : future) :
  Forall live fs -> live f -> Forall live (<[i := f]> fs).
Proof. intros Hall Hf. apply Forall_insert; assumption. Qed.

Lemma settle_facts (numbers : list Z) (p : pool) (i : nat) (x : Z) (q : prog) :
  consistent val spec numbers p -> numbers !! i = Some x -> yields val (spec x) q ->
  let p' := settle (scope i) i (exec q (spaces p (scope i))) p in
  consistent val spec numbers p' /\ grows p p' /\
  futures p' = <[i := Finished (spec x)]> (futures p).
Proof.
  intros [Hfs Hsp] Hx Hq.
  destruct (exec_yields val q (spec x) (spaces p (scope i)) Hq (Hsp _)) as (Hr & Hs & Hsub).
  cbn zeta. unfold settle. rewrite Hr. repeat split; cbn [futures spaces].
  - eapply tracks_insert; [exact Hfs | exact Hx | reflexivity].
  - apply set_space_agrees; assumption.
  - intros s. apply set_space_grows, Hsub.
Qed.

Lemma step_consistent (numbers : list Z) (i : nat) (p : pool) :
  consistent val spec numbers p -> consistent val spec numbers (step fn scope i p) /\ grows p (step fn scope i p).
Proof.
  intros [Hfs Hsp]. unfold step.
  destruct (futures p !! i) as [f |] eqn:Hf; [| split; [split; assumption | apply grows_refl]].
  destruct (tracks_lookup _ _ _ _ Hfs Hf) as (x & Hx & Ht).
  destruct f as [task | q | r |]; cbn [tracks] in Ht;
    try (split; [split; assumption | apply grows_refl]).
  - subst task. split; [split |]; cbn [futures spaces].
    + eapply tracks_insert; [exact Hfs | exact Hx | apply fn_yields].
    + exact Hsp.
    + intros s. reflexivity.
  - destruct q as [r | key cont | key value next]; cbn [yields] in Ht.
    + split; [split |]; cbn [futures spaces].
      * eapply tracks_insert; [exact Hfs | exact Hx | exact Ht].
      * exact Hsp.
      * intros s. reflexivity.
    + destruct Ht as [Hnone Hsome]. split; [split |]; cbn [futures spaces].
      * eapply tracks_insert; [exact Hfs | exact Hx |]. cbn [tracks].
        destruct (agrees_lookup val _ key (Hsp (scope i))) as [Hk | Hk]; rewrite Hk; assumption.
      * exact Hsp.
      * intros s. reflexivity.
    + destruct Ht as [-> Hnext]. split; [split |]; cbn [futures spaces].
      * eapply tracks_insert; [exact Hfs | exact Hx | exact Hnext].
      * apply set_space_agrees; [apply agrees_insert, Hsp | exact Hsp].
      * intros s. apply set_space_grows, agrees_insert_subseteq, Hsp.
Qed.

Lemma step_live (i : nat) (p : pool) :
  Forall live (futures p) -> Forall live (futures (step fn scope i p)).
Proof.
  intros Hl. unfold step.
  destruct (futures p !! i) as [[task | [r | key cont | key value next] | r |] |];
    cbn [futures]; try exact Hl; apply live_insert; try exact Hl; discriminate.
Qed.

Lemma interleave_consistent (numbers : list Z) (sched : list nat) (p : pool) :
  consistent val spec numbers p ->
  consistent val spec numbers (interleave fn scope sched p) /\ grows p (interleave fn scope sched p).
Proof.
  revert p. induction sched as [| i sched IH]; intros p Hp; cbn.
  - split; [exact Hp | apply grows_refl].
  - destruct (step_consistent numbers i p Hp) as [Hp' Hg].
    destruct (IH _ Hp') as [Hp'' Hg'].
    split; [exact Hp'' | eapply grows_trans; eassumption].
Qed.

Lemma interleave_live (sched : list nat) (p : pool) :
  Forall live (futures p) -> Forall live (futures (interleave fn scope sched p)).
Proof.
  revert p. induction sched as [| i sched IH]; intros p Hp; cbn.
  - exact Hp.
  - apply IH, step_live, Hp.
Qed.

Lemma wait_consistent (numbers : list Z) (i : nat) (p : pool) :
  consistent val spec numbers p -> consistent val spec numbers (wait fn scope i p) /\ grows p (wait fn scope i p).
Proof.
  intros Hp. pose proof Hp as [Hfs Hsp]. unfold wait.
  destruct (futures p !! i) as [f |] eqn:Hf; [| split; [exact Hp | apply grows_refl]].
  destruct (tracks_lookup _ _ _ _ Hfs Hf) as (x & Hx & Ht).
  destruct f as [task | q | r |]; cbn [tracks] in Ht;
    try (split; [exact Hp | apply grows_refl]).
  - subst task.
    destruct (settle_facts numbers p i x (fn x) Hp Hx (fn_yields x)) as (H1 & H2 & _).
    split; assumption.
  - destruct (settle_facts numbers p i x q Hp Hx Ht) as (H1 & H2 & _).
    split; assumption.
Qed.

(** After the wait the future of a live task holds what its call ends with. *)
Lemma wait_finished (numbers : list Z) (i : nat) (p : pool) (x : Z) :
  consistent val spec numbers p -> Forall live (futures p) -> numbers !! i = Some x ->
  futures (wait fn scope i p) = <[i := Finished (spec x)]> (futures p).
Proof.
  intros Hp Hl Hx. pose proof Hp as [Hfs Hsp]. unfold wait.
  destruct (futures p !! i) as [f |] eqn:Hf.
  - destruct (tracks_lookup _ _ _ _ Hfs Hf) as (x' & Hx' & Ht).
    assert (x' = x) by congruence. subst x'.
    destruct f as [task | q | r |]; cbn [tracks] in Ht.
    + subst task. apply (settle_facts numbers p i x (fn x) Hp Hx (fn_yields x)).
    + apply (settle_facts numbers p i x q Hp Hx Ht).
    + subst r. symmetry. apply list_insert_id, Hf.
    + exfalso. eapply (proj1 (Forall_lookup _ _) Hl i); [exact Hf | reflexivity].
  - apply lookup_ge_None in Hf. apply lookup_lt_Some in Hx.
    rewrite <- (Forall2_length _ _ _ Hfs) in Hf. lia.
Qed.

Lemma wait_live (numbers : list Z) (i : nat) (p : pool) (x : Z) :
  consistent val spec numbers p -> Forall live (futures p) -> numbers !! i = Some x ->
  Forall live (futures (wait fn scope i p)).
Proof.
  intros Hp Hl Hx. rewrite (wait_finished numbers i p x Hp Hl Hx).
  apply live_insert; [exact Hl | discriminate].
Qed.

Lemma cancel_pending_consistent (numbers : list Z) (p : pool) :
  consistent val spec numbers p ->
  consistent val spec numbers (cancel_pending p) /\ grows p (cancel_pending p).
Proof.
  intros [Hfs Hsp]. split; [split |]; cbn [cancel_pending futures spaces].
  - apply Forall2_fmap_r. eapply Forall2_impl; [exact Hfs |].
    intros x [task | q | r |]; simpl; auto.
  - exact Hsp.
  - intros s. reflexivity.
Qed.

(** The iterator returns what the comprehension over the same calls
    returns: the values in the order of the inputs, or the exception of the
    first call that raises. *)
Lemma result_iterator_spec (numbers : list Z) (count i : nat) (p : pool) :
  consistent val spec numbers p -> Forall live (futures p) ->
  (i + count = length numbers)%nat ->
  fst (result_iterator fn scope i count p) = comprehension (map spec (drop i numbers)) /\
  consistent val spec numbers (snd (result_iterator fn scope i count p)) /\
  grows p (snd (result_iterator fn scope i count p)).
Proof.
  revert i p. induction count as [| count IH]; intros i p Hp Hl Hlen.
  - cbn [result_iterator fst snd]. rewrite drop_ge by lia.
    repeat split; [apply Hp | apply Hp | apply grows_refl].
  - destruct (lookup_lt_is_Some_2 numbers i ltac:(lia)) as [x Hx].
    rewrite (drop_S _ _ _ Hx). cbn [map comprehension result_iterator].
    destruct (wait_consistent numbers i p Hp) as [Hp1 Hg1].
    pose proof (wait_live numbers i p x Hp Hl Hx) as Hl1.
    pose proof (wait_finished numbers i p x Hp Hl Hx) as Hfin.
    assert (Hi : futures (wait fn scope i p) !! i = Some (Finished (spec x))).
    { rewrite Hfin. apply list_lookup_insert_eq.
      apply lookup_lt_Some in Hx.
      rewrite <- (Forall2_length _ _ _ (proj1 Hp)). exact Hx. }
    rewrite Hi. destruct (spec x) as [v | e]; cbn [outcome_bind fst snd].
    + destruct (IH (S i) _ Hp1 Hl1 ltac:(lia)) as (Hr & Hc & Hg).
      rewrite Hr. repeat split; [apply Hc | apply Hc |].
      eapply grows_trans; eassumption.
    + destruct (cancel_pending_consistent numbers _ Hp1) as [Hc Hg].
      repeat split; [apply Hc | apply Hc |].
      eapply grows_trans; eassumption.
Qed.

Lemma waits_consistent (numbers : list Z) (indices : list nat) (p : pool) :
  consistent val spec numbers p ->
  consistent val spec numbers (foldl (fun q i => wait fn scope i q) p indices) /\
  grows p (foldl (fun q i => wait fn scope i q) p indices).
Proof.
  revert p. induction indices as [| i indices IH]; intros p Hp; cbn [foldl].
  - split; [exact Hp | apply grows_refl].
  - destruct (wait_consistent numbers i p Hp) as [Hp1 Hg1].
    destruct (IH _ Hp1) as [Hp2 Hg2].
    split; [exact Hp2 | eapply grows_trans; eassumption].
Qed.

Lemma shutdown_consistent (numbers : list Z) (p : pool) :
  consistent val spec numbers p ->
  consistent val spec numbers (shutdown fn scope p) /\ grows p (shutdown fn scope p).
Proof. apply waits_consistent. Qed.

Lemma submitted_consistent (numbers : list Z) (caches : nat -> gmap Z Z) :
  (forall s, agrees val (caches s)) ->
  consistent val spec numbers (submit numbers caches) /\
  Forall live (futures (submit numbers caches)).
Proof.
  intros Hc. split; [split |]; cbn [submit futures spaces].
  - apply Forall2_fmap_r, Forall_Forall2_diag, Forall_forall. reflexivity.
  - exact Hc.
  - apply Forall_fmap, Forall_forall. discriminate.
Qed.

(** The whole [with] block: the result is that of the comprehension, for
    every interleaving of the workers; the caches still agree with [val], and no entry
    they held at the start is lost or changed. *)
Lemma run_pool_spec (sched : list nat) (numbers : list Z) (caches : nat -> gmap Z Z) :
  (forall s, agrees val (caches s)) ->
  fst (run_pool fn scope sched numbers caches) = comprehension (map spec numbers) /\
  (forall s, agrees val (spaces (snd (run_pool fn scope sched numbers caches)) s)) /\
  (forall s, caches s ⊆ spaces (snd (run_pool fn scope sched numbers caches)) s).
Proof.
  intros Hc. unfold run_pool. cbn [fst snd].
  destruct (submitted_consistent numbers caches Hc) as [H0 Hl0].
  destruct (interleave_consistent numbers sched _ H0) as [H1 Hg1].
  pose proof (interleave_live sched _ Hl0) as Hl1.
  destruct (result_iterator_spec numbers (length numbers) 0 _ H1 Hl1 eq_refl)
    as (Hr & H2 & Hg2).
  destruct (shutdown_consistent numbers _ H2) as [H3 Hg3].
  rewrite drop_0 in Hr. repeat split.
  - exact Hr.
  - apply H3.
  - intros s. etransitivity; [apply (Hg1 s) |].
    etransitivity; [apply (Hg2 s) | apply (Hg3 s)].
Qed.

(** When no call raises, the iterator leaves every future from [i] on done,
    with the result of its own task, and does not touch the earlier ones. *)
Lemma result_iterator_finished (numbers : list Z) (count i : nat) (p : pool) :
  consistent val spec numbers p -> Forall live (futures p) ->
  (i + count = length numbers)%nat ->
  (forall x, x ∈ numbers -> exists v, spec x = Return v) ->
  (forall j, (j < i)%nat ->
     futures (snd (result_iterator fn scope i count p)) !! j = futures p !! j) /\
  (forall j x, (i <= j)%nat -> numbers !! j = Some x ->
     futures (snd (result_iterator fn scope i count p)) !! j = Some (Finished (spec x))).
Proof.
  intros Hp Hl Hlen Hok. revert i p Hp Hl Hlen.
  induction count as [| count IH]; intros i p Hp Hl Hlen.
  - cbn [result_iterator snd]. split; [reflexivity |].
    intros j x Hj Hx. apply lookup_lt_Some in Hx. lia.
  - destruct (lookup_lt_is_Some_2 numbers i ltac:(lia)) as [x Hx].
    cbn [result_iterator].
    destruct (wait_consistent numbers i p Hp) as [Hp1 _].
    pose proof (wait_live numbers i p x Hp Hl Hx) as Hl1.
    pose proof (wait_finished numbers i p x Hp Hl Hx) as Hfin.
    assert (Hbound : (i < length (futures p))%nat).
    { apply lookup_lt_Some in Hx.
      rewrite <- (Forall2_length _ _ _ (proj1 Hp)). exact Hx. }
    assert (Hi : futures (wait fn scope i p) !! i = Some (Finished (spec x))).
    { rewrite Hfin. apply list_lookup_insert_eq, Hbound. }
    rewrite Hi.
    destruct (Hok x (list_elem_of_lookup_2 _ _ _ Hx)) as [v Hv].
    rewrite Hv. cbn [snd].
    destruct (IH (S i) _ Hp1 Hl1 ltac:(lia)) as [Hbefore Hafter].
    split.
    + intros j Hj. rewrite Hbefore by lia. rewrite Hfin.
      apply list_lookup_insert_ne. lia.
    + intros j y Hj Hy. destruct (decide (j = i)) as [-> | Hne].
      * rewrite Hbefore by lia. rewrite Hi. congruence.
      * apply Hafter; [lia | exact Hy].
Qed.

Lemma wait_done (i : nat) (p : pool) :
  (forall j f, futures p !! j = Some f -> exists r, f = Finished r) ->
  wait fn scope i p = p.
Proof.
  intros Hall. unfold wait. destruct (futures p !! i) as [f |] eqn:Hf; [| reflexivity].
  destruct (Hall _ _ Hf) as [r ->]. reflexivity.
Qed.

Lemma shutdown_done (p : pool) :
  (forall j f, futures p !! j = Some f -> exists r, f = Finished r) ->
  shutdown fn scope p = p.
Proof.
  intros Hall. unfold shutdown.
  induction (seq 0 (length (futures p))) as [| i indices IH]; cbn [foldl].
  - reflexivity.
  - rewrite wait_done by exact Hall. exact IH.
Qed.

(** When no call raises, every task has been dispatched and computed by the
    time the [with] block is left: the future of each input holds the
    result of its call. *)
Lemma run_pool_futures (sched : list nat) (numbers : list Z) (caches : nat -> gmap Z Z) :
  (forall s, agrees val (caches s)) ->
  (forall x, x ∈ numbers -> exists v, spec x = Return v) ->
  futures (snd (run_pool fn scope sched numbers caches)) =
  map (fun x => Finished (spec x)) numbers.
Proof.
  intros Hc Hok. unfold run_pool. cbn [snd].
  destruct (submitted_consistent numbers caches Hc) as [H0 Hl0].
  destruct (interleave_consistent numbers sched _ H0) as [H1 _].
  pose proof (interleave_live sched _ Hl0) as Hl1.
  destruct (result_iterator_spec numbers (length numbers) 0 _ H1 Hl1 eq_refl)
    as (_ & H2 & _).
  destruct (result_iterator_finished numbers (length numbers) 0 _ H1 Hl1 eq_refl Hok)
    as [_ Hfin].
  set (p := snd (result_iterator fn scope 0 (length numbers) _)) in *.
  assert (Hlen : length (futures p) = length numbers).
  { symmetry. apply (Forall2_length _ _ _ (proj1 H2)). }
  assert (Hfs : futures p = map (fun x => Finished (spec x)) numbers).
  { apply list_eq. intros j. rewrite list_lookup_fmap.
    destruct (numbers !! j) as [x |] eqn:Hx; cbn.
    - apply Hfin; [lia | exact Hx].
    - apply lookup_ge_None. rewrite Hlen. apply lookup_ge_None, Hx. }
  rewrite shutdown_done; [exact Hfs |].
  intros j f Hf. rewrite Hfs, list_lookup_fmap in Hf.
  destruct (numbers !! j) as [x |]; cbn in Hf; [| discriminate].
  injection Hf as <-. eexists. reflexivity.
Qed.
(** When the [with] block is left, by a result or by an exception, the pool
    still has one future per input, in the order of the inputs, and a future
    that is done holds what the call of its own task ended with. *)
Lemma run_pool_consistent (sched : list nat) (numbers : list Z) (caches : nat -> gmap Z Z) :
  (forall s, agrees val (caches s)) ->
  consistent val spec numbers (snd (run_pool fn scope sched numbers caches)).
Proof.
  intros Hc. unfold run_pool. cbn [fst snd].
  destruct (submitted_consistent numbers caches Hc) as [H0 Hl0].
  destruct (interleave_consistent numbers sched _ H0) as [H1 _].
  pose proof (interleave_live sched _ Hl0) as Hl1.
  destruct (result_iterator_spec numbers (length numbers) 0 _ H1 Hl1 eq_refl)
    as (_ & H2 & _).
  apply (shutdown_consistent numbers _ H2).
Qed.
End ExecutorFacts.

(** * The executor model runs atomic steps only *)

Lemma set_space_id (s : nat) (sp : nat -> gmap Z Z) : set_space s (sp s) sp = sp.
Proof.
  apply functional_extensionality. intros s'. unfold set_space.
  destruct (Nat.eqb_spec s' s) as [-> | Hne]; reflexivity.
Qed.

Lemma set_space_twice (s : nat) (c c' : gmap Z Z) (sp : nat -> gmap Z Z) :
  set_space s c' (set_space s c sp) = set_space s c' sp.
Proof.
  apply functional_extensionality. intros s'. unfold set_space.
  destruct (Nat.eqb s' s); reflexivity.
Qed.

Lemma finished_at_insert_other (fs : list future) (i j : nat) (f f' : future) :
  fs !! i = Some f ->
  (forall r, f <> Finished r) -> (forall r, f' <> Finished r) ->
  finished_at (<[i := f']> fs) j <-> finished_at fs j.
Proof.
  intros Hi Hf Hf'. unfold finished_at.
  destruct (decide (i = j)) as [-> | Hne].
  - rewrite list_lookup_insert_eq by (eapply lookup_lt_Some; exact Hi).
    split; intros [r Hr].
    + injection Hr as ->. destruct (Hf' r eq_refl).
    + rewrite Hi in Hr. injection Hr as ->. destruct (Hf r eq_refl).
  - rewrite list_lookup_insert_ne by exact Hne. reflexivity.
Qed.

Lemma finished_at_insert_done (fs : list future) (i j : nat) (r : outcome Z) :
  (i < length fs)%nat ->
  finished_at (<[i := Finished r]> fs) j <-> j = i \/ finished_at fs j.
Proof.
  intros Hi. unfold finished_at. destruct (decide (i = j)) as [-> | Hne].
  - rewrite list_lookup_insert_eq by exact Hi. split; [auto | eauto].
  - rewrite list_lookup_insert_ne by exact Hne.
    split; [auto | intros [-> | H]; [contradiction | exact H]].
Qed.

Lemma logged_keep (p : pool) (sp : nat -> gmap Z Z) (i : nat) (f f' : future) :
  logged p -> futures p !! i = Some f ->
  (forall r, f <> Finished r) -> (forall r, f' <> Finished r) ->
  logged {| spaces := sp; futures := <[i := f']> (futures p); completed := completed p |}.
Proof.
  intros [Hnd Hlog] Hi Hf Hf'. split; cbn [completed futures]; [exact Hnd |].
  intros j. rewrite (finished_at_insert_other _ i j f f' Hi Hf Hf'). apply Hlog.
Qed.

Lemma logged_done (p : pool) (sp : nat -> gmap Z Z) (i : nat) (f : future) (r : outcome Z) :
  logged p -> futures p !! i = Some f -> (forall r', f <> Finished r') ->
  logged {| spaces := sp; futures := <[i := Finished r]> (futures p);
            completed := completed p ++ [i] |}.
Proof.
  intros [Hnd Hlog] Hi Hf.
  assert (Hnew : i ∉ completed p).
  { intros Hin. apply Hlog in Hin. destruct Hin as [r' Hr'].
    rewrite Hi in Hr'. injection Hr' as ->. destruct (Hf r' eq_refl). }
  split; cbn [completed futures].
  - apply NoDup_app. split; [exact Hnd |]. split; [| apply NoDup_singleton].
    intros j Hj Hj'. apply list_elem_of_singleton in Hj'. subst j. contradiction.
  - intros j. rewrite elem_of_app, list_elem_of_singleton.
    rewrite finished_at_insert_done by (eapply lookup_lt_Some; exact Hi).
    rewrite Hlog. tauto.
Qed.

Section Adequacy.
Variable fn : Z -> prog.
Variable scope : nat -> nat.

Lemma interleave_cons (i : nat) (sched : list nat) (p : pool) :
  interleave fn scope (i :: sched) p = interleave fn scope sched (step fn scope i p).
Proof. reflexivity. Qed.

(** The wait of the caller for a future that runs is nothing but steps of
    the worker of that future. *)
Lemma running_is_steps (q : prog) (i : nat) (p : pool) :
  futures p !! i = Some (Running q) ->
  exists k,
    interleave fn scope (replicate k i) p =
    settle (scope i) i (exec q (spaces p (scope i))) p.
Proof.
  revert p. induction q as [r | key cont IH | key value next IH]; intros p Hq.
  - exists 1%nat. cbn [replicate]. rewrite interleave_cons. cbn [interleave foldl].
    unfold step. rewrite Hq.
    unfold settle. cbn [exec fst snd]. rewrite set_space_id. reflexivity.
  - set (p' := {| spaces := spaces p;
                  futures := <[i := Running (cont (spaces p (scope i) !! key))]> (futures p);
                  completed := completed p |}).
    assert (Hi : (i < length (futures p))%nat) by (eapply lookup_lt_Some; exact Hq).
    destruct (IH (spaces p (scope i) !! key) p') as [k Hk].
    { cbn [p' futures]. apply list_lookup_insert_eq, Hi. }
    assert (Hstep : step fn scope i p = p') by (unfold step; rewrite Hq; reflexivity).
    exists (S k). cbn [replicate]. rewrite interleave_cons, Hstep, Hk.
    unfold settle. cbn [p' exec spaces futures completed].
    rewrite list_insert_insert_eq. reflexivity.
  - set (p' := {| spaces := set_space (scope i) (<[key := value]> (spaces p (scope i))) (spaces p);
                  futures := <[i := Running next]> (futures p);
                  completed := completed p |}).
    assert (Hi : (i < length (futures p))%nat) by (eapply lookup_lt_Some; exact Hq).
    destruct (IH p') as [k Hk].
    { cbn [p' futures]. apply list_lookup_insert_eq, Hi. }
    assert (Hstep : step fn scope i p = p') by (unfold step; rewrite Hq; reflexivity).
    exists (S k). cbn [replicate]. rewrite interleave_cons, Hstep, Hk.
    unfold settle. cbn [p' exec spaces futures completed].
    rewrite set_space_same, set_space_twice, list_insert_insert_eq. reflexivity.
Qed.

Lemma wait_is_steps (i : nat) (p : pool) :
  exists k, wait fn scope i p = interleave fn scope (replicate k i) p.
Proof.
  unfold wait. destruct (futures p !! i) as [[task | q | r |] |] eqn:Hf;
    try (exists 0%nat; reflexivity).
  - set (p' := {| spaces := spaces p;
                  futures := <[i := Running (fn task)]> (futures p);
                  completed := completed p |}).
    assert (Hi : (i < length (futures p))%nat) by (eapply lookup_lt_Some; exact Hf).
    destruct (running_is_steps (fn task) i p') as [k Hk].
    { cbn [p' futures]. apply list_lookup_insert_eq, Hi. }
    assert (Hstep : step fn scope i p = p') by (unfold step; rewrite Hf; reflexivity).
    exists (S k). cbn [replicate]. rewrite interleave_cons, Hstep, Hk.
    unfold settle. cbn [p' spaces futures completed].
    rewrite list_insert_insert_eq. reflexivity.
  - destruct (running_is_steps q i p Hf) as [k Hk]. exists k. symmetry. exact Hk.
Qed.

Lemma step_logged (i : nat) (p : pool) : logged p -> logged (step fn scope i p).
Proof.
  intros Hp. unfold step.
  destruct (futures p !! i) as [[task | [r | key cont | key value next] | r |] |] eqn:Hf;
    try exact Hp.
  - eapply logged_keep; [exact Hp | exact Hf | discriminate | discriminate].
  - eapply logged_done; [exact Hp | exact Hf | discriminate].
  - eapply logged_keep; [exact Hp | exact Hf | discriminate | discriminate].
  - eapply logged_keep; [exact Hp | exact Hf | discriminate | discriminate].
Qed.

Lemma interleave_logged (sched : list nat) (p : pool) :
  logged p -> logged (interleave fn scope sched p).
Proof.
  revert p. induction sched as [| i sched IH]; intros p Hp.
  - exact Hp.
  - rewrite interleave_cons. apply IH, step_logged, Hp.
Qed.

Lemma submit_logged (numbers : list Z) (caches : nat -> gmap Z Z) :
  logged (submit numbers caches).
Proof.
  split; cbn [submit completed futures]; [apply NoDup_nil_2 |].
  intros j. split; [intros Hj; apply elem_of_nil in Hj; contradiction |].
  intros [r Hr]. rewrite list_lookup_fmap in Hr.
  destruct (numbers !! j); discriminate.
Qed.

Lemma waits_are_steps (indices : list nat) (p : pool) :
  exists extra,
    foldl (fun q i => wait fn scope i q) p indices = interleave fn scope extra p.
Proof.
  revert p. induction indices as [| i indices IH]; intros p; cbn [foldl].
  - exists []. reflexivity.
  - destruct (wait_is_steps i p) as [k Hk]. destruct (IH (wait fn scope i p)) as [extra He].
    exists (replicate k i ++ extra). rewrite He, Hk. symmetry. apply interleave_app.
Qed.

Lemma result_iterator_is_steps (count i : nat) (p : pool) (vs : list Z) :
  fst (result_iterator fn scope i count p) = Return vs ->
  exists extra, snd (result_iterator fn scope i count p) = interleave fn scope extra p.
Proof.
  revert i p vs. induction count as [| count IH]; intros i p vs; cbn [result_iterator].
  - intros _. exists []. reflexivity.
  - destruct (wait_is_steps i p) as [k Hk].
    destruct (futures (wait fn scope i p) !! i) as [[task | q | [v | e] |] |];
      cbn [fst snd]; try discriminate.
    destruct (fst (result_iterator fn scope (S i) count (wait fn scope i p)))
      as [ws | e] eqn:Hrest; cbn [outcome_bind]; [| discriminate].
    intros _. destruct (IH _ _ _ Hrest) as [extra He].
    exists (replicate k i ++ extra). rewrite He, Hk. symmetry. apply interleave_app.
Qed.

(** A run that returns a result list is an interleaving of atomic steps of
    the workers and nothing else: what the caller's waits and the shutdown
    add to the schedule are further steps of the same workers. *)
Lemma run_pool_is_interleaving (sched : list nat) (numbers : list Z)
    (caches : nat -> gmap Z Z) (vs : list Z) :
  fst (run_pool fn scope sched numbers caches) = Return vs ->
  exists extra,
    snd (run_pool fn scope sched numbers caches) =
    interleave fn scope (sched ++ extra) (submit numbers caches).
Proof.
  unfold run_pool. cbn [fst snd]. intros Hvs.
  destruct (result_iterator_is_steps _ _ _ _ Hvs) as [extra1 H1].
  destruct (waits_are_steps
              (seq 0 (length (futures (snd (result_iterator fn scope 0 (length numbers)
                 (interleave fn scope sched (submit numbers caches)))))))
              (snd (result_iterator fn scope 0 (length numbers)
                 (interleave fn scope sched (submit numbers caches))))) as [extra2 H2].
  exists (extra1 ++ extra2). unfold shutdown. rewrite H2, H1.
  rewrite <- !interleave_app. reflexivity.
Qed.

(** A run that returns a result list has completed every task, each once:
    the log of completions is a permutation of the indices of the inputs. *)
Lemma run_pool_completes_each_once (val : Z -> Z) (spec : Z -> outcome Z)
    (sched : list nat) (numbers : list Z) (caches : nat -> gmap Z Z) :
  (forall x, yields val (spec x) (fn x)) ->
  (forall s, agrees val (caches s)) ->
  (forall x, x ∈ numbers -> exists v, spec x = Return v) ->
  completed (snd (run_pool fn scope sched numbers caches)) ≡ₚ seq 0 (length numbers).
Proof.
  intros Hfn Hc Hok.
  pose proof (run_pool_spec val fn scope spec Hfn sched numbers caches Hc) as (Hr & _).
  pose proof (run_pool_futures val fn scope spec Hfn sched numbers caches Hc Hok) as Hfs.
  assert (Hret : exists vs, comprehension (map spec numbers) = Return vs).
  { clear -Hok. induction numbers as [| x numbers IH]; cbn [map comprehension].
    - eexists. reflexivity.
    - destruct (Hok x) as [v ->]; [left |]. cbn [outcome_bind].
      destruct IH as [vs ->]; [intros y Hy; apply Hok; right; exact Hy |].
      eexists. reflexivity. }
  destruct Hret as [vs Hvs]. rewrite Hvs in Hr.
  destruct (run_pool_is_interleaving sched numbers caches vs Hr) as [extra He].
  assert (Hlog : logged (snd (run_pool fn scope sched numbers caches))).
  { rewrite He. apply interleave_logged, submit_logged. }
  destruct Hlog as [Hnd Hlog].
  apply NoDup_Permutation; [exact Hnd | apply NoDup_seq |].
  intros j. rewrite Hlog, Hfs, elem_of_seq. unfold finished_at.
  rewrite list_lookup_fmap. split.
  - intros [r Hr']. destruct (numbers !! j) as [x |] eqn:Hx; [| discriminate].
    apply lookup_lt_Some in Hx. lia.
  - intros [_ Hj]. destruct (lookup_lt_is_Some_2 numbers j ltac:(lia)) as [x Hx].
    rewrite Hx. eexists. reflexivity.
Qed.
End Adequacy.

(** * Properties of the strategies *)

Lemma comprehension_returns (f : Z -> Z) (numbers : list Z) :
  comprehension (map (fun x => Return (f x)) numbers) = Return (map f numbers).
Proof.
  induction numbers as [| x numbers IH]; cbn [map comprehension outcome_bind].
  - reflexivity.
  - rewrite IH. reflexivity.
Qed.

(** The comprehension raises what its first failing call raises. *)
Lemma comprehension_first_failure (calls : list (outcome Z)) (i : nat) (e : exn) :
  calls !! i = Some (Raise e) ->
  (forall j r, (j < i)%nat -> calls !! j = Some r -> exists v, r = Return v) ->
  comprehension calls = Raise e.
Proof.
  revert i. induction calls as [| r calls IH]; intros i Hi Hbefore.
  - rewrite lookup_nil in Hi. discriminate.
  - destruct i as [| i]; cbn [comprehension].
    + cbn in Hi. injection Hi as ->. reflexivity.
    + destruct (Hbefore 0%nat r ltac:(lia) eq_refl) as [v ->]. cbn [outcome_bind].
      rewrite (IH i); [reflexivity | exact Hi |].
      intros j r Hj Hr. apply (Hbefore (S j) r); [lia | exact Hr].
Qed.

Lemma comprehension_length (calls : list (outcome Z)) (vs : list Z) :
  comprehension calls = Return vs -> length vs = length calls.
Proof.
  revert vs. induction calls as [| r calls IH]; intros vs; cbn [comprehension].
  - intros [= <-]. reflexivity.
  - destruct r as [v | e]; cbn [outcome_bind]; [| discriminate].
    destruct (comprehension calls) as [ws | e]; cbn [outcome_bind]; [| discriminate].
    intros [= <-]. cbn [length]. rewrite (IH ws eq_refl). reflexivity.
Qed.

(** Every cache agrees with some expectation: its own content. *)
Lemma agrees_own (c : gmap Z Z) : agrees (fun k => default 0 (c !! k)) c.
Proof. intros k v Hk. rewrite Hk. reflexivity. Qed.

(** The wrapper, by the outcome of the wrapped call. *)
Lemma measure_time_returns {A B : Type} (func_name : string) (func : A -> M B)
    (args : A) (w w2 : world) (result : B) :
  func args (snd (time_time w)) = (Return result, w2) ->
  measure_time func_name func args w =
  (Return result,
   print (Took func_name (PrimFloat.sub (fst (time_time w2)) (fst (time_time w))))
     (snd (time_time w2))).
Proof. intros Hcall. unfold measure_time. cbn in *. rewrite Hcall. reflexivity. Qed.

Lemma measure_time_raises {A B : Type} (func_name : string) (func : A -> M B)
    (args : A) (w w2 : world) (e : exn) :
  func args (snd (time_time w)) = (Raise e, w2) ->
  measure_time func_name func args w = (Raise e, w2).
Proof. intros Hcall. unfold measure_time. cbn in *. rewrite Hcall. reflexivity. Qed.

Lemma measure_time_result {A B : Type} (func_name : string) (func : A -> M B)
    (args : A) (w : world) :
  fst (measure_time func_name func args w) = fst (func args (snd (time_time w))).
Proof.
  destruct (func args (snd (time_time w))) as [[result | e] w2] eqn:Hcall.
  - rewrite (measure_time_returns _ _ _ _ _ _ Hcall). reflexivity.
  - rewrite (measure_time_raises _ _ _ _ _ _ Hcall). reflexivity.
Qed.

Lemma measure_time_memo {A B : Type} (func_name : string) (func : A -> M B)
    (args : A) (w : world) :
  memo (snd (measure_time func_name func args w)) =
  memo (snd (func args (snd (time_time w)))).
Proof.
  destruct (func args (snd (time_time w))) as [[result | e] w2] eqn:Hcall.
  - rewrite (measure_time_returns _ _ _ _ _ _ Hcall). reflexivity.
  - rewrite (measure_time_raises _ _ _ _ _ _ Hcall). reflexivity.
Qed.

Section StrategyFacts.
Variable val : Z -> Z.
Variable fn : Z -> prog.
Variable spec : Z -> outcome Z.
Hypothesis fn_yields : forall x, yields val (spec x) (fn x).

Lemma thread_pool_map_spec (h : host) (numbers : list Z) (w : world) :
  agrees val (memo w) ->
  fst (thread_pool_map fn h numbers w) = comprehension (map spec numbers) /\
  agrees val (memo (snd (thread_pool_map fn h numbers w))) /\
  memo w ⊆ memo (snd (thread_pool_map fn h numbers w)).
Proof.
  intros Hw. unfold thread_pool_map, thread_pool_run. cbn [fst snd set_memo memo].
  destruct (run_pool_spec val fn (fun _ => 0%nat) spec fn_yields (schedule h) numbers
              (fun _ => memo w) (fun _ => Hw)) as (Hr & Hs & Hg).
  repeat split; [exact Hr | apply Hs | apply (Hg 0%nat)].
Qed.

Lemma process_pool_map_spec (h : host) (numbers : list Z) (w : world) :
  agrees val (memo w) ->
  process_pool_map fn h numbers w = (comprehension (map spec numbers), w).
Proof.
  intros Hw. unfold process_pool_map, process_pool_run. f_equal.
  apply (run_pool_spec val fn (worker_of h) spec fn_yields).
  intros _. destruct (forked h); [exact Hw | apply agrees_empty].
Qed.
End StrategyFacts.

(** A strategy whose workers use no cache returns what the comprehension over
    the same function returns, in every world and on every host. *)
Lemma thread_pool_map_call (f : Z -> outcome Z) (h : host) (numbers : list Z) (w : world) :
  fst (thread_pool_map (call f) h numbers w) = comprehension (map f numbers).
Proof.
  apply (thread_pool_map_spec (fun k => default 0 (memo w !! k)) (call f) f).
  - intros x. apply call_yields.
  - apply agrees_own.
Qed.

Lemma process_pool_map_call (f : Z -> outcome Z) (h : host) (numbers : list Z) (w : world) :
  process_pool_map (call f) h numbers w = (comprehension (map f numbers), w).
Proof.
  apply (process_pool_map_spec (fun k => default 0 (memo w !! k)) (call f) f).
  - intros x. apply call_yields.
  - apply agrees_own.
Qed.

Lemma thread_pool_map_memo (h : host) (numbers : list Z) (w : world) :
  sound (memo w) ->
  fst (thread_pool_map fibonacci_memo h numbers w) = Return (map fibonacci_naive numbers) /\
  sound (memo (snd (thread_pool_map fibonacci_memo h numbers w))) /\
  memo w ⊆ memo (snd (thread_pool_map fibonacci_memo h numbers w)).
Proof.
  intros Hw. rewrite <- comprehension_returns.
  apply (thread_pool_map_spec fibonacci_naive fibonacci_memo
           (fun x => Return (fibonacci_naive x)) fibonacci_memo_yields h numbers w Hw).
Qed.

Lemma process_pool_map_memo (h : host) (numbers : list Z) (w : world) :
  sound (memo w) ->
  process_pool_map fibonacci_memo h numbers w = (Return (map fibonacci_naive numbers), w).
Proof.
  intros Hw. rewrite <- comprehension_returns.
  apply (process_pool_map_spec fibonacci_naive fibonacci_memo
           (fun x => Return (fibonacci_naive x)) fibonacci_memo_yields h numbers w Hw).
Qed.

Lemma calls_well_founded : well_founded calls.
Proof.
  intros n. induction n as [n Hn | n Hn IH1 IH2] using call_induction.
  - constructor. intros m [Hm _]. lia.
  - constructor. intros m [_ [-> | ->]]; assumption.
Qed.

Lemma call_each_sound (ns : list Z) (c : gmap Z Z) :
  sound c ->
  fst (call_each ns c) = map (fun n => Return (fibonacci_naive n)) ns /\
  sound (snd (call_each ns c)).
Proof.
  revert c. induction ns as [| n ns IH]; intros c Hc; cbn [call_each fst snd map].
  - split; [reflexivity | exact Hc].
  - destruct (exec_yields fibonacci_naive _ _ c (fibonacci_memo_yields n) Hc)
      as (Hr & Hs & _).
    destruct (IH _ Hs) as [Hrest Hs'].
    rewrite Hr, Hrest. split; [reflexivity | exact Hs'].
Qed.

Lemma map_fixed (f : Z -> Z) (numbers : list Z) :
  Forall (fun n => f n = n) numbers -> map f numbers = numbers.
Proof.
  induction 1 as [| n numbers Hn _ IH]; cbn [map].
  - reflexivity.
  - rewrite Hn, IH. reflexivity.
Qed.

Lemma naive_strategies_return (h : host) (numbers : list Z) (w : world) :
  fst (multi_threaded_fibonacci_naive h numbers w) = Return (map fibonacci_naive numbers) /\
  fst (multi_process_fibonacci_naive h numbers w) = Return (map fibonacci_naive numbers) /\
  fst (multi_threaded_fibonacci h numbers w) = Return (map fibonacci numbers) /\
  fst (multi_process_fibonacci h numbers w) = Return (map fibonacci numbers).
Proof.
  unfold multi_threaded_fibonacci_naive, multi_process_fibonacci_naive,
    multi_threaded_fibonacci, multi_process_fibonacci, naive_worker.
  rewrite !measure_time_result, !process_pool_map_call, !thread_pool_map_call.
  cbn [fst]. rewrite !comprehension_returns. auto.
Qed.

Lemma memo_strategies_return (h : host) (numbers : list Z) (w : world) :
  sound (memo w) ->
  fst (multi_threaded_fibonacci_memo h numbers w) = Return (map fibonacci_naive numbers) /\
  fst (multi_process_fibonacci_memo h numbers w) = Return (map fibonacci_naive numbers).
Proof.
  intros Hw. unfold multi_threaded_fibonacci_memo, multi_process_fibonacci_memo.
  rewrite !measure_time_result.
  rewrite process_pool_map_memo by exact Hw.
  split; [| reflexivity].
  apply (thread_pool_map_memo h numbers (snd (time_time w))). exact Hw.
Qed.

(** * The claims *)

(** C2: the naive function satisfies the Fibonacci recurrence,
    [fibonacci_naive 0 = 0], [fibonacci_naive 1 = 1] and
    [fibonacci_naive n = fibonacci_naive (n - 1) + fibonacci_naive (n - 2)]
    for every [n >= 2]; on every [n >= 0], so on all of 0..30, it equals the
    iterative oracle; the inputs 0..5 give 0, 1, 1, 2, 3, 5, also through the
    thread pool; and [fibonacci] of the other file is the same function. *)
Theorem naive_satisfies_recurrence :
  fibonacci_naive 0 = 0 /\
  fibonacci_naive 1 = 1 /\
  (forall n, 2 <= n ->
     fibonacci_naive n = fibonacci_naive (n - 1) + fibonacci_naive (n - 2)) /\
  (forall n, 0 <= n <= 30 -> fibonacci_naive n = closed_form n) /\
  (forall n, 0 <= n -> fibonacci_naive n = closed_form n) /\
  map fibonacci_naive [0; 1; 2; 3; 4; 5] = [0; 1; 1; 2; 3; 5] /\
  (forall h w,
     fst (multi_threaded_fibonacci_naive h [0; 1; 2; 3; 4; 5] w) =
     Return [0; 1; 1; 2; 3; 5]) /\
  (forall n, fibonacci n = fibonacci_naive n).
Proof.
  split; [| split; [| split; [| split; [| split; [| split; [| split]]]]]].
  - apply fibonacci_naive_base. lia.
  - apply fibonacci_naive_base. lia.
  - apply fibonacci_naive_step.
  - intros n Hn. symmetry. apply closed_form_is_naive. lia.
  - intros n Hn. symmetry. apply closed_form_is_naive, Hn.
  - reflexivity.
  - intros h w. destruct (naive_strategies_return h [0; 1; 2; 3; 4; 5] w) as [-> _].
    reflexivity.
  - apply fibonacci_is_naive.
Qed.



(** C9: for every integer [n <= 1], the negative ones included,
    [fibonacci_naive] and [fibonacci] return [n] itself; nothing between the
    entry of a strategy and the compute function checks the input, so a
    strategy given such inputs returns them unchanged and raises nothing. *)
Theorem small_input_is_returned (n : Z) :
  n <= 1 ->
  fibonacci_naive n = n /\
  fibonacci n = n /\
  (forall h w,
     fst (multi_threaded_fibonacci_naive h [n] w) = Return [n] /\
     fst (multi_process_fibonacci_naive h [n] w) = Return [n] /\
     fst (multi_threaded_fibonacci h [n] w) = Return [n] /\
     fst (multi_process_fibonacci h [n] w) = Return [n]) /\
  (forall h w numbers,
     Forall (fun m => m <= 1) numbers ->
     fst (multi_threaded_fibonacci_naive h numbers w) = Return numbers /\
     fst (multi_process_fibonacci_naive h numbers w) = Return numbers /\
     fst (multi_threaded_fibonacci h numbers w) = Return numbers /\
     fst (multi_process_fibonacci h numbers w) = Return numbers).
Proof.
  intros Hn.
  assert (Hlist : forall h w numbers,
     Forall (fun m => m <= 1) numbers ->
     fst (multi_threaded_fibonacci_naive h numbers w) = Return numbers /\
     fst (multi_process_fibonacci_naive h numbers w) = Return numbers /\
     fst (multi_threaded_fibonacci h numbers w) = Return numbers /\
     fst (multi_process_fibonacci h numbers w) = Return numbers).
  { intros h w numbers Hall.
    destruct (naive_strategies_return h numbers w) as (-> & -> & -> & ->).
    assert (Hnaive : map fibonacci_naive numbers = numbers).
    { apply map_fixed. eapply Forall_impl; [exact Hall |].
      intros m Hm. apply fibonacci_naive_base, Hm. }
    assert (Hfib : map fibonacci numbers = numbers).
    { apply map_fixed. eapply Forall_impl; [exact Hall |].
      intros m Hm. cbn. rewrite fibonacci_is_naive. apply fibonacci_naive_base, Hm. }
    rewrite Hnaive, Hfib. auto. }
  split; [apply fibonacci_naive_base, Hn |].
  split; [rewrite fibonacci_is_naive; apply fibonacci_naive_base, Hn |].
  split; [| exact Hlist].
  intros h w. apply Hlist. constructor; [exact Hn | constructor].
Qed.

Lemma small_input_is_returned_witness :
  fibonacci_naive (-5) = -5 /\
  fst (multi_process_fibonacci in_turn [-5] boot) = Return [-5].
Proof.
  destruct (small_input_is_returned (-5) ltac:(lia)) as (Hv & _ & Hone & _).
  split; [exact Hv | apply (Hone in_turn boot)].
Defined.

(** C10: [fibonacci_naive] terminates on every integer: the chains of nested
    calls are finite; an input [n <= 1] returns in the first call; and for
    every [n] a run with room for [n] nested calls (one call, at least)
    returns the value of the function, so does the run with room for
    [S (Z.to_nat n)] calls. *)
Theorem naive_terminates (n : Z) :
  Acc calls n /\
  (n <= 1 -> forall depth, fibonacci_naive_at (S depth) n = Return n) /\
  (forall depth, (1 <= depth)%nat -> n <= Z.of_nat depth ->
     fibonacci_naive_at depth n = Return (fibonacci_naive n)) /\
  fibonacci_naive_at (S (Z.to_nat n)) n = Return (fibonacci_naive n).
Proof.
  split; [apply calls_well_founded |]. split; [| split].
  - intros Hn depth. cbn [fibonacci_naive_at].
    destruct (Z.leb_spec n 1); [reflexivity | lia].
  - intros depth Hd Hn. apply fibonacci_naive_at_enough; lia.
  - apply fibonacci_naive_at_enough; lia.
Qed.






Lemma fibonacci_strategies_dispatch (h : host) (numbers : list Z) (w : world) :
  futures (snd (thread_pool_run (call (fun n => Return (fibonacci n))) h numbers w)) =
    map (fun n => Finished (Return (fibonacci n))) numbers /\
  futures (snd (process_pool_run (call (fun n => Return (fibonacci n))) h numbers w)) =
    map (fun n => Finished (Return (fibonacci n))) numbers /\
  completed (snd (thread_pool_run (call (fun n => Return (fibonacci n))) h numbers w))
    ≡ₚ seq 0 (length numbers) /\
  completed (snd (process_pool_run (call (fun n => Return (fibonacci n))) h numbers w))
    ≡ₚ seq 0 (length numbers).
Proof.
  assert (Hprocess : forall s : nat,
            agrees (fun k => default 0 (memo w !! k)) (if forked h then memo w else ∅)).
  { intros _. destruct (forked h); [apply agrees_own | apply agrees_empty]. }
  unfold thread_pool_run, process_pool_run. split; [| split; [| split]].
  - apply (run_pool_futures (fun k => default 0 (memo w !! k))
             (call (fun n => Return (fibonacci n))) (fun _ => 0%nat)
             (fun n => Return (fibonacci n)) (call_yields _ _)).
    + intros _. apply agrees_own.
    + intros x _. eexists. reflexivity.
  - apply (run_pool_futures (fun k => default 0 (memo w !! k))
             (call (fun n => Return (fibonacci n))) (worker_of h)
             (fun n => Return (fibonacci n)) (call_yields _ _)).
    + exact Hprocess.
    + intros x _. eexists. reflexivity.
  - apply (run_pool_completes_each_once (call (fun n => Return (fibonacci n)))
             (fun _ => 0%nat) (fun k => default 0 (memo w !! k))
             (fun n => Return (fibonacci n))).
    + intros x. exact (call_yields _ (fun n => Return (fibonacci n)) x).
    + intros _. apply agrees_own.
    + intros x _. eexists. reflexivity.
  - apply (run_pool_completes_each_once (call (fun n => Return (fibonacci n)))
             (worker_of h) (fun k => default 0 (memo w !! k))
             (fun n => Return (fibonacci n))).
    + intros x. exact (call_yields _ (fun n => Return (fibonacci n)) x).
    + exact Hprocess.
    + intros x _. eexists. reflexivity.
Qed.


(** C4, as the specification states it, fails on the input [-1]: the run
    raises nothing, it returns [-1], and a worker has computed the task. *)
Lemma negative_input_is_not_rejected :
  fst (multi_threaded_fibonacci in_turn [-1] boot) = Return [-1] /\
  ~ (exists e, fst (multi_threaded_fibonacci in_turn [-1] boot) = Raise e) /\
  futures (snd (thread_pool_run (call (fun n => Return (fibonacci n))) in_turn [-1] boot)) =
    [Finished (Return (-1))].
Proof.
  split; [| split].
  - vm_compute. reflexivity.
  - intros [e He]. vm_compute in He. discriminate.
  - vm_compute. reflexivity.
Qed.

Lemma failing_strategy_world {A : Type} (func_name : string) (func : list Z -> M A)
    (numbers : list Z) (w : world) (e : exn) :
  fst (func numbers (snd (time_time w))) = Raise e ->
  snd (measure_time func_name func numbers w) = snd (func numbers (snd (time_time w))).
Proof.
  intros He. destruct (func numbers (snd (time_time w))) as [[result | e'] w2] eqn:Hcall.
  - discriminate.
  - rewrite (measure_time_raises _ _ _ _ _ _ Hcall). reflexivity.
Qed.

(** C5, as the code has it: when the call of a worker raises, the run fails
    as a whole.  What the strategy raises is, unchanged, the exception of the
    first failing task in input order; no result list comes back, neither a
    partial one nor one with a default in the failing slot; the wrapper
    prints nothing; and in the pool every input still has its future, a
    future that is done holding what the call of its own task ended with.
    The strategy adds nothing to the exception: it carries no index and no
    input beyond what the worker put into it. *)
Theorem worker_failure_propagates (f : Z -> outcome Z) (func_name : string) (h : host)
    (numbers : list Z) (w : world) (i : nat) (x : Z) (e : exn) :
  numbers !! i = Some x ->
  f x = Raise e ->
  (forall j y, (j < i)%nat -> numbers !! j = Some y -> exists v, f y = Return v) ->
  fst (measure_time func_name (thread_pool_map (call f) h) numbers w) = Raise e /\
  fst (measure_time func_name (process_pool_map (call f) h) numbers w) = Raise e /\
  stdout (snd (measure_time func_name (thread_pool_map (call f) h) numbers w)) = stdout w /\
  stdout (snd (measure_time func_name (process_pool_map (call f) h) numbers w)) = stdout w /\
  length (futures (snd (thread_pool_run (call f) h numbers w))) = length numbers /\
  (forall j y r,
     numbers !! j = Some y ->
     futures (snd (thread_pool_run (call f) h numbers w)) !! j = Some (Finished r) ->
     r = f y).
Proof.
  intros Hx He Hbefore.
  assert (Hraise : comprehension (map f numbers) = Raise e).
  { apply (comprehension_first_failure _ i).
    - rewrite list_lookup_fmap, Hx. cbn. rewrite He. reflexivity.
    - intros j r Hj Hr. rewrite list_lookup_fmap in Hr.
      destruct (numbers !! j) as [y |] eqn:Hy; cbn in Hr; [| discriminate].
      injection Hr as <-. apply (Hbefore j y Hj Hy). }
  assert (Ht : fst (thread_pool_map (call f) h numbers (snd (time_time w))) = Raise e).
  { rewrite thread_pool_map_call. exact Hraise. }
  assert (Hp : fst (process_pool_map (call f) h numbers (snd (time_time w))) = Raise e).
  { rewrite process_pool_map_call. exact Hraise. }
  assert (Hcons : consistent (fun k => default 0 (memo w !! k)) f numbers
                    (snd (thread_pool_run (call f) h numbers w))).
  { unfold thread_pool_run.
    apply (run_pool_consistent (fun k => default 0 (memo w !! k)) (call f)
             (fun _ => 0%nat) f (call_yields _ _)).
    intros _. apply agrees_own. }
  split; [rewrite measure_time_result; exact Ht |].
  split; [rewrite measure_time_result; exact Hp |].
  split; [rewrite (failing_strategy_world _ _ _ _ e Ht); reflexivity |].
  split; [rewrite (failing_strategy_world _ _ _ _ e Hp); reflexivity |].
  destruct Hcons as [Hfs _]. split.
  - symmetry. apply (Forall2_length _ _ _ Hfs).
  - intros j y r Hy Hf.
    destruct (tracks_lookup _ _ _ _ _ _ Hfs Hf) as (y' & Hy' & Htr).
    assert (y' = y) by congruence. subst y'. exact Htr.
Qed.

Lemma worker_failure_propagates_witness :
  fst (multi_threaded_fibonacci_naive_at 1000 last_first [5; 999999; 7] boot) =
  Raise RecursionError.
Proof.
  apply (worker_failure_propagates (fibonacci_naive_at 1000) "multi_threaded_fibonacci_naive"
           last_first [5; 999999; 7] boot 1 999999 RecursionError).
  - reflexivity.
  - vm_compute. reflexivity.
  - intros j y Hj Hy. destruct j as [| j]; [| lia].
    injection Hy as <-. exists 5. vm_compute. reflexivity.
Defined.

(** C5, as the specification states it, fails: under a limit of 1000 nested
    calls the runs on [5, 999999, 7] and on [999999, 5, 7] raise the same
    [RecursionError], though the failing task has index 1 in the first and
    index 0 in the second; nothing in the failure tells them apart. *)
Lemma failure_names_no_task :
  ~ failure_identifies_task
      (fun numbers => fst (multi_threaded_fibonacci_naive_at 1000 last_first numbers boot))
      (fibonacci_naive_at 1000).
Proof.
  intros [identify Hid].
  assert (Hdeep : fibonacci_naive_at 1000 999999 = Raise RecursionError).
  { vm_compute. reflexivity. }
  assert (H1 : identify RecursionError = (1%nat, 999999)).
  { apply (Hid [5; 999999; 7] 1%nat 999999 RecursionError eq_refl Hdeep).
    - intros j y Hj Hy. destruct j as [| j]; [| lia].
      injection Hy as <-. exists 5. vm_compute. reflexivity.
    - vm_compute. reflexivity. }
  assert (H0 : identify RecursionError = (0%nat, 999999)).
  { apply (Hid [999999; 5; 7] 0%nat 999999 RecursionError eq_refl Hdeep).
    - intros j y Hj. lia.
    - vm_compute. reflexivity. }
  rewrite H1 in H0. discriminate.
Qed.

(** C6, as the code has it: the wrapper returns exactly what the wrapped call
    returns and raises exactly what it raises, and it leaves the cache as the
    call left it.  The call runs right after the first reading of the clock.
    When it returns, the wrapper reads the clock once more and prints one
    line, the difference of the two readings.  When it raises, the wrapper is
    left at once: the clock is not read again and nothing is printed. *)
Theorem measure_time_is_transparent {A B : Type} (func_name : string) (func : A -> M B)
    (args : A) (w : world) :
  let inner := func args (snd (time_time w)) in
  let outer := measure_time func_name func args w in
  fst outer = fst inner /\
  memo (snd outer) = memo (snd inner) /\
  match fst inner with
  | Return _ =>
      reads (snd outer) = S (reads (snd inner)) /\
      stdout (snd outer) =
        stdout (snd inner) ++
        [Took func_name
           (PrimFloat.sub (clock (snd inner) (reads (snd inner))) (clock w (reads w)))]
  | Raise _ => snd outer = snd inner
  end.
Proof.
  cbv zeta. split; [apply measure_time_result |]. split; [apply measure_time_memo |].
  destruct (func args (snd (time_time w))) as [[result | e] w2] eqn:Hcall; cbn [fst snd].
  - rewrite (measure_time_returns _ _ _ _ _ _ Hcall). split; reflexivity.
  - rewrite (measure_time_raises _ _ _ _ _ _ Hcall). reflexivity.
Qed.

(** C6, as the specification states it, fails on a wrapped call that raises:
    the clock has been read once, not twice, and nothing has been printed. *)
Lemma measure_time_skips_failure :
  ~ times_every_exit /\
  fst (measure_time "job" failing_call tt boot) = Raise (PyError "ValueError") /\
  reads (snd (measure_time "job" failing_call tt boot)) = 1%nat /\
  stdout (snd (measure_time "job" failing_call tt boot)) = [].
Proof.
  split; [| repeat split].
  intros Hclaim.
  destruct (Hclaim unit Z "job" failing_call tt boot) as [Hreads _].
  vm_compute in Hreads. discriminate.
Qed.

(** * Further properties *)

Lemma fibonacci_naive_next (n : Z) : fibonacci_naive n <= fibonacci_naive (n + 1).
Proof.
  destruct (Z_le_gt_dec n 0) as [Hle | Hgt].
  - rewrite !fibonacci_naive_base by lia. lia.
  - rewrite (fibonacci_naive_step (n + 1)) by lia.
    replace (n + 1 - 1) with n by lia.
    pose proof (fibonacci_naive_nonneg (n + 1 - 2) ltac:(lia)). lia.
Qed.


Lemma exec_info_bind (p : prog) (k : Z -> prog) (c : gmap Z Z) (info : cache_info) :
  exec_info (bind p k) c info =
  match fst (exec p c) with
  | Return v => exec_info (k v) (snd (exec p c)) (exec_info p c info)
  | Raise e => exec_info p c info
  end.
Proof.
  revert c info. induction p as [r | key cont IH | key value next IH]; intros c info.
  - destruct r; reflexivity.
  - cbn [bind exec_info exec]. destruct (c !! key) as [v |]; apply IH.
  - cbn [bind exec_info exec]. apply IH.
Qed.

Lemma fibonacci_memo_hit_info (n v : Z) (c : gmap Z Z) (info : cache_info) :
  c !! n = Some v ->
  exec_info (fibonacci_memo n) c info = {| hits := S (hits info); misses := misses info |}.
Proof.
  intros Hc. rewrite fibonacci_memo_equation_1. unfold lru_cache. cbn [exec_info].
  rewrite Hc. reflexivity.
Qed.

(** A miss on [n >= 2]: the call on [n - 1], then the call on [n - 2] on the
    cache that the first leaves, then the store of the sum. *)
Lemma fibonacci_memo_miss (n : Z) (c : gmap Z Z) (info : cache_info) :
  1 < n -> c !! n = None ->
  exists a b,
    fst (exec (fibonacci_memo (n - 1)) c) = Return a /\
    fst (exec (fibonacci_memo (n - 2)) (snd (exec (fibonacci_memo (n - 1)) c))) = Return b /\
    exec (fibonacci_memo n) c =
      (Return (a + b),
       <[n := a + b]> (snd (exec (fibonacci_memo (n - 2))
                             (snd (exec (fibonacci_memo (n - 1)) c))))) /\
    exec_info (fibonacci_memo n) c info =
      exec_info (fibonacci_memo (n - 2)) (snd (exec (fibonacci_memo (n - 1)) c))
        (exec_info (fibonacci_memo (n - 1)) c
           {| hits := hits info; misses := S (misses info) |}).
Proof.
  intros Hn Hc.
  destruct (fibonacci_memo_call (n - 1) c) as (a & Ha & _).
  destruct (fibonacci_memo_call (n - 2) (snd (exec (fibonacci_memo (n - 1)) c)))
    as (b & Hb & _).
  exists a, b. split; [exact Ha |]. split; [exact Hb |].
  rewrite (fibonacci_memo_equation_1 n). unfold lru_cache. cbn [exec exec_info].
  rewrite Hc. destruct (Z_le_gt_dec n 1) as [Hle | _]; [lia |].
  rewrite !exec_bind, !exec_info_bind, !exec_bind, Ha.
  rewrite !exec_info_bind, !exec_bind, Hb. cbn [exec exec_info fst snd].
  split; reflexivity.
Qed.

Lemma warm_prefix_size (n : Z) (c : gmap Z Z) :
  0 <= n ->
  (forall k, c !! k = if decide (0 <= k <= n) then Some (fibonacci_naive k) else None) ->
  size c = Z.to_nat (n + 1).
Proof.
  intros Hn. revert c.
  replace n with (Z.of_nat (Z.to_nat n)) by lia.
  induction (Z.to_nat n) as [| m IH]; intros c Hc.
  - assert (c = {[ 0 := fibonacci_naive 0 ]}) as ->.
    { apply map_eq. intros k. rewrite Hc. case_decide as Hk.
      - assert (k = 0) as -> by lia. rewrite lookup_singleton_eq. reflexivity.
      - rewrite lookup_singleton_ne by lia. reflexivity. }
    rewrite map_size_singleton. reflexivity.
  - assert (Hdel : size (delete (Z.of_nat (S m)) c) = Z.to_nat (Z.of_nat m + 1)).
    { apply IH. intros k. destruct (decide (k = Z.of_nat (S m))) as [-> | Hne].
      - rewrite lookup_delete_eq. case_decide; [lia | reflexivity].
      - rewrite lookup_delete_ne by congruence. rewrite Hc.
        repeat case_decide; try reflexivity; lia. }
    assert (Hin : c !! Z.of_nat (S m) = Some (fibonacci_naive (Z.of_nat (S m)))).
    { rewrite Hc. case_decide; [reflexivity | lia]. }
    rewrite <- (insert_delete_id c _ _ Hin).
    rewrite map_size_insert_None by apply lookup_delete_eq.
    rewrite Hdel. lia.
Qed.

(** A first call on [n >= 2]: the cache then holds the keys 0..n and no
    other, each with its Fibonacci value; the wrapper has counted [n + 1]
    misses and [n - 2] hits. *)
Lemma cold_call (n : Z) (info : cache_info) :
  2 <= n ->
  (forall k, snd (exec (fibonacci_memo n) ∅) !! k =
             if decide (0 <= k <= n) then Some (fibonacci_naive k) else None) /\
  exec_info (fibonacci_memo n) ∅ info =
    {| hits := (Z.to_nat (n - 2) + hits info)%nat;
       misses := (Z.to_nat (n + 1) + misses info)%nat |}.
Proof.
  intros Hn. revert info.
  replace n with (2 + Z.of_nat (Z.to_nat (n - 2))) by lia.
  induction (Z.to_nat (n - 2)) as [| m IH]; intros info.
  - replace (2 + Z.of_nat 0) with 2 by lia. split.
    + intros k.
      assert (Hc : snd (exec (fibonacci_memo 2) ∅) = <[2 := 1]> (<[0 := 0]> (<[1 := 1]> ∅))).
      { vm_compute. reflexivity. }
      rewrite Hc.
      destruct (decide (k = 2)) as [-> | H2]; [reflexivity |].
      destruct (decide (k = 0)) as [-> | H0]; [reflexivity |].
      destruct (decide (k = 1)) as [-> | H1]; [reflexivity |].
      rewrite !lookup_insert_ne, lookup_empty by congruence.
      case_decide; [lia | reflexivity].
    + destruct info as [h m]. vm_compute. reflexivity.
  - set (n' := 2 + Z.of_nat m) in *.
    replace (2 + Z.of_nat (S m)) with (n' + 1) by lia.
    destruct (fibonacci_memo_miss (n' + 1) ∅ info ltac:(lia) (lookup_empty _))
      as (a & b & Ha & Hb & Hexec & Hinfo).
    replace (n' + 1 - 1) with n' in * by lia.
    replace (n' + 1 - 2) with (n' - 1) in * by lia.
    destruct (IH {| hits := hits info; misses := S (misses info) |}) as [Hfull Hcount].
    set (c1 := snd (exec (fibonacci_memo n') ∅)) in *.
    assert (Hprev : c1 !! (n' - 1) = Some (fibonacci_naive (n' - 1))).
    { rewrite Hfull. case_decide; [reflexivity | lia]. }
    assert (Ha' : a = fibonacci_naive n').
    { pose proof (exec_yields fibonacci_naive _ _ ∅ (fibonacci_memo_yields n') sound_empty)
        as (Hr & _). rewrite Hr in Ha. congruence. }
    rewrite (fibonacci_memo_hit _ _ _ Hprev) in Hb, Hexec. cbn [fst snd] in Hb, Hexec.
    injection Hb as <-. subst a.
    split.
    + intros k. rewrite Hexec. cbn [snd].
      replace (fibonacci_naive n' + fibonacci_naive (n' - 1))
        with (fibonacci_naive (n' + 1)).
      2:{ rewrite (fibonacci_naive_step (n' + 1)) by lia.
          replace (n' + 1 - 1) with n' by lia. replace (n' + 1 - 2) with (n' - 1) by lia.
          reflexivity. }
      destruct (decide (k = n' + 1)) as [-> | Hk].
      * rewrite lookup_insert_eq. case_decide; [reflexivity | lia].
      * rewrite lookup_insert_ne by congruence. rewrite Hfull.
        repeat case_decide; try reflexivity; lia.
    + rewrite Hinfo, Hcount, (fibonacci_memo_hit_info _ _ _ _ Hprev).
      cbn [hits misses]. f_equal; lia.
Qed.

(** * Workers that use no cache leave every cache alone *)

Section CacheFree.
Variable f : Z -> outcome Z.
Variable scope : nat -> nat.

Lemma step_cache_free (i : nat) (p : pool) :
  cache_free p ->
  cache_free (step (call f) scope i p) /\ spaces (step (call f) scope i p) = spaces p.
Proof.
  intros Hp. unfold step.
  destruct (futures p !! i) as [[task | q | r |] |] eqn:Hf; try (split; [exact Hp | reflexivity]).
  - split; [| reflexivity]. intros j q. cbn [futures].
    destruct (decide (i = j)) as [<- | Hne].
    + rewrite list_lookup_insert_eq by (eapply lookup_lt_Some; exact Hf).
      intros [= <-]. eexists. reflexivity.
    + rewrite list_lookup_insert_ne by exact Hne. apply Hp.
  - destruct (Hp i q Hf) as [r ->]. split; [| reflexivity].
    intros j q. cbn [futures]. destruct (decide (i = j)) as [<- | Hne].
    + rewrite list_lookup_insert_eq by (eapply lookup_lt_Some; exact Hf). discriminate.
    + rewrite list_lookup_insert_ne by exact Hne. apply Hp.
Qed.

Lemma interleave_cache_free (sched : list nat) (p : pool) :
  cache_free p ->
  cache_free (interleave (call f) scope sched p) /\
  spaces (interleave (call f) scope sched p) = spaces p.
Proof.
  revert p. induction sched as [| i sched IH]; intros p Hp.
  - split; [exact Hp | reflexivity].
  - rewrite interleave_cons. destruct (step_cache_free i p Hp) as [Hp1 Hs1].
    destruct (IH _ Hp1) as [Hp2 Hs2]. split; [exact Hp2 | congruence].
Qed.

Lemma wait_cache_free (i : nat) (p : pool) :
  cache_free p ->
  cache_free (wait (call f) scope i p) /\ spaces (wait (call f) scope i p) = spaces p.
Proof.
  intros Hp. destruct (wait_is_steps (call f) scope i p) as [k ->].
  apply interleave_cache_free, Hp.
Qed.

Lemma cancel_pending_cache_free (p : pool) : cache_free p -> cache_free (cancel_pending p).
Proof.
  intros Hp j q. cbn [cancel_pending futures]. rewrite list_lookup_fmap.
  destruct (futures p !! j) as [[task | q' | r |] |] eqn:Hf; cbn; try discriminate.
  intros [= <-]. apply (Hp j q' Hf).
Qed.

Lemma result_iterator_cache_free (count i : nat) (p : pool) :
  cache_free p ->
  cache_free (snd (result_iterator (call f) scope i count p)) /\
  spaces (snd (result_iterator (call f) scope i count p)) = spaces p.
Proof.
  revert i p. induction count as [| count IH]; intros i p Hp; cbn [result_iterator].
  - split; [exact Hp | reflexivity].
  - destruct (wait_cache_free i p Hp) as [Hp1 Hs1].
    destruct (futures (wait (call f) scope i p) !! i) as [[task | q | [v | e] |] |];
      cbn [snd]; try (split; [exact Hp1 | exact Hs1]).
    + destruct (IH (S i) _ Hp1) as [Hp2 Hs2]. split; [exact Hp2 | congruence].
    + split; [apply cancel_pending_cache_free, Hp1 | exact Hs1].
Qed.

Lemma waits_cache_free (indices : list nat) (p : pool) :
  cache_free p ->
  spaces (foldl (fun q i => wait (call f) scope i q) p indices) = spaces p.
Proof.
  revert p. induction indices as [| i indices IH]; intros p Hp; cbn [foldl].
  - reflexivity.
  - destruct (wait_cache_free i p Hp) as [Hp1 Hs1]. rewrite (IH _ Hp1). exact Hs1.
Qed.

(** Whatever the schedule, and whether the run returns or raises, a pool
    whose workers use no cache leaves every cache as it was. *)
Lemma run_pool_call_spaces (sched : list nat) (numbers : list Z) (caches : nat -> gmap Z Z) :
  spaces (snd (run_pool (call f) scope sched numbers caches)) = caches.
Proof.
  unfold run_pool. cbn [snd]. unfold shutdown.
  assert (H0 : cache_free (submit numbers caches)).
  { intros j q. cbn [submit futures]. rewrite list_lookup_fmap.
    destruct (numbers !! j); discriminate. }
  destruct (interleave_cache_free sched _ H0) as [H1 Hs1].
  destruct (result_iterator_cache_free (length numbers) 0 _ H1) as [H2 Hs2].
  rewrite (waits_cache_free _ _ H2), Hs2, Hs1. reflexivity.
Qed.
End CacheFree.

Lemma set_memo_same (w : world) : set_memo (memo w) w = w.
Proof. destruct w. reflexivity. Qed.

Lemma thread_pool_map_call_world (f : Z -> outcome Z) (h : host) (numbers : list Z) (w : world) :
  snd (thread_pool_map (call f) h numbers w) = w.
Proof.
  unfold thread_pool_map, thread_pool_run. cbn [snd].
  rewrite run_pool_call_spaces. apply set_memo_same.
Qed.

Lemma cache_free_strategy (func_name : string) (f : Z -> Z) (h : host) (numbers : list Z)
    (w : world) :
  measure_time func_name (thread_pool_map (call (fun n => Return (f n))) h) numbers w =
    (Return (map f numbers), timed func_name w (snd (time_time w))) /\
  measure_time func_name (process_pool_map (call (fun n => Return (f n))) h) numbers w =
    (Return (map f numbers), timed func_name w (snd (time_time w))).
Proof.
  split.
  - rewrite (measure_time_returns _ _ _ _ (snd (time_time w)) (map f numbers));
      [reflexivity |].
    rewrite (surjective_pairing (thread_pool_map _ h numbers (snd (time_time w)))).
    rewrite thread_pool_map_call_world, thread_pool_map_call, comprehension_returns.
    reflexivity.
  - rewrite (measure_time_returns _ _ _ _ (snd (time_time w)) (map f numbers));
      [reflexivity |].
    rewrite process_pool_map_call, comprehension_returns. reflexivity.
Qed.

(** * A run of memoized workers warms the caches *)

Lemma stores_key_bind (val : Z -> Z) (x : Z) (p : prog) (k : Z -> prog) (a : Z) :
  yields val (Return a) p -> stores_key val x (k a) -> stores_key val x (bind p k).
Proof.
  intros Hp Hk. induction p as [r | key cont IH | key value next IH]; simpl in *.
  - subst r. exact Hk.
  - destruct Hp as [Hnone Hsome]. split; [apply IH, Hnone | right; apply IH, Hsome].
  - destruct Hp as [_ Hnext]. right. apply IH, Hnext.
Qed.

Lemma fibonacci_memo_body_yields (n : Z) :
  yields fibonacci_naive (Return (fibonacci_naive n))
    (match Z_le_gt_dec n 1 with
     | left _ => Done (Return n)
     | right _ =>
         bind (fibonacci_memo (n - 1)) (fun a =>
         bind (fibonacci_memo (n - 2)) (fun b => Done (Return (a + b))))
     end).
Proof.
  destruct (Z_le_gt_dec n 1) as [Hle | Hgt].
  - cbn [yields]. rewrite fibonacci_naive_base by lia. reflexivity.
  - eapply yields_bind; [apply fibonacci_memo_yields |].
    eapply yields_bind; [apply fibonacci_memo_yields |].
    cbn [yields]. rewrite (fibonacci_naive_step n) by lia. reflexivity.
Qed.

Lemma fibonacci_memo_stores (x : Z) : stores_key fibonacci_naive x (fibonacci_memo x).
Proof.
  rewrite fibonacci_memo_equation_1. unfold lru_cache. cbn [stores_key].
  split; [| left; reflexivity].
  eapply stores_key_bind; [apply fibonacci_memo_body_yields |].
  cbn [stores_key]. left. reflexivity.
Qed.

Section Warming.
Variable val : Z -> Z.
Variable fn : Z -> prog.
Variable scope : nat -> nat.
Variable spec : Z -> outcome Z.
Hypothesis fn_yields : forall x, yields val (spec x) (fn x).
Hypothesis fn_stores : forall x, stores_key val x (fn x).

Lemma is_Some_grows (p q : pool) (s : nat) (x : Z) :
  grows p q -> is_Some (spaces p s !! x) -> is_Some (spaces q s !! x).
Proof.
  intros Hg [v Hv]. exists v. eapply lookup_weaken; [exact Hv | apply Hg].
Qed.

Lemma step_warming (numbers : list Z) (i : nat) (p : pool) :
  consistent val spec numbers p ->
  warming val scope numbers p ->
  warming val scope numbers (step fn scope i p).
Proof.
  intros Hp Hw.
  destruct (step_consistent val fn scope spec fn_yields numbers i p Hp) as [_ Hg].
  intros j x f Hx Hf.
  destruct (decide (j = i)) as [-> | Hne].
  - revert Hf Hg. unfold step.
    destruct (futures p !! i) as [[task | q | r |] |] eqn:Hi.
    + cbn [futures spaces]. intros Hf _.
      rewrite list_lookup_insert_eq in Hf by (eapply lookup_lt_Some; exact Hi).
      injection Hf as <-.
      destruct (tracks_lookup _ _ _ _ _ _ (proj1 Hp) Hi) as (x' & Hx' & Ht).
      cbn [tracks] in Ht. assert (x' = x) by congruence. subst. left. apply fn_stores.
    + pose proof (Hw i x _ Hx Hi) as Hq. cbn beta iota in Hq.
      destruct (tracks_lookup _ _ _ _ _ _ (proj1 Hp) Hi) as (x' & Hx' & Ht).
      assert (x' = x) by congruence. subst x'. cbn [tracks] in Ht.
      destruct q as [r | key cont | key value next]; cbn [futures spaces]; intros Hf Hg;
        rewrite list_lookup_insert_eq in Hf by (eapply lookup_lt_Some; exact Hi);
        injection Hf as <-.
      * destruct Hq as [[] | Hq]. exact Hq.
      * destruct Hq as [[Hnone Hsome] | Hq]; [| right; exact Hq].
        destruct (agrees_lookup val _ key (proj2 Hp (scope i))) as [Hk | Hk]; rewrite Hk.
        -- left. exact Hnone.
        -- destruct Hsome as [-> | Hsome]; [right; rewrite Hk; eauto | left; exact Hsome].
      * destruct Hq as [[-> | Hnext] | Hq].
        -- right. rewrite set_space_same, lookup_insert_eq. eauto.
        -- left. exact Hnext.
        -- right. eapply (is_Some_grows p _ (scope i) x Hg) in Hq. exact Hq.
    + intros Hf _. rewrite Hi in Hf. injection Hf as <-. apply (Hw i x _ Hx Hi).
    + intros Hf _. rewrite Hi in Hf. injection Hf as <-. exact I.
    + intros Hf _. rewrite Hi in Hf. discriminate.
  - assert (Hsame : futures (step fn scope i p) !! j = futures p !! j).
    { unfold step.
      destruct (futures p !! i) as [[task | [r | key cont | key value next] | r |] |];
        cbn [futures]; try reflexivity; apply list_lookup_insert_ne; congruence. }
    rewrite Hsame in Hf. pose proof (Hw j x f Hx Hf) as Hq.
    destruct f as [task | q | r |]; try exact I.
    + destruct Hq as [Hq | Hq]; [left; exact Hq | right].
      eapply is_Some_grows; eassumption.
    + eapply is_Some_grows; eassumption.
Qed.

Lemma interleave_warming (numbers : list Z) (sched : list nat) (p : pool) :
  consistent val spec numbers p ->
  warming val scope numbers p ->
  warming val scope numbers (interleave fn scope sched p).
Proof.
  revert p. induction sched as [| i sched IH]; intros p Hp Hw.
  - exact Hw.
  - rewrite interleave_cons. apply IH.
    + apply (step_consistent val fn scope spec fn_yields numbers i p Hp).
    + apply step_warming; assumption.
Qed.

(** After a run in which no call raises, every input is a key of the cache
    of the address space that served it, with the value that [val] expects. *)
Lemma run_pool_warms (sched : list nat) (numbers : list Z) (caches : nat -> gmap Z Z)
    (i : nat) (x : Z) :
  (forall s, agrees val (caches s)) ->
  (forall y, y ∈ numbers -> exists v, spec y = Return v) ->
  numbers !! i = Some x ->
  spaces (snd (run_pool fn scope sched numbers caches)) (scope i) !! x = Some (val x).
Proof.
  intros Hc Hok Hx.
  pose proof (run_pool_spec val fn scope spec fn_yields sched numbers caches Hc)
    as (Hr & Hsound & _).
  pose proof (run_pool_futures val fn scope spec fn_yields sched numbers caches Hc Hok) as Hfs.
  assert (Hret : exists vs, comprehension (map spec numbers) = Return vs).
  { clear -Hok. induction numbers as [| y numbers IH]; cbn [map comprehension].
    - eexists. reflexivity.
    - destruct (Hok y) as [v ->]; [left |]. cbn [outcome_bind].
      destruct IH as [vs ->]; [intros z Hz; apply Hok; right; exact Hz |].
      eexists. reflexivity. }
  destruct Hret as [vs Hvs]. rewrite Hvs in Hr.
  destruct (run_pool_is_interleaving fn scope sched numbers caches vs Hr) as [extra He].
  assert (Hw : warming val scope numbers (snd (run_pool fn scope sched numbers caches))).
  { rewrite He. apply interleave_warming.
    - apply submitted_consistent, Hc.
    - intros j y f Hy Hf. cbn [submit futures] in Hf. rewrite list_lookup_fmap, Hy in Hf.
      injection Hf as <-. exact I. }
  assert (Hf : futures (snd (run_pool fn scope sched numbers caches)) !! i
               = Some (Finished (spec x))).
  { rewrite Hfs, list_lookup_fmap, Hx. reflexivity. }
  pose proof (Hw i x _ Hx Hf) as [v Hv]. cbn beta iota in Hv.
  rewrite Hv. f_equal. apply (Hsound (scope i) x v Hv).
Qed.
End Warming.

(** * The strategies, with all their effects *)

Lemma process_pool_map_call_world (f : Z -> outcome Z) (h : host) (numbers : list Z) (w : world) :
  snd (process_pool_map (call f) h numbers w) = w.
Proof. reflexivity. Qed.

(** A decorated strategy whose workers use no cache, in full: the outcome is
    that of the comprehension; on a result the main process is left with two
    more readings of the clock and one more line; on an exception with one
    more reading and nothing printed; the cache is never touched. *)
Lemma cache_free_strategy_outcome (func_name : string) (f : Z -> outcome Z) (h : host)
    (numbers : list Z) (w : world) :
  let outcome_of :=
    match comprehension (map f numbers) with
    | Return vs => (Return vs, timed func_name w (snd (time_time w)))
    | Raise e => (Raise e, snd (time_time w))
    end in
  measure_time func_name (thread_pool_map (call f) h) numbers w = outcome_of /\
  measure_time func_name (process_pool_map (call f) h) numbers w = outcome_of.
Proof.
  cbv zeta.
  assert (Ht : thread_pool_map (call f) h numbers (snd (time_time w)) =
               (comprehension (map f numbers), snd (time_time w))).
  { rewrite (surjective_pairing (thread_pool_map _ h numbers (snd (time_time w)))).
    rewrite thread_pool_map_call_world, thread_pool_map_call. reflexivity. }
  assert (Hp : process_pool_map (call f) h numbers (snd (time_time w)) =
               (comprehension (map f numbers), snd (time_time w))).
  { apply process_pool_map_call. }
  destruct (comprehension (map f numbers)) as [vs | e]; split.
  - rewrite (measure_time_returns _ _ _ _ _ _ Ht). reflexivity.
  - rewrite (measure_time_returns _ _ _ _ _ _ Hp). reflexivity.
  - apply measure_time_raises, Ht.
  - apply measure_time_raises, Hp.
Qed.

Lemma fibonacci_naive_at_cases (depth : nat) (n : Z) :
  fibonacci_naive_at depth n =
  if (0 <? Z.of_nat depth) && ((n <=? 1) || (n <=? Z.of_nat depth))
  then Return (fibonacci_naive n)
  else Raise RecursionError.
Proof.
  destruct depth as [| depth]; [reflexivity |].
  destruct (Z.ltb_spec 0 (Z.of_nat (S depth))) as [_ | Hd]; [| lia]. cbn [andb].
  destruct (Z.leb_spec n 1) as [H1 | H1]; cbn [orb].
  - apply fibonacci_naive_at_enough; lia.
  - destruct (Z.leb_spec n (Z.of_nat (S depth))) as [Hn | Hn].
    + apply fibonacci_naive_at_enough; lia.
    + apply fibonacci_naive_at_short; lia.
Qed.

Lemma comprehension_under_limit (depth : nat) (numbers : list Z) :
  comprehension (map (fibonacci_naive_at depth) numbers) =
  if forallb (fun n => (0 <? Z.of_nat depth) && ((n <=? 1) || (n <=? Z.of_nat depth))) numbers
  then Return (map fibonacci_naive numbers)
  else Raise RecursionError.
Proof.
  induction numbers as [| n numbers IH]; cbn [map comprehension forallb].
  - reflexivity.
  - rewrite fibonacci_naive_at_cases, IH.
    destruct ((0 <? Z.of_nat depth) && ((n <=? 1) || (n <=? Z.of_nat depth)));
      cbn [andb outcome_bind]; [| reflexivity].
    destruct (forallb _ numbers); reflexivity.
Qed.

(** X1: the depth of the recursion decides whether a naive run fails.  A call
    on [n] under a limit returns exactly when there is room for one call and
    [n] is at most 1 or at most the limit: an input [n >= 2] needs [n]
    nested calls.  A batch returns all its values when every input fits, and
    otherwise raises [RecursionError], prints nothing and leaves the cache
    alone, in the thread pool and in the process pool alike. *)
Theorem recursion_limit_decides (limit : nat) (h : host) (numbers : list Z) (w : world) :
  let fits n := (0 <? Z.of_nat limit) && ((n <=? 1) || (n <=? Z.of_nat limit)) in
  (forall n, fibonacci_naive_at limit n =
             if fits n then Return (fibonacci_naive n) else Raise RecursionError) /\
  multi_threaded_fibonacci_naive_at limit h numbers w =
    (if forallb fits numbers
     then (Return (map fibonacci_naive numbers),
           timed "multi_threaded_fibonacci_naive" w (snd (time_time w)))
     else (Raise RecursionError, snd (time_time w))) /\
  multi_process_fibonacci_naive_at limit h numbers w =
    (if forallb fits numbers
     then (Return (map fibonacci_naive numbers),
           timed "multi_process_fibonacci_naive" w (snd (time_time w)))
     else (Raise RecursionError, snd (time_time w))).
Proof.
  cbv zeta. split; [intros n; apply fibonacci_naive_at_cases |].
  unfold multi_threaded_fibonacci_naive_at, multi_process_fibonacci_naive_at.
  destruct (cache_free_strategy_outcome "multi_threaded_fibonacci_naive"
              (fibonacci_naive_at limit) h numbers w) as [-> _].
  destruct (cache_free_strategy_outcome "multi_process_fibonacci_naive"
              (fibonacci_naive_at limit) h numbers w) as [_ ->].
  rewrite comprehension_under_limit.
  destruct (forallb _ numbers); split; reflexivity.
Qed.

(** X2: the naive function preserves the order of the integers, the negative
    ones included, and its value is negative exactly on a negative input. *)
Theorem naive_is_monotone (m n : Z) :
  m <= n ->
  fibonacci_naive m <= fibonacci_naive n /\
  (fibonacci_naive n < 0 <-> n < 0).
Proof.
  intros Hmn. split.
  - replace n with (m + Z.of_nat (Z.to_nat (n - m))) by lia.
    induction (Z.to_nat (n - m)) as [| k IH].
    + replace (m + Z.of_nat 0) with m by lia. lia.
    + etransitivity; [exact IH |].
      replace (m + Z.of_nat (S k)) with (m + Z.of_nat k + 1) by lia.
      apply fibonacci_naive_next.
  - split; intros H.
    + destruct (Z_lt_ge_dec n 0) as [Hneg | Hpos]; [exact Hneg |].
      pose proof (fibonacci_naive_nonneg n ltac:(lia)). lia.
    + rewrite fibonacci_naive_base by lia. exact H.
Qed.

Lemma naive_is_monotone_witness :
  fibonacci_naive (-3) <= fibonacci_naive 7 /\ (fibonacci_naive 7 < 0 <-> 7 < 0).
Proof. apply (naive_is_monotone (-3) 7). lia. Defined.




Lemma thread_memo_strategy (h : host) (numbers : list Z) (w : world) :
  sound (memo w) ->
  exists c,
    multi_threaded_fibonacci_memo h numbers w =
      (Return (map fibonacci_naive numbers),
       timed "multi_threaded_fibonacci_memo" w (set_memo c (snd (time_time w)))) /\
    sound c /\
    memo w ⊆ c /\
    (forall x, x ∈ numbers -> c !! x = Some (fibonacci_naive x)).
Proof.
  intros Hw.
  exists (spaces (snd (thread_pool_run fibonacci_memo h numbers (snd (time_time w)))) 0%nat).
  destruct (thread_pool_map_memo h numbers (snd (time_time w)) Hw) as (Hr & Hs & Hg).
  split; [| split; [exact Hs | split; [exact Hg |]]].
  - unfold multi_threaded_fibonacci_memo.
    rewrite (measure_time_returns _ _ _ _
               (snd (thread_pool_map fibonacci_memo h numbers (snd (time_time w))))
               (map fibonacci_naive numbers)); [reflexivity |].
    rewrite <- Hr. apply surjective_pairing.
  - intros x Hx. apply list_elem_of_lookup_1 in Hx. destruct Hx as [i Hi].
    unfold thread_pool_run.
    apply (run_pool_warms fibonacci_naive fibonacci_memo (fun _ => 0%nat)
             (fun y => Return (fibonacci_naive y)) fibonacci_memo_yields
             fibonacci_memo_stores (schedule h) numbers _ i x (fun _ => Hw)); [| exact Hi].
    intros y _. eexists. reflexivity.
Qed.

Lemma process_memo_strategy (h : host) (numbers : list Z) (w : world) :
  sound (memo w) ->
  multi_process_fibonacci_memo h numbers w =
    (Return (map fibonacci_naive numbers),
     timed "multi_process_fibonacci_memo" w (snd (time_time w))).
Proof.
  intros Hw. unfold multi_process_fibonacci_memo.
  rewrite (measure_time_returns _ _ _ _ (snd (time_time w)) (map fibonacci_naive numbers));
    [reflexivity |].
  apply (process_pool_map_memo h numbers (snd (time_time w))). exact Hw.
Qed.

(** * The compute functions under a limit on the call depth *)

Lemma fibonacci_at_is_naive_at (depth : nat) (n : Z) :
  fibonacci_at depth n = fibonacci_naive_at depth n.
Proof.
  revert n. induction depth as [| depth IH]; intros n; cbn [fibonacci_at fibonacci_naive_at].
  - reflexivity.
  - destruct (n <=? 1); [reflexivity |]. rewrite !IH. reflexivity.
Qed.

Lemma naive_room_positive (n : Z) : (1 <= naive_room n)%nat.
Proof. unfold naive_room. destruct (Z.leb_spec n 1); lia. Qed.

(** The naive call returns exactly when its room suffices. *)
Lemma fibonacci_naive_at_room (depth : nat) (n : Z) :
  fibonacci_naive_at depth n =
  if (naive_room n <=? depth)%nat then Return (fibonacci_naive n) else Raise RecursionError.
Proof.
  rewrite fibonacci_naive_at_cases. unfold naive_room.
  destruct (Z.ltb_spec 0 (Z.of_nat depth)); destruct (Z.leb_spec n 1);
    destruct (Z.leb_spec n (Z.of_nat depth)); cbn [andb orb];
    match goal with |- context [(?a <=? ?b)%nat] => destruct (Nat.leb_spec a b) end;
    try reflexivity; lia.
Qed.

(** With room enough, the call under a limit is the call of the function on
    an unbounded stack. *)
Lemma fibonacci_memo_at_enough (depth : nat) (n : Z) :
  (memo_room n <= depth)%nat -> fibonacci_memo_at depth n = fibonacci_memo n.
Proof.
  revert depth. unfold memo_room, naive_room.
  induction n as [n Hn | n Hn IH1 IH2] using call_induction; intros depth Hroom;
    rewrite fibonacci_memo_equation_1;
    (destruct depth as [| [| below]];
     [destruct (Z.leb_spec n 1); lia | destruct (Z.leb_spec n 1); lia |]);
    cbn [fibonacci_memo_at]; f_equal;
    destruct (Z.leb_spec n 1) as [Hle | Hgt]; destruct (Z_le_gt_dec n 1); try lia.
  - reflexivity.
  - rewrite IH1, IH2; [reflexivity | |].
    + destruct (Z.leb_spec (n - 2) 1); lia.
    + destruct (Z.leb_spec (n - 1) 1); lia.
Qed.

Lemma fibonacci_memo_at_hit (depth : nat) (n v : Z) (c : gmap Z Z) :
  c !! n = Some v -> exec (fibonacci_memo_at (S depth) n) c = (Return v, c).
Proof.
  intros Hc. cbn [fibonacci_memo_at]. unfold lru_cache. cbn [exec]. rewrite Hc. reflexivity.
Qed.

Lemma fibonacci_memo_at_hit_info (depth : nat) (n v : Z) (c : gmap Z Z) (info : cache_info) :
  c !! n = Some v ->
  exec_info (fibonacci_memo_at (S depth) n) c info =
  {| hits := S (hits info); misses := misses info |}.
Proof.
  intros Hc. cbn [fibonacci_memo_at]. unfold lru_cache. cbn [exec_info]. rewrite Hc.
  reflexivity.
Qed.

(** A call under a limit, on any cache.  It returns by a hit, with the cache
    as it was; or it returns by a miss, which needs two frames, leaves the
    value stored under its key, keeps every entry and touches no key above
    its argument, and has the key below its argument in the cache; or it
    raises [RecursionError] and leaves the cache exactly as it found it. *)
Lemma fibonacci_memo_at_call (depth : nat) (n : Z) (c : gmap Z Z) :
  let r := exec (fibonacci_memo_at depth n) c in
  (exists v, c !! n = Some v /\ (1 <= depth)%nat /\ r = (Return v, c)) \/
  (exists v, c !! n = None /\ (2 <= depth)%nat /\ fst r = Return v /\
             snd r !! n = Some v /\ c ⊆ snd r /\
             (forall k, n < k -> snd r !! k = c !! k) /\
             (1 < n -> is_Some (snd r !! (n - 1)))) \/
  (r = (Raise RecursionError, c)).
Proof.
  cbv zeta. revert n c. induction depth as [depth IH] using lt_wf_ind. intros n c.
  destruct depth as [| [| below]].
  - right. right. reflexivity.
  - cbn [fibonacci_memo_at]. unfold lru_cache. cbn [exec].
    destruct (c !! n) as [v |] eqn:Hc.
    + left. exists v. repeat split; [lia].
    + right. right. reflexivity.
  - cbn [fibonacci_memo_at]. unfold lru_cache. cbn [exec].
    destruct (c !! n) as [v |] eqn:Hc.
    { left. exists v. repeat split; lia. }
    destruct (Z.leb_spec n 1) as [Hle | Hgt].
    { right. left. exists n. cbn [bind exec fst snd].
      split; [reflexivity |]. split; [lia |]. split; [reflexivity |].
      split; [apply lookup_insert_eq |]. split; [apply insert_subseteq, Hc |].
      split; [| lia]. intros k Hk. apply lookup_insert_ne. lia. }
    rewrite !exec_bind.
    destruct (IH below ltac:(lia) (n - 1) c)
      as [(a & Ha & _ & Hr1) | [(a & Ha & Hd1 & Hr1 & Hs1 & Hsub1 & Hup1 & Hlow1) | Hr1]].
    + (* the call on [n - 1] is a hit *)
      rewrite !Hr1. cbn [fst snd]. rewrite !exec_bind.
      destruct (IH below ltac:(lia) (n - 2) c)
        as [(b & Hb & _ & Hr2) | [(b & Hb & Hd2 & Hr2 & Hs2 & Hsub2 & Hup2 & Hlow2) | Hr2]].
      * rewrite !Hr2. cbn [fst snd exec]. right. left. exists (a + b).
        split; [reflexivity |]. split; [lia |]. split; [reflexivity |].
        split; [apply lookup_insert_eq |]. split; [apply insert_subseteq, Hc |].
        split; [intros k Hk; apply lookup_insert_ne; lia |].
        intros _. rewrite lookup_insert_ne by lia. eauto.
      * rewrite !Hr2. cbn [exec fst snd].
        set (c2 := snd (exec (fibonacci_memo_at below (n - 2)) c)) in *.
        assert (Hfresh : c2 !! n = None) by (rewrite Hup2 by lia; exact Hc).
        right. left. exists (a + b).
        split; [reflexivity |]. split; [lia |]. split; [reflexivity |].
        split; [apply lookup_insert_eq |].
        split; [etransitivity; [exact Hsub2 | apply insert_subseteq, Hfresh] |].
        split; [intros k Hk; rewrite lookup_insert_ne by lia; apply Hup2; lia |].
        intros _. rewrite lookup_insert_ne by lia.
        exists a. eapply lookup_weaken; eassumption.
      * rewrite !Hr2. cbn [fst snd]. right. right. reflexivity.
    + (* the call on [n - 1] is a miss that returns *)
      rewrite !Hr1. cbn [fst snd]. rewrite !exec_bind.
      set (c1 := snd (exec (fibonacci_memo_at below (n - 1)) c)) in *.
      assert (Hsecond : exists b, exec (fibonacci_memo_at below (n - 2)) c1 = (Return b, c1)
                                  \/ (exec (fibonacci_memo_at below (n - 2)) c1
                                      = (Return b, <[n - 2 := b]> c1) /\ n = 2 /\
                                      c1 !! 0 = None)).
      { destruct below as [| [| below']]; [lia | lia |].
        destruct (c1 !! (n - 2)) as [b |] eqn:Hb.
        - exists b. left. apply fibonacci_memo_at_hit, Hb.
        - assert (n = 2).
          { destruct (Z.leb_spec n 2) as [|Hbig]; [lia |].
            destruct Hlow1 as [u Hu]; [lia |].
            replace (n - 1 - 1) with (n - 2) in Hu by lia. congruence. }
          subst n. exists 0. right. split; [| split; [reflexivity | exact Hb]].
          cbn [fibonacci_memo_at]. unfold lru_cache. cbn [exec]. rewrite Hb.
          reflexivity. }
      destruct Hsecond as [b [Hr2 | (Hr2 & -> & Hb)]]; rewrite !Hr2; cbn [exec fst snd].
      * assert (Hfresh : c1 !! n = None) by (rewrite Hup1 by lia; exact Hc).
        right. left. exists (a + b).
        split; [reflexivity |]. split; [lia |]. split; [reflexivity |].
        split; [apply lookup_insert_eq |].
        split; [etransitivity; [exact Hsub1 | apply insert_subseteq, Hfresh] |].
        split; [intros k Hk; rewrite lookup_insert_ne by lia; apply Hup1; lia |].
        intros _. rewrite lookup_insert_ne by lia. eauto.
      * assert (Hfresh : c1 !! 2 = None) by (rewrite Hup1 by lia; exact Hc).
        right. left. exists (a + b).
        split; [reflexivity |]. split; [lia |]. split; [reflexivity |].
        split; [apply lookup_insert_eq |].
        split.
        { etransitivity; [exact Hsub1 |]. etransitivity; [apply insert_subseteq, Hb |].
          apply insert_subseteq. rewrite lookup_insert_ne by lia. exact Hfresh. }
        split.
        { intros k Hk. rewrite !lookup_insert_ne by lia. apply Hup1. lia. }
        intros _. rewrite !lookup_insert_ne by lia. eauto.
    + rewrite !Hr1. cbn [fst snd]. right. right. reflexivity.
Qed.


Section AllowingFacts.
Variable val : Z -> Z.

Lemma ends_in_impl (P Q : outcome Z -> Prop) (p : prog) :
  (forall r, P r -> Q r) -> ends_in val P p -> ends_in val Q p.
Proof.
  intros HPQ. induction p as [r | key cont IH | key value next IH]; cbn [ends_in].
  - apply HPQ.
  - intros [Hnone Hsome]. split; apply IH; assumption.
  - intros [Hv Hnext]. split; [exact Hv | apply IH, Hnext].
Qed.

Lemma yields_ends_in (r : outcome Z) (p : prog) :
  yields val r p -> ends_in val (fun r' => r' = r) p.
Proof.
  induction p as [r' | key cont IH | key value next IH]; cbn [yields ends_in].
  - auto.
  - intros [Hnone Hsome]. split; apply IH; assumption.
  - intros [Hv Hnext]. split; [exact Hv | apply IH, Hnext].
Qed.

Lemma ends_in_bind (P Q : outcome Z -> Prop) (p : prog) (k : Z -> prog) :
  ends_in val P p ->
  (forall a, P (Return a) -> ends_in val Q (k a)) ->
  (forall e, P (Raise e) -> Q (Raise e)) ->
  ends_in val Q (bind p k).
Proof.
  intros Hp Hk He. induction p as [[a | e] | key cont IH | key value next IH];
    cbn [bind ends_in] in *.
  - apply Hk, Hp.
  - apply He, Hp.
  - destruct Hp as [Hnone Hsome]. split; apply IH; assumption.
  - destruct Hp as [Hv Hnext]. split; [exact Hv | apply IH, Hnext].
Qed.

(** A computation that ends in [P], run alone on a cache that agrees, ends
    with an outcome in [P] and leaves a cache that agrees and in which every
    old entry still stands. *)
Lemma exec_ends_in (P : outcome Z -> Prop) (p : prog) (c : gmap Z Z) :
  ends_in val P p -> agrees val c ->
  P (fst (exec p c)) /\ agrees val (snd (exec p c)) /\ c ⊆ snd (exec p c).
Proof.
  revert c. induction p as [r | key cont IH | key value next IH];
    intros c Hp Hc; cbn [ends_in exec] in *.
  - repeat split; [exact Hp | exact Hc | reflexivity].
  - destruct Hp as [Hnone Hsome].
    destruct (agrees_lookup val c key Hc) as [Hk | Hk]; rewrite Hk; apply IH; assumption.
  - destruct Hp as [-> Hnext].
    destruct (IH (<[key := val key]> c) Hnext (agrees_insert val c key Hc))
      as (Hr & Hs & Hsub).
    repeat split; [exact Hr | exact Hs |].
    etransitivity; [apply agrees_insert_subseteq, Hc | exact Hsub].
Qed.
End AllowingFacts.

(** Whatever its room and whatever the lookups find in a sound cache, a call
    of the memoized function returns the value of the naive function or
    raises [RecursionError], and it stores values of the naive function
    only. *)
Lemma fibonacci_memo_at_ends (depth : nat) (n : Z) :
  ends_in fibonacci_naive (value_or_overflow n) (fibonacci_memo_at depth n).
Proof.
  revert n. induction depth as [depth IH] using lt_wf_ind. intros n.
  destruct depth as [| [| below]]; cbn [fibonacci_memo_at].
  - right. reflexivity.
  - unfold lru_cache. cbn [ends_in bind]. split; [right | left]; reflexivity.
  - unfold lru_cache. cbn [ends_in]. split; [| left; reflexivity].
    destruct (Z.leb_spec n 1) as [Hle | Hgt].
    + cbn [bind ends_in]. unfold value_or_overflow.
      rewrite (fibonacci_naive_base n Hle). auto.
    + apply (ends_in_bind _ (fun r => r = Return (fibonacci_naive n) \/ r = Raise RecursionError)).
      * apply (ends_in_bind _ (value_or_overflow (n - 1))); [apply IH; lia | |].
        -- intros a [[= ->] | Ha]; [| discriminate].
           apply (ends_in_bind _ (value_or_overflow (n - 2))); [apply IH; lia | |].
           ++ intros b [[= ->] | Hb]; [| discriminate]. cbn [ends_in]. left.
              rewrite (fibonacci_naive_step n) by lia. reflexivity.
           ++ intros e [He | He]; [discriminate | right; exact He].
        -- intros e [He | He]; [discriminate | right; exact He].
      * intros a [[= ->] | Ha]; [| discriminate]. cbn [ends_in].
        split; [reflexivity | left; reflexivity].
      * intros e [He | He]; [discriminate | right; exact He].
Qed.


Lemma naive_room_step (n : Z) :
  1 < n -> naive_room n = S (naive_room (n - 1)).
Proof.
  intros Hn. unfold naive_room.
  destruct (Z.leb_spec n 1); destruct (Z.leb_spec (n - 1) 1); lia.
Qed.

(** A first call that is short of room: on a cache that holds no key up to
    [n] it raises, after one miss for every two frames it had. *)
Lemma fibonacci_memo_at_short (depth : nat) (n : Z) (c : gmap Z Z) (info : cache_info) :
  (depth < memo_room n)%nat -> (forall k, k <= n -> c !! k = None) ->
  exec (fibonacci_memo_at depth n) c = (Raise RecursionError, c) /\
  exec_info (fibonacci_memo_at depth n) c info =
    {| hits := hits info; misses := (Nat.div2 (S depth) + misses info)%nat |}.
Proof.
  revert n info. induction depth as [depth IH] using lt_wf_ind. intros n info Hd Hc.
  destruct depth as [| [| below]]; cbn [fibonacci_memo_at].
  - cbn [exec exec_info Nat.div2]. split; [reflexivity | now destruct info].
  - unfold lru_cache. cbn [exec exec_info]. rewrite (Hc n) by lia.
    cbn [bind exec exec_info Nat.div2]. split; reflexivity.
  - unfold lru_cache. cbn [exec exec_info]. rewrite (Hc n) by lia.
    assert (Hn : 1 < n).
    { unfold memo_room, naive_room in Hd. destruct (Z.leb_spec n 1); lia. }
    destruct (Z.leb_spec n 1) as [Hle | _]; [lia |].
    destruct (IH below ltac:(lia) (n - 1) {| hits := hits info; misses := S (misses info) |})
      as [Hr Hi].
    { unfold memo_room in *. rewrite (naive_room_step n Hn) in Hd. lia. }
    { intros k Hk. apply Hc. lia. }
    rewrite !exec_bind, !exec_info_bind, !exec_bind, !Hr. cbn [fst snd].
    rewrite Hi. cbn [hits misses Nat.div2].
    split; [reflexivity | f_equal; lia].
Qed.

(** * A pool sees its worker through the inputs only *)

Section Extensional.
Variables fn fn' : Z -> prog.
Variable scope : nat -> nat.
Variable numbers : list Z.
Hypothesis same : forall x, x ∈ numbers -> fn x = fn' x.

Lemma submitted_insert (p : pool) (i : nat) (f : future) :
  submitted numbers p ->
  match f with Pending task => task ∈ numbers | _ => True end ->
  Forall (fun f => match f with Pending task => task ∈ numbers | _ => True end)
         (<[i := f]> (futures p)).
Proof. intros Hp Hf. apply Forall_insert; assumption. Qed.

Lemma step_ext (i : nat) (p : pool) :
  submitted numbers p ->
  step fn scope i p = step fn' scope i p /\ submitted numbers (step fn scope i p).
Proof.
  intros Hp. unfold step.
  destruct (futures p !! i) as [f |] eqn:Hf; [| split; [reflexivity | exact Hp]].
  pose proof (Forall_lookup_1 _ _ _ _ Hp Hf) as Hin.
  destruct f as [task | [r | key cont | key value next] | r |]; cbn in Hin;
    try (split; [reflexivity | exact Hp]).
  - rewrite (same task Hin). split; [reflexivity |].
    apply submitted_insert; [exact Hp | exact I].
  - split; [reflexivity |]. apply submitted_insert; [exact Hp | exact I].
  - split; [reflexivity |]. apply submitted_insert; [exact Hp | exact I].
  - split; [reflexivity |]. apply submitted_insert; [exact Hp | exact I].
Qed.

Lemma interleave_ext (sched : list nat) (p : pool) :
  submitted numbers p ->
  interleave fn scope sched p = interleave fn' scope sched p /\
  submitted numbers (interleave fn scope sched p).
Proof.
  revert p. induction sched as [| i sched IH]; intros p Hp; cbn.
  - split; [reflexivity | exact Hp].
  - destruct (step_ext i p Hp) as [<- Hp']. apply IH, Hp'.
Qed.

Lemma wait_ext (i : nat) (p : pool) :
  submitted numbers p ->
  wait fn scope i p = wait fn' scope i p /\ submitted numbers (wait fn scope i p).
Proof.
  intros Hp. unfold wait.
  destruct (futures p !! i) as [f |] eqn:Hf; [| split; [reflexivity | exact Hp]].
  pose proof (Forall_lookup_1 _ _ _ _ Hp Hf) as Hin.
  destruct f as [task | q | r |]; cbn in Hin; try (split; [reflexivity | exact Hp]).
  - rewrite (same task Hin). split; [reflexivity |].
    apply submitted_insert; [exact Hp | exact I].
  - split; [reflexivity |]. apply submitted_insert; [exact Hp | exact I].
Qed.

Lemma cancel_pending_submitted (p : pool) :
  submitted numbers p -> submitted numbers (cancel_pending p).
Proof.
  intros Hp. unfold submitted, cancel_pending. cbn [futures].
  apply Forall_fmap. eapply Forall_impl; [exact Hp |].
  intros [task | q | r |]; cbn; auto.
Qed.

Lemma result_iterator_ext (count i : nat) (p : pool) :
  submitted numbers p ->
  result_iterator fn scope i count p = result_iterator fn' scope i count p /\
  submitted numbers (snd (result_iterator fn scope i count p)).
Proof.
  revert i p. induction count as [| count IH]; intros i p Hp; cbn [result_iterator].
  - split; [reflexivity | exact Hp].
  - destruct (wait_ext i p Hp) as [<- Hp1].
    destruct (futures (wait fn scope i p) !! i) as [[task | q | [v | e] |] |];
      cbn [snd]; try (split; [reflexivity | exact Hp1]).
    + destruct (IH (S i) _ Hp1) as [<- Hp2]. split; [reflexivity | exact Hp2].
    + split; [reflexivity | apply cancel_pending_submitted, Hp1].
Qed.

Lemma waits_ext (indices : list nat) (p : pool) :
  submitted numbers p ->
  foldl (fun q i => wait fn scope i q) p indices =
  foldl (fun q i => wait fn' scope i q) p indices.
Proof.
  revert p. induction indices as [| i indices IH]; intros p Hp; cbn [foldl].
  - reflexivity.
  - destruct (wait_ext i p Hp) as [<- Hp1]. apply IH, Hp1.
Qed.

(** Two workers that run the same computation on every input give the same
    run of the pool. *)
Lemma run_pool_ext (sched : list nat) (caches : nat -> gmap Z Z) :
  run_pool fn scope sched numbers caches = run_pool fn' scope sched numbers caches.
Proof.
  unfold run_pool.
  assert (H0 : submitted numbers (submit numbers caches)).
  { unfold submitted, submit. cbn [futures]. apply Forall_fmap, Forall_forall.
    intros x Hx. exact Hx. }
  destruct (interleave_ext sched _ H0) as [<- H1].
  destruct (result_iterator_ext (length numbers) 0 _ H1) as [<- H2].
  unfold shutdown. rewrite (waits_ext _ _ H2). reflexivity.
Qed.
End Extensional.

(** * Pools whose workers can fail *)

Section CoherentFacts.
Variable val : Z -> Z.
Variable fn : Z -> prog.
Variable scope : nat -> nat.
Variable allowed : Z -> outcome Z -> Prop.
Hypothesis fn_ends : forall x, ends_in val (allowed x) (fn x).

Lemma follows_insert (numbers : list Z) (fs : list future) (i : nat) (x : Z) (f : future) :
  Forall2 (follows val allowed) numbers fs -> numbers !! i = Some x ->
  follows val allowed x f ->
  Forall2 (follows val allowed) numbers (<[i := f]> fs).
Proof.
  intros Hall Hx Hf. rewrite <- (list_insert_id numbers i x Hx).
  apply Forall2_insert; assumption.
Qed.

Lemma follows_lookup (numbers : list Z) (fs : list future) (i : nat) (f : future) :
  Forall2 (follows val allowed) numbers fs -> fs !! i = Some f ->
  exists x, numbers !! i = Some x /\ follows val allowed x f.
Proof.
  intros Hall Hf. destruct (Forall2_lookup_r _ _ _ _ _ Hall Hf) as (x & Hx & Ht).
  exists x. split; assumption.
Qed.

Lemma settle_coherent (numbers : list Z) (p : pool) (i : nat) (x : Z) (q : prog) :
  coherent val allowed numbers p -> numbers !! i = Some x -> ends_in val (allowed x) q ->
  let p' := settle (scope i) i (exec q (spaces p (scope i))) p in
  coherent val allowed numbers p' /\ grows p p' /\
  exists r, allowed x r /\ futures p' = <[i := Finished r]> (futures p).
Proof.
  intros [Hfs Hsp] Hx Hq.
  destruct (exec_ends_in val _ q (spaces p (scope i)) Hq (Hsp _)) as (Hr & Hs & Hsub).
  cbn zeta. unfold settle. split; [split |]; [| | split]; cbn [futures spaces].
  - eapply follows_insert; [exact Hfs | exact Hx | exact Hr].
  - apply set_space_agrees; assumption.
  - intros s. apply set_space_grows, Hsub.
  - eexists. split; [exact Hr | reflexivity].
Qed.

Lemma step_coherent (numbers : list Z) (i : nat) (p : pool) :
  coherent val allowed numbers p ->
  coherent val allowed numbers (step fn scope i p) /\ grows p (step fn scope i p).
Proof.
  intros [Hfs Hsp]. unfold step.
  destruct (futures p !! i) as [f |] eqn:Hf; [| split; [split; assumption | apply grows_refl]].
  destruct (follows_lookup _ _ _ _ Hfs Hf) as (x & Hx & Ht).
  destruct f as [task | q | r |]; cbn [follows] in Ht;
    try (split; [split; assumption | apply grows_refl]).
  - subst task. split; [split |]; cbn [futures spaces].
    + eapply follows_insert; [exact Hfs | exact Hx | apply fn_ends].
    + exact Hsp.
    + intros s. reflexivity.
  - destruct q as [r | key cont | key value next]; cbn [ends_in] in Ht.
    + split; [split |]; cbn [futures spaces].
      * eapply follows_insert; [exact Hfs | exact Hx | exact Ht].
      * exact Hsp.
      * intros s. reflexivity.
    + destruct Ht as [Hnone Hsome]. split; [split |]; cbn [futures spaces].
      * eapply follows_insert; [exact Hfs | exact Hx |]. cbn [follows].
        destruct (agrees_lookup val _ key (Hsp (scope i))) as [Hk | Hk]; rewrite Hk; assumption.
      * exact Hsp.
      * intros s. reflexivity.
    + destruct Ht as [-> Hnext]. split; [split |]; cbn [futures spaces].
      * eapply follows_insert; [exact Hfs | exact Hx | exact Hnext].
      * apply set_space_agrees; [apply agrees_insert, Hsp | exact Hsp].
      * intros s. apply set_space_grows, agrees_insert_subseteq, Hsp.
Qed.

Lemma interleave_coherent (numbers : list Z) (sched : list nat) (p : pool) :
  coherent val allowed numbers p ->
  coherent val allowed numbers (interleave fn scope sched p) /\
  grows p (interleave fn scope sched p).
Proof.
  revert p. induction sched as [| i sched IH]; intros p Hp; cbn.
  - split; [exact Hp | apply grows_refl].
  - destruct (step_coherent numbers i p Hp) as [Hp' Hg].
    destruct (IH _ Hp') as [Hp'' Hg'].
    split; [exact Hp'' | eapply grows_trans; eassumption].
Qed.

(** After the wait the future of a live task is done, with an outcome that
    the call of its task can end with. *)
Lemma wait_coherent (numbers : list Z) (i : nat) (p : pool) (x : Z) :
  coherent val allowed numbers p -> Forall live (futures p) -> numbers !! i = Some x ->
  coherent val allowed numbers (wait fn scope i p) /\ grows p (wait fn scope i p) /\
  exists r, allowed x r /\ futures (wait fn scope i p) = <[i := Finished r]> (futures p).
Proof.
  intros Hp Hl Hx. pose proof Hp as [Hfs Hsp]. unfold wait.
  destruct (futures p !! i) as [f |] eqn:Hf.
  - destruct (follows_lookup _ _ _ _ Hfs Hf) as (x' & Hx' & Ht).
    assert (x' = x) by congruence. subst x'.
    destruct f as [task | q | r |]; cbn [follows] in Ht.
    + subst task. apply (settle_coherent numbers p i x (fn x) Hp Hx (fn_ends x)).
    + apply (settle_coherent numbers p i x q Hp Hx Ht).
    + split; [exact Hp |]. split; [apply grows_refl |].
      exists r. split; [exact Ht |]. symmetry. apply list_insert_id, Hf.
    + exfalso. eapply (proj1 (Forall_lookup _ _) Hl i); [exact Hf | reflexivity].
  - apply lookup_ge_None in Hf. apply lookup_lt_Some in Hx.
    rewrite <- (Forall2_length _ _ _ Hfs) in Hf. lia.
Qed.

Lemma wait_keeps (numbers : list Z) (i : nat) (p : pool) :
  coherent val allowed numbers p ->
  coherent val allowed numbers (wait fn scope i p) /\ grows p (wait fn scope i p).
Proof.
  intros Hp. pose proof Hp as [Hfs Hsp]. unfold wait.
  destruct (futures p !! i) as [f |] eqn:Hf; [| split; [exact Hp | apply grows_refl]].
  destruct (follows_lookup _ _ _ _ Hfs Hf) as (x & Hx & Ht).
  destruct f as [task | q | r |]; cbn [follows] in Ht;
    try (split; [exact Hp | apply grows_refl]).
  - subst task.
    destruct (settle_coherent numbers p i x (fn x) Hp Hx (fn_ends x)) as (H1 & H2 & _).
    split; assumption.
  - destruct (settle_coherent numbers p i x q Hp Hx Ht) as (H1 & H2 & _).
    split; assumption.
Qed.

Lemma cancel_pending_coherent (numbers : list Z) (p : pool) :
  coherent val allowed numbers p ->
  coherent val allowed numbers (cancel_pending p) /\ grows p (cancel_pending p).
Proof.
  intros [Hfs Hsp]. split; [split |]; cbn [cancel_pending futures spaces].
  - apply Forall2_fmap_r. eapply Forall2_impl; [exact Hfs |].
    intros x [task | q | r |]; simpl; auto.
  - exact Hsp.
  - intros s. reflexivity.
Qed.

(** What the iterator gives: a list holds, for each input in order, a value
    that the call of that input can return; an exception is one that the
    call of some input can raise. *)
Lemma result_iterator_allowed (numbers : list Z) (count i : nat) (p : pool) :
  coherent val allowed numbers p -> Forall live (futures p) ->
  (i + count = length numbers)%nat ->
  (forall vs, fst (result_iterator fn scope i count p) = Return vs ->
     Forall2 (fun x v => allowed x (Return v)) (drop i numbers) vs) /\
  (forall e, fst (result_iterator fn scope i count p) = Raise e ->
     exists x, x ∈ numbers /\ allowed x (Raise e)) /\
  coherent val allowed numbers (snd (result_iterator fn scope i count p)) /\
  grows p (snd (result_iterator fn scope i count p)).
Proof.
  revert i p. induction count as [| count IH]; intros i p Hp Hl Hlen.
  - cbn [result_iterator fst snd]. rewrite drop_ge by lia.
    split; [| split; [| split; [exact Hp | apply grows_refl]]].
    + intros vs [= <-]. constructor.
    + intros e He. discriminate.
  - destruct (lookup_lt_is_Some_2 numbers i ltac:(lia)) as [x Hx].
    rewrite (drop_S _ _ _ Hx). cbn [result_iterator].
    destruct (wait_coherent numbers i p x Hp Hl Hx) as (Hp1 & Hg1 & r & Hr & Hfin).
    assert (Hl1 : Forall live (futures (wait fn scope i p))).
    { rewrite Hfin. apply Forall_insert; [exact Hl | discriminate]. }
    assert (Hi : futures (wait fn scope i p) !! i = Some (Finished r)).
    { rewrite Hfin. apply list_lookup_insert_eq.
      apply lookup_lt_Some in Hx.
      rewrite <- (Forall2_length _ _ _ (proj1 Hp)). exact Hx. }
    rewrite Hi. destruct r as [v | e]; cbn [fst snd].
    + destruct (IH (S i) _ Hp1 Hl1 ltac:(lia)) as (Hvs & He & Hc & Hg).
      split; [| split; [| split; [exact Hc | eapply grows_trans; eassumption]]].
      * intros vs Hres.
        destruct (fst (result_iterator fn scope (S i) count (wait fn scope i p)))
          as [ws | e'] eqn:Hrest; cbn [outcome_bind] in Hres; [| discriminate].
        injection Hres as <-. constructor; [exact Hr | apply Hvs; reflexivity].
      * intros e Hres.
        destruct (fst (result_iterator fn scope (S i) count (wait fn scope i p)))
          as [ws | e'] eqn:Hrest; cbn [outcome_bind] in Hres; [discriminate |].
        injection Hres as <-. apply He. reflexivity.
    + destruct (cancel_pending_coherent numbers _ Hp1) as [Hc Hg].
      split; [| split; [| split; [exact Hc | eapply grows_trans; eassumption]]].
      * intros vs Hres. discriminate.
      * intros e' [= <-]. exists x. split; [| exact Hr].
        eapply list_elem_of_lookup_2, Hx.
Qed.

Lemma waits_coherent (numbers : list Z) (indices : list nat) (p : pool) :
  coherent val allowed numbers p ->
  coherent val allowed numbers (foldl (fun q i => wait fn scope i q) p indices) /\
  grows p (foldl (fun q i => wait fn scope i q) p indices).
Proof.
  revert p. induction indices as [| i indices IH]; intros p Hp; cbn [foldl].
  - split; [exact Hp | apply grows_refl].
  - destruct (wait_keeps numbers i p Hp) as [Hp1 Hg1].
    destruct (IH _ Hp1) as [Hp2 Hg2].
    split; [exact Hp2 | eapply grows_trans; eassumption].
Qed.

(** The whole [with] block, for workers that can fail: for every
    interleaving, a result list holds for each input, in order, a value that
    the call of that input can return; an exception is one that the call of
    some input can raise; the caches still agree with [val] and have lost or
    changed no entry. *)
Lemma run_pool_allowed (sched : list nat) (numbers : list Z) (caches : nat -> gmap Z Z) :
  (forall s, agrees val (caches s)) ->
  (forall vs, fst (run_pool fn scope sched numbers caches) = Return vs ->
     Forall2 (fun x v => allowed x (Return v)) numbers vs) /\
  (forall e, fst (run_pool fn scope sched numbers caches) = Raise e ->
     exists x, x ∈ numbers /\ allowed x (Raise e)) /\
  (forall s, agrees val (spaces (snd (run_pool fn scope sched numbers caches)) s)) /\
  (forall s, caches s ⊆ spaces (snd (run_pool fn scope sched numbers caches)) s).
Proof.
  intros Hc. unfold run_pool. cbn [fst snd].
  assert (H0 : coherent val allowed numbers (submit numbers caches)).
  { split; cbn [submit futures spaces]; [| exact Hc].
    apply Forall2_fmap_r, Forall_Forall2_diag, Forall_forall. reflexivity. }
  assert (Hl0 : Forall live (futures (submit numbers caches))).
  { cbn [submit futures]. apply Forall_fmap, Forall_forall. discriminate. }
  destruct (interleave_coherent numbers sched _ H0) as [H1 Hg1].
  pose proof (interleave_live fn scope sched _ Hl0) as Hl1.
  destruct (result_iterator_allowed numbers (length numbers) 0 _ H1 Hl1 eq_refl)
    as (Hvs & He & H2 & Hg2).
  destruct (waits_coherent numbers (seq 0 (length (futures
              (snd (result_iterator fn scope 0 (length numbers)
                      (interleave fn scope sched (submit numbers caches))))))) _ H2)
    as [H3 Hg3].
  rewrite drop_0 in Hvs. split; [exact Hvs |]. split; [exact He |]. split.
  - apply H3.
  - intros s. etransitivity; [apply (Hg1 s) |].
    etransitivity; [apply (Hg2 s) | apply (Hg3 s)].
Qed.
End CoherentFacts.

(** * A pool with one task *)

Section Single.
Variable fn : Z -> prog.
Variable scope : nat -> nat.
Variable n : Z.
Variable caches : nat -> gmap Z Z.




End Single.

(** * The strategies under a limit on the call depth *)

Lemma naive_worker_at_enough (limit : nat) (x : Z) :
  (naive_room x <= limit)%nat -> call (fibonacci_naive_at limit) x = naive_worker x.
Proof.
  intros Hx. unfold naive_worker, call. rewrite fibonacci_naive_at_room.
  destruct (Nat.leb_spec (naive_room x) limit); [reflexivity | lia].
Qed.

Lemma fibonacci_worker_at_enough (limit : nat) (x : Z) :
  (naive_room x <= limit)%nat ->
  call (fibonacci_at limit) x = call (fun n => Return (fibonacci n)) x.
Proof.
  intros Hx. unfold call. rewrite fibonacci_at_is_naive_at, fibonacci_naive_at_room.
  destruct (Nat.leb_spec (naive_room x) limit); [| lia].
  rewrite fibonacci_is_naive. reflexivity.
Qed.

Lemma memo_room_naive_room (n : Z) : (naive_room n <= memo_room n)%nat.
Proof. unfold memo_room. lia. Qed.

(** When every input has room, a run under the limit is the run on an
    unbounded stack. *)
Lemma memo_at_runs_enough (limit : nat) (h : host) (numbers : list Z) (w : world) :
  Forall (fun x => (memo_room x <= limit)%nat) numbers ->
  thread_pool_run (fibonacci_memo_at limit) h numbers w =
    thread_pool_run fibonacci_memo h numbers w /\
  process_pool_run (fibonacci_memo_at limit) h numbers w =
    process_pool_run fibonacci_memo h numbers w /\
  multi_threaded_fibonacci_memo_at limit h numbers w =
    multi_threaded_fibonacci_memo h numbers w /\
  multi_process_fibonacci_memo_at limit h numbers w =
    multi_process_fibonacci_memo h numbers w.
Proof.
  intros Hfit. rewrite Forall_forall in Hfit.
  assert (Hsame : forall x, x ∈ numbers -> fibonacci_memo_at limit x = fibonacci_memo x).
  { intros x Hx. apply fibonacci_memo_at_enough, Hfit, Hx. }
  assert (Ht : forall w', thread_pool_run (fibonacci_memo_at limit) h numbers w' =
                          thread_pool_run fibonacci_memo h numbers w').
  { intros w'. unfold thread_pool_run. apply run_pool_ext, Hsame. }
  assert (Hp : forall w', process_pool_run (fibonacci_memo_at limit) h numbers w' =
                          process_pool_run fibonacci_memo h numbers w').
  { intros w'. unfold process_pool_run. apply run_pool_ext, Hsame. }
  split; [apply Ht |]. split; [apply Hp |]. split.
  - unfold multi_threaded_fibonacci_memo_at, multi_threaded_fibonacci_memo, measure_time,
      thread_pool_map. cbn [time_time]. rewrite Ht. reflexivity.
  - unfold multi_process_fibonacci_memo_at, multi_process_fibonacci_memo, measure_time,
      process_pool_map. cbn [time_time]. rewrite Hp. reflexivity.
Qed.

Lemma naive_at_runs_enough (limit : nat) (h : host) (numbers : list Z) (w : world) :
  Forall (fun x => (naive_room x <= limit)%nat) numbers ->
  thread_pool_run (call (fibonacci_at limit)) h numbers w =
    thread_pool_run (call (fun n => Return (fibonacci n))) h numbers w /\
  process_pool_run (call (fibonacci_at limit)) h numbers w =
    process_pool_run (call (fun n => Return (fibonacci n))) h numbers w /\
  thread_pool_run (call (fibonacci_naive_at limit)) h numbers w =
    thread_pool_run naive_worker h numbers w /\
  process_pool_run (call (fibonacci_naive_at limit)) h numbers w =
    process_pool_run naive_worker h numbers w.
Proof.
  intros Hfit. rewrite Forall_forall in Hfit.
  unfold thread_pool_run, process_pool_run.
  split; [| split; [| split]]; apply run_pool_ext; intros x Hx.
  - apply fibonacci_worker_at_enough, Hfit, Hx.
  - apply fibonacci_worker_at_enough, Hfit, Hx.
  - apply naive_worker_at_enough, Hfit, Hx.
  - apply naive_worker_at_enough, Hfit, Hx.
Qed.

Lemma values_or_overflow (numbers vs : list Z) :
  Forall2 (fun x v => value_or_overflow x (Return v)) numbers vs ->
  vs = map fibonacci_naive numbers.
Proof.
  induction 1 as [| x v numbers vs [[= ->] | Hv] _ IH]; [reflexivity | | discriminate].
  cbn [map]. rewrite IH. reflexivity.
Qed.

(** The memoized workers under a limit, for every list, host and limit: a
    run that returns gives the values of the naive function in the order of
    the inputs, a run that fails raises [RecursionError], and the caches stay
    sound and lose no entry. *)
Lemma memo_at_pool (limit : nat) (scope : nat -> nat) (sched : list nat)
    (numbers : list Z) (caches : nat -> gmap Z Z) :
  (forall s, sound (caches s)) ->
  let r := run_pool (fibonacci_memo_at limit) scope sched numbers caches in
  (forall vs, fst r = Return vs -> vs = map fibonacci_naive numbers) /\
  (forall e, fst r = Raise e -> e = RecursionError) /\
  (forall s, sound (spaces (snd r) s)) /\
  (forall s, caches s ⊆ spaces (snd r) s).
Proof.
  intros Hc. cbv zeta.
  destruct (run_pool_allowed fibonacci_naive (fibonacci_memo_at limit) scope
              value_or_overflow (fibonacci_memo_at_ends limit) sched numbers caches Hc)
    as (Hvs & He & Hs & Hg).
  split; [| split; [| split; [exact Hs | exact Hg]]].
  - intros vs Hr. apply values_or_overflow, Hvs, Hr.
  - intros e Hr. destruct (He e Hr) as (x & _ & [Hx | Hx]); [discriminate |].
    injection Hx as ->. reflexivity.
Qed.

Lemma memo_at_strategies (limit : nat) (h : host) (numbers : list Z) (w : world) :
  sound (memo w) ->
  (forall vs, fst (multi_threaded_fibonacci_memo_at limit h numbers w) = Return vs ->
     vs = map fibonacci_naive numbers) /\
  (forall vs, fst (multi_process_fibonacci_memo_at limit h numbers w) = Return vs ->
     vs = map fibonacci_naive numbers) /\
  (forall e, fst (multi_threaded_fibonacci_memo_at limit h numbers w) = Raise e ->
     e = RecursionError) /\
  (forall e, fst (multi_process_fibonacci_memo_at limit h numbers w) = Raise e ->
     e = RecursionError) /\
  sound (memo (snd (multi_threaded_fibonacci_memo_at limit h numbers w))) /\
  memo w ⊆ memo (snd (multi_threaded_fibonacci_memo_at limit h numbers w)) /\
  memo (snd (multi_process_fibonacci_memo_at limit h numbers w)) = memo w.
Proof.
  intros Hw.
  destruct (memo_at_pool limit (fun _ => 0%nat) (schedule h) numbers (fun _ => memo w)
              (fun _ => Hw)) as (Htv & Hte & Hts & Htg).
  assert (Hcaches : forall s : nat, sound (if forked h then memo w else ∅)).
  { intros _. destruct (forked h); [exact Hw | apply sound_empty]. }
  destruct (memo_at_pool limit (worker_of h) (schedule h) numbers _ Hcaches)
    as (Hpv & Hpe & _ & _).
  unfold multi_threaded_fibonacci_memo_at, multi_process_fibonacci_memo_at.
  rewrite !measure_time_result, !measure_time_memo.
  unfold thread_pool_map, process_pool_map, thread_pool_run, process_pool_run.
  cbn [fst snd time_time memo set_memo].
  repeat split; try assumption.
  - apply Hts.
  - apply (Htg 0%nat).
Qed.


(** * The claims on runs under a limit on the call depth *)

Lemma comprehension_at_room (limit : nat) (numbers : list Z) :
  comprehension (map (fibonacci_naive_at limit) numbers) =
  if forallb (fun n => (naive_room n <=? limit)%nat) numbers
  then Return (map fibonacci_naive numbers)
  else Raise RecursionError.
Proof.
  induction numbers as [| n numbers IH]; cbn [map comprehension forallb].
  - reflexivity.
  - rewrite fibonacci_naive_at_room, IH.
    destruct (naive_room n <=? limit)%nat; cbn [andb outcome_bind]; [| reflexivity].
    destruct (forallb _ numbers); reflexivity.
Qed.

Lemma comprehension_fibonacci_at (limit : nat) (numbers : list Z) :
  comprehension (map (fibonacci_at limit) numbers) =
  if forallb (fun n => (naive_room n <=? limit)%nat) numbers
  then Return (map fibonacci numbers)
  else Raise RecursionError.
Proof.
  rewrite (map_ext _ (fibonacci_naive_at limit)) by (intros n; apply fibonacci_at_is_naive_at).
  rewrite comprehension_at_room.
  rewrite (map_ext fibonacci fibonacci_naive) by (intros n; apply fibonacci_is_naive).
  reflexivity.
Qed.

Lemma forallb_room (room : Z -> nat) (limit : nat) (numbers : list Z) :
  forallb (fun n => (room n <=? limit)%nat) numbers = true <->
  Forall (fun n => (room n <= limit)%nat) numbers.
Proof.
  rewrite forallb_forall, Forall_forall. split; intros H x Hx.
  - apply Nat.leb_le, H, list_elem_of_In, Hx.
  - apply Nat.leb_le, H, list_elem_of_In, Hx.
Qed.

Lemma forallb_short (room : Z -> nat) (limit : nat) (numbers : list Z) :
  forallb (fun n => (room n <=? limit)%nat) numbers = false ->
  exists j y, numbers !! j = Some y /\ (limit < room y)%nat.
Proof.
  induction numbers as [| n numbers IH]; cbn [forallb]; [discriminate |].
  destruct (Nat.leb_spec (room n) limit) as [_ | Hn]; cbn [andb].
  - intros H. destruct (IH H) as (j & y & Hy & Hroom). exists (S j), y. auto.
  - intros _. exists 0%nat, n. auto.
Qed.



(** C1: for every input list, every interleaving of the workers, every
    assignment of futures to worker processes and every room that the call
    of a worker has, the list that a strategy returns holds the values of
    the compute function over the inputs, in the order of the inputs: the
    result at index [i] is the value at the [i]-th input.  A naive strategy
    ends as the comprehension over the same calls does; a strategy that does
    not return a list raises [RecursionError]; and each strategy returns the
    list when every input has the room that its call needs. *)
Theorem results_follow_input_order (limit : nat) (h : host) (numbers : list Z) (w : world) :
  sound (memo w) ->
  (fst (multi_threaded_fibonacci_naive_at limit h numbers w) =
     comprehension (map (fibonacci_naive_at limit) numbers) /\
   fst (multi_process_fibonacci_naive_at limit h numbers w) =
     comprehension (map (fibonacci_naive_at limit) numbers)) /\
  (forall results,
     fst (multi_threaded_fibonacci_naive_at limit h numbers w) = Return results \/
     fst (multi_process_fibonacci_naive_at limit h numbers w) = Return results \/
     fst (multi_threaded_fibonacci_memo_at limit h numbers w) = Return results \/
     fst (multi_process_fibonacci_memo_at limit h numbers w) = Return results ->
     results = map fibonacci_naive numbers /\
     forall i x, numbers !! i = Some x -> results !! i = Some (fibonacci_naive x)) /\
  (forall e,
     fst (multi_threaded_fibonacci_naive_at limit h numbers w) = Raise e \/
     fst (multi_process_fibonacci_naive_at limit h numbers w) = Raise e \/
     fst (multi_threaded_fibonacci_memo_at limit h numbers w) = Raise e \/
     fst (multi_process_fibonacci_memo_at limit h numbers w) = Raise e ->
     e = RecursionError) /\
  (Forall (fun x => (naive_room x <= limit)%nat) numbers ->
     fst (multi_threaded_fibonacci_naive_at limit h numbers w) =
       Return (map fibonacci_naive numbers) /\
     fst (multi_process_fibonacci_naive_at limit h numbers w) =
       Return (map fibonacci_naive numbers)) /\
  (Forall (fun x => (memo_room x <= limit)%nat) numbers ->
     fst (multi_threaded_fibonacci_memo_at limit h numbers w) =
       Return (map fibonacci_naive numbers) /\
     fst (multi_process_fibonacci_memo_at limit h numbers w) =
       Return (map fibonacci_naive numbers)).
Proof.
  intros Hw.
  assert (Hnaive :
            fst (multi_threaded_fibonacci_naive_at limit h numbers w) =
              comprehension (map (fibonacci_naive_at limit) numbers) /\
            fst (multi_process_fibonacci_naive_at limit h numbers w) =
              comprehension (map (fibonacci_naive_at limit) numbers)).
  { unfold multi_threaded_fibonacci_naive_at, multi_process_fibonacci_naive_at.
    rewrite !measure_time_result, process_pool_map_call, thread_pool_map_call.
    split; reflexivity. }
  destruct Hnaive as [Htn Hpn].
  destruct (memo_at_strategies limit h numbers w Hw) as (Htv & Hpv & Hte & Hpe & _).
  pose proof (comprehension_at_room limit numbers) as Hcomp.
  split; [split; assumption |]. split; [| split; [| split]].
  - intros results Hres.
    assert (Hval : results = map fibonacci_naive numbers).
    { destruct Hres as [Hres | [Hres | [Hres | Hres]]].
      - rewrite Htn, Hcomp in Hres. destruct (forallb _ numbers); congruence.
      - rewrite Hpn, Hcomp in Hres. destruct (forallb _ numbers); congruence.
      - apply Htv, Hres.
      - apply Hpv, Hres. }
    split; [exact Hval |]. intros i x Hx. rewrite Hval, list_lookup_fmap, Hx. reflexivity.
  - intros e [He | [He | [He | He]]].
    + rewrite Htn, Hcomp in He. destruct (forallb _ numbers); congruence.
    + rewrite Hpn, Hcomp in He. destruct (forallb _ numbers); congruence.
    + apply Hte, He.
    + apply Hpe, He.
  - intros Hfit. apply forallb_room in Hfit. rewrite Htn, Hpn, Hcomp, Hfit.
    split; reflexivity.
  - intros Hfit.
    destruct (memo_at_runs_enough limit h numbers w Hfit) as (_ & _ & -> & ->).
    apply memo_strategies_return, Hw.
Qed.

Lemma results_follow_input_order_witness :
  fst (multi_threaded_fibonacci_memo_at 10 last_first [3; 4; 5] boot) = Return [2; 3; 5] /\
  fst (multi_process_fibonacci_naive_at 10 last_first [3; 4; 5] boot) = Return [2; 3; 5] /\
  completed (snd (thread_pool_run (call (fibonacci_naive_at 10)) last_first [3; 4; 5] boot))
  = [2; 1; 0]%nat.
Proof.
  destruct (results_follow_input_order 10 last_first [3; 4; 5] boot sound_empty)
    as (_ & _ & _ & Hn & Hm).
  destruct Hn as [_ Hn]; [repeat constructor |].
  destruct Hm as [Hm _]; [repeat constructor |].
  split; [exact Hm | split; [exact Hn | reflexivity]].
Defined.

Lemma naive_room_limit (limit : nat) (y : Z) :
  (1 <= limit)%nat -> (naive_room y <= limit)%nat <-> y <= Z.of_nat limit.
Proof.
  intros Hl. unfold naive_room. destruct (Z.leb_spec y 1); lia.
Qed.

(** C4, as the code has it: an input list that holds a negative integer is
    not rejected for it.  Nothing checks the inputs before dispatch: a
    negative input [x] is computed as any other, in one frame, and is mapped
    to [x] itself; the run ends as the comprehension over the calls does; if
    it fails, it is with the [RecursionError] of a task whose input exceeds
    the room of a call, not with an error about the negative input; and when
    no input exceeds that room, every task is dispatched to a worker and
    computed, and the run returns the full result list. *)
Theorem negative_input_is_computed (limit : nat) (h : host) (numbers : list Z) (w : world)
    (i : nat) (x : Z) :
  numbers !! i = Some x -> x < 0 -> (1 <= limit)%nat ->
  fibonacci_at limit x = Return x /\
  fst (multi_threaded_fibonacci_at limit h numbers w) =
    comprehension (map (fibonacci_at limit) numbers) /\
  fst (multi_process_fibonacci_at limit h numbers w) =
    comprehension (map (fibonacci_at limit) numbers) /\
  (forall e, comprehension (map (fibonacci_at limit) numbers) = Raise e ->
     e = RecursionError /\
     exists j y, numbers !! j = Some y /\ Z.of_nat limit < y /\
                 fibonacci_at limit y = Raise RecursionError) /\
  (Forall (fun y => y <= Z.of_nat limit) numbers ->
     fst (multi_threaded_fibonacci_at limit h numbers w) = Return (map fibonacci numbers) /\
     fst (multi_process_fibonacci_at limit h numbers w) = Return (map fibonacci numbers) /\
     map fibonacci numbers !! i = Some x /\
     futures (snd (thread_pool_run (call (fibonacci_at limit)) h numbers w)) =
       map (fun n => Finished (Return (fibonacci n))) numbers /\
     futures (snd (process_pool_run (call (fibonacci_at limit)) h numbers w)) =
       map (fun n => Finished (Return (fibonacci n))) numbers /\
     completed (snd (thread_pool_run (call (fibonacci_at limit)) h numbers w))
       ≡ₚ seq 0 (length numbers) /\
     completed (snd (process_pool_run (call (fibonacci_at limit)) h numbers w))
       ≡ₚ seq 0 (length numbers)).
Proof.
  intros Hx Hneg Hl.
  assert (Ht : fst (multi_threaded_fibonacci_at limit h numbers w) =
               comprehension (map (fibonacci_at limit) numbers)).
  { unfold multi_threaded_fibonacci_at. rewrite measure_time_result.
    apply thread_pool_map_call. }
  assert (Hp : fst (multi_process_fibonacci_at limit h numbers w) =
               comprehension (map (fibonacci_at limit) numbers)).
  { unfold multi_process_fibonacci_at.
    rewrite measure_time_result, process_pool_map_call. reflexivity. }
  pose proof (comprehension_fibonacci_at limit numbers) as Hcomp.
  split; [| split; [exact Ht | split; [exact Hp | split]]].
  - rewrite fibonacci_at_is_naive_at, fibonacci_naive_at_enough by lia.
    rewrite fibonacci_naive_base by lia. reflexivity.
  - intros e He. rewrite Hcomp in He.
    destruct (forallb _ numbers) eqn:Hfit; [discriminate |]. injection He as <-.
    split; [reflexivity |].
    destruct (forallb_short naive_room limit numbers Hfit) as (j & y & Hy & Hroom).
    exists j, y. split; [exact Hy |].
    assert (Hbig : Z.of_nat limit < y).
    { destruct (Z.ltb_spec (Z.of_nat limit) y) as [| Hle]; [assumption |].
      apply (naive_room_limit limit y Hl) in Hle. lia. }
    split; [exact Hbig |].
    rewrite fibonacci_at_is_naive_at. apply fibonacci_naive_at_short; lia.
  - intros Hfit.
    assert (Hroom : Forall (fun y => (naive_room y <= limit)%nat) numbers).
    { eapply Forall_impl; [exact Hfit |]. intros y Hy. apply naive_room_limit; assumption. }
    destruct (naive_at_runs_enough limit h numbers w Hroom) as (-> & -> & _).
    apply forallb_room in Hroom. rewrite Ht, Hp, Hcomp, Hroom.
    split; [reflexivity |]. split; [reflexivity |].
    split; [| apply fibonacci_strategies_dispatch].
    rewrite list_lookup_fmap, Hx. cbn.
    rewrite fibonacci_is_naive, fibonacci_naive_base by lia. reflexivity.
Qed.

Lemma negative_input_is_computed_witness :
  fst (multi_threaded_fibonacci_at 4 last_first [3; -1; 4] boot) = Return [2; -1; 3] /\
  fibonacci_at 4 (-1) = Return (-1).
Proof.
  destruct (negative_input_is_computed 4 last_first [3; -1; 4] boot 1 (-1))
    as (Hone & _ & _ & _ & Hall); [reflexivity | lia | lia |].
  destruct Hall as (Ht & _); [repeat constructor; lia |].
  split; [exact Ht | exact Hone].
Defined.



(** X3: memoization makes a first call linear, in time and in frames.  Called
    on [n >= 2] with an empty cache, [fibonacci_memo] needs two frames for
    each of the [n] nested calls.  With that room it leaves a cache that holds
    the keys 0..n and no other, each with its Fibonacci value, [n + 1] entries
    in all, and the wrapper has counted [n + 1] misses and [n - 2] hits.  With
    less room it raises [RecursionError] and leaves the cache empty, and the
    wrapper has counted no hit and one miss for every two frames it had. *)
Theorem memo_first_call_is_linear (depth : nat) (n : Z) :
  2 <= n ->
  memo_room n = (2 * Z.to_nat n)%nat /\
  ((memo_room n <= depth)%nat ->
     fst (exec (fibonacci_memo_at depth n) ∅) = Return (fibonacci_naive n) /\
     (forall k, snd (exec (fibonacci_memo_at depth n) ∅) !! k =
                if decide (0 <= k <= n) then Some (fibonacci_naive k) else None) /\
     size (snd (exec (fibonacci_memo_at depth n) ∅)) = Z.to_nat (n + 1) /\
     exec_info (fibonacci_memo_at depth n) ∅ {| hits := 0; misses := 0 |} =
       {| hits := Z.to_nat (n - 2); misses := Z.to_nat (n + 1) |}) /\
  ((depth < memo_room n)%nat ->
     exec (fibonacci_memo_at depth n) ∅ = (Raise RecursionError, ∅) /\
     exec_info (fibonacci_memo_at depth n) ∅ {| hits := 0; misses := 0 |} =
       {| hits := 0; misses := Nat.div2 (S depth) |}).
Proof.
  intros Hn. split; [| split].
  - unfold memo_room, naive_room. destruct (Z.leb_spec n 1); lia.
  - intros Hroom. rewrite (fibonacci_memo_at_enough depth n Hroom).
    destruct (cold_call n {| hits := 0; misses := 0 |} Hn) as [Hfull Hinfo].
    split; [| split; [exact Hfull | split]].
    + apply (exec_yields fibonacci_naive _ _ ∅ (fibonacci_memo_yields n) sound_empty).
    + apply warm_prefix_size; [lia | exact Hfull].
    + rewrite Hinfo. cbn [hits misses]. f_equal; lia.
  - intros Hshort.
    destruct (fibonacci_memo_at_short depth n ∅ {| hits := 0; misses := 0 |} Hshort)
      as [Hr Hi]; [intros k _; apply lookup_empty |].
    split; [exact Hr |]. rewrite Hi. cbn [hits misses]. f_equal. lia.
Qed.

Lemma memo_first_call_is_linear_witness :
  size (snd (exec (fibonacci_memo_at 60 30) ∅)) = 31%nat /\
  exec_info (fibonacci_memo_at 60 30) ∅ {| hits := 0; misses := 0 |} =
    {| hits := 28; misses := 31 |} /\
  exec_info (fibonacci_memo_at 999 600) ∅ {| hits := 0; misses := 0 |} =
    {| hits := 0; misses := 500 |}.
Proof.
  destruct (memo_first_call_is_linear 60 30 ltac:(lia)) as (_ & Hfits & _).
  destruct Hfits as (_ & _ & Hsize & Hinfo); [vm_compute; lia |].
  destruct (memo_first_call_is_linear 999 600 ltac:(lia)) as (_ & _ & Hshort).
  destruct Hshort as [_ Hmisses]; [vm_compute; lia |].
  split; [exact Hsize | split; [exact Hinfo | exact Hmisses]].
Defined.

(** X4: a call of [fibonacci_memo] on any cache at all, sound or not, with
    room for any number of frames.  Either the call returns a value and
    leaves it stored under its key, keeps every entry the cache had and
    touches no key above its argument, and a call repeated right after is
    one hit that returns the same value; or the call raises [RecursionError]
    and leaves the cache exactly as it found it.  It returns when it has the
    room of a first call.  A key that is in the cache is answered with the
    stored value, whatever it is, by one hit, with no miss and no change of
    the cache, as soon as there is one frame for the wrapper; with no frame
    at all the call raises. *)
Theorem memo_call_on_any_cache (depth : nat) (n : Z) (c : gmap Z Z) (info : cache_info) :
  let r := exec (fibonacci_memo_at depth n) c in
  ((exists v,
      fst r = Return v /\
      snd r !! n = Some v /\
      c ⊆ snd r /\
      (forall k, n < k -> snd r !! k = c !! k) /\
      exec (fibonacci_memo_at depth n) (snd r) = (Return v, snd r) /\
      exec_info (fibonacci_memo_at depth n) (snd r) info =
        {| hits := S (hits info); misses := misses info |}) \/
   r = (Raise RecursionError, c)) /\
  ((memo_room n <= depth)%nat -> exists v, fst r = Return v) /\
  (forall v, c !! n = Some v -> (1 <= depth)%nat ->
     r = (Return v, c) /\
     exec_info (fibonacci_memo_at depth n) c info =
       {| hits := S (hits info); misses := misses info |}) /\
  (depth = 0%nat -> r = (Raise RecursionError, c)).
Proof.
  cbv zeta. split; [| split; [| split]].
  - destruct (fibonacci_memo_at_call depth n c)
      as [(v & Hc & Hd & Hr) | [(v & _ & Hd & Hr & Hs & Hsub & Hup & _) | Hr]].
    + left. exists v. rewrite Hr. cbn [fst snd].
      destruct depth as [| depth]; [lia |].
      split; [reflexivity |]. split; [exact Hc |]. split; [reflexivity |].
      split; [reflexivity |]. split; [exact Hr |].
      apply (fibonacci_memo_at_hit_info depth n v c info Hc).
    + left. exists v. destruct depth as [| depth]; [lia |].
      split; [exact Hr |]. split; [exact Hs |]. split; [exact Hsub |].
      split; [exact Hup |]. split.
      * apply fibonacci_memo_at_hit, Hs.
      * eapply fibonacci_memo_at_hit_info, Hs.
    + right. exact Hr.
  - intros Hroom. rewrite (fibonacci_memo_at_enough depth n Hroom).
    destruct (fibonacci_memo_call n c) as (v & Hv & _). exists v. exact Hv.
  - intros v Hc Hd. destruct depth as [| depth]; [lia |]. split.
    + apply fibonacci_memo_at_hit, Hc.
    + eapply fibonacci_memo_at_hit_info, Hc.
  - intros ->. reflexivity.
Qed.

(** X5: the strategies whose workers use no cache, in full, when a call has
    room for [limit] frames.  On every host and in every world, if every
    input has the room that its call needs, the strategy returns the values
    of its function over the inputs, and the main process has read the clock
    twice and printed one line, under the name of the strategy, with the
    difference of the two readings; if an input has not, the strategy raises
    [RecursionError], and the main process has read the clock once and
    printed nothing.  The cache of the main process is left as it was. *)
Theorem naive_strategies_in_full (limit : nat) (h : host) (numbers : list Z) (w : world) :
  let fits := forallb (fun n => (naive_room n <=? limit)%nat) numbers in
  multi_threaded_fibonacci_at limit h numbers w =
    (if fits
     then (Return (map fibonacci numbers),
           timed "multi_threaded_fibonacci" w (snd (time_time w)))
     else (Raise RecursionError, snd (time_time w))) /\
  multi_process_fibonacci_at limit h numbers w =
    (if fits
     then (Return (map fibonacci numbers),
           timed "multi_process_fibonacci" w (snd (time_time w)))
     else (Raise RecursionError, snd (time_time w))) /\
  multi_threaded_fibonacci_naive_at limit h numbers w =
    (if fits
     then (Return (map fibonacci_naive numbers),
           timed "multi_threaded_fibonacci_naive" w (snd (time_time w)))
     else (Raise RecursionError, snd (time_time w))) /\
  multi_process_fibonacci_naive_at limit h numbers w =
    (if fits
     then (Return (map fibonacci_naive numbers),
           timed "multi_process_fibonacci_naive" w (snd (time_time w)))
     else (Raise RecursionError, snd (time_time w))) /\
  (forall func_name,
     timed func_name w (snd (time_time w)) =
     {| clock := clock w;
        reads := S (S (reads w));
        stdout := stdout w ++
                  [Took func_name (PrimFloat.sub (clock w (S (reads w))) (clock w (reads w)))];
        memo := memo w |}) /\
  snd (time_time w) =
    {| clock := clock w; reads := S (reads w); stdout := stdout w; memo := memo w |}.
Proof.
  cbv zeta.
  unfold multi_threaded_fibonacci_at, multi_process_fibonacci_at,
    multi_threaded_fibonacci_naive_at, multi_process_fibonacci_naive_at.
  split; [| split; [| split; [| split; [| split]]]].
  - destruct (cache_free_strategy_outcome "multi_threaded_fibonacci"
                (fibonacci_at limit) h numbers w) as [-> _].
    rewrite comprehension_fibonacci_at. destruct (forallb _ numbers); reflexivity.
  - destruct (cache_free_strategy_outcome "multi_process_fibonacci"
                (fibonacci_at limit) h numbers w) as [_ ->].
    rewrite comprehension_fibonacci_at. destruct (forallb _ numbers); reflexivity.
  - destruct (cache_free_strategy_outcome "multi_threaded_fibonacci_naive"
                (fibonacci_naive_at limit) h numbers w) as [-> _].
    rewrite comprehension_at_room. destruct (forallb _ numbers); reflexivity.
  - destruct (cache_free_strategy_outcome "multi_process_fibonacci_naive"
                (fibonacci_naive_at limit) h numbers w) as [_ ->].
    rewrite comprehension_at_room. destruct (forallb _ numbers); reflexivity.
  - intros func_name. reflexivity.
  - reflexivity.
Qed.

(** X6: the memoized strategies, in full, when a call has room for [limit]
    frames and the cache of the main process is sound.  Whatever the room, a
    run of the thread pool leaves the cache of the main process sound and
    with every entry it had, and a run of the process pool leaves it
    untouched.  When every input has the room of a first call, a run of the
    thread pool returns the values, reads the clock twice, prints one line
    under its own name and leaves every input of the run as a key of the
    cache: the next call on one of them is a hit.  A run of the process pool
    then returns the same values and leaves the main process as a naive run
    does; each input is a key of the cache of the worker process that served
    it. *)
Theorem memo_strategies_in_full (limit : nat) (h : host) (numbers : list Z) (w : world) :
  sound (memo w) ->
  sound (memo (snd (multi_threaded_fibonacci_memo_at limit h numbers w))) /\
  memo w ⊆ memo (snd (multi_threaded_fibonacci_memo_at limit h numbers w)) /\
  memo (snd (multi_process_fibonacci_memo_at limit h numbers w)) = memo w /\
  (Forall (fun x => (memo_room x <= limit)%nat) numbers ->
     (exists c,
        multi_threaded_fibonacci_memo_at limit h numbers w =
          (Return (map fibonacci_naive numbers),
           timed "multi_threaded_fibonacci_memo" w (set_memo c (snd (time_time w)))) /\
        sound c /\
        memo w ⊆ c /\
        (forall x, x ∈ numbers -> c !! x = Some (fibonacci_naive x))) /\
     multi_process_fibonacci_memo_at limit h numbers w =
       (Return (map fibonacci_naive numbers),
        timed "multi_process_fibonacci_memo" w (snd (time_time w))) /\
     (forall i x, numbers !! i = Some x ->
        spaces (snd (process_pool_run (fibonacci_memo_at limit) h numbers w)) (worker_of h i)
          !! x = Some (fibonacci_naive x))).
Proof.
  intros Hw.
  destruct (memo_at_strategies limit h numbers w Hw) as (_ & _ & _ & _ & Hs & Hg & Hp).
  split; [exact Hs |]. split; [exact Hg |]. split; [exact Hp |].
  intros Hfit.
  destruct (memo_at_runs_enough limit h numbers w Hfit) as (_ & -> & -> & ->).
  split; [apply thread_memo_strategy, Hw |].
  split; [apply process_memo_strategy, Hw |].
  intros i x Hi. unfold process_pool_run.
  apply (run_pool_warms fibonacci_naive fibonacci_memo (worker_of h)
           (fun y => Return (fibonacci_naive y)) fibonacci_memo_yields
           fibonacci_memo_stores (schedule h) numbers _ i x); [| | exact Hi].
  - intros _. destruct (forked h); [exact Hw | apply sound_empty].
  - intros y _. eexists. reflexivity.
Qed.

Lemma memo_strategies_in_full_witness :
  multi_process_fibonacci_memo_at 10 last_first [3; 4; 5] boot =
    (Return [2; 3; 5], timed "multi_process_fibonacci_memo" boot (snd (time_time boot))).
Proof.
  destruct (memo_strategies_in_full 10 last_first [3; 4; 5] boot sound_empty)
    as (_ & _ & _ & Hfit).
  destruct Hfit as (_ & Hp & _); [repeat constructor |].
  exact Hp.
Defined.


(** * The main programs *)

Lemma fib_numbers_values :
  map fibonacci_naive fib_numbers = [9227465; 14930352; 24157817; 39088169] /\
  map fibonacci fib_numbers = [9227465; 14930352; 24157817; 39088169].
Proof.
  assert (Hn : map fibonacci_naive fib_numbers = [9227465; 14930352; 24157817; 39088169]).
  { unfold fib_numbers. cbn [map].
    rewrite <- !closed_form_is_naive by lia. vm_compute. reflexivity. }
  split; [exact Hn |]. rewrite <- Hn. apply map_ext. intros n. apply fibonacci_is_naive.
Qed.

(** A decorated call that returns, seen from a main program: its one line
    appears on the terminal. *)
Lemma run_timed {A : Type} (m : M A) (t : terminal) (a : A) (func_name : string)
    (after : world) :
  m (process t) = (Return a, timed func_name (process t) after) ->
  stdout after = stdout (process t) ->
  run m t =
  (Return a,
   {| process := timed func_name (process t) after;
      screen := screen t ++
                [Timing (Took func_name
                           (PrimFloat.sub (clock after (reads after))
                              (clock (process t) (reads (process t)))))] |}).
Proof.
  intros Hm Hout. unfold run. rewrite Hm. cbn [fst snd timed stdout].
  rewrite Hout, drop_app_length. reflexivity.
Qed.

(** X7: [main] of [concu_vs_parall.py], in full.  On every pair of hosts the
    program prints its first header, the timing line of the thread pool, the
    four results 9227465, 14930352, 24157817, 39088169 in input order, then
    the second header, the timing line of the process pool and the same four
    results; it reads the clock four times and leaves the cache untouched. *)
Theorem main_prints_both_results (h1 h2 : host) (t : terminal) :
  let w := process t in
  ConcuVsParall.main h1 h2 t =
  (Return tt,
   {| process :=
        {| clock := clock w;
           reads := 4 + reads w;
           stdout := stdout w ++
             [Took "multi_threaded_fibonacci"
                (PrimFloat.sub (clock w (1 + reads w)%nat) (clock w (reads w)));
              Took "multi_process_fibonacci"
                (PrimFloat.sub (clock w (3 + reads w)%nat) (clock w (2 + reads w)%nat))];
           memo := memo w |};
      screen := screen t ++
        [Text "=== Multi-Threading Demo ===";
         Timing (Took "multi_threaded_fibonacci"
                   (PrimFloat.sub (clock w (1 + reads w)%nat) (clock w (reads w))));
         Values "Thread Results:" [9227465; 14930352; 24157817; 39088169];
         Text (after_blank_line "=== Multi-Processing Demo ===");
         Timing (Took "multi_process_fibonacci"
                   (PrimFloat.sub (clock w (3 + reads w)%nat) (clock w (2 + reads w)%nat)));
         Values "Process Results:" [9227465; 14930352; 24157817; 39088169]] |}).
Proof.
  cbv zeta. destruct fib_numbers_values as [_ Hvals].
  unfold ConcuVsParall.main, then_ at 1. cbn [say].
  set (t1 := {| process := process t;
                screen := screen t ++ [Text "=== Multi-Threading Demo ==="] |}).
  unfold then_ at 1.
  rewrite (run_timed (multi_threaded_fibonacci h1 fib_numbers) t1
             (map fibonacci fib_numbers) "multi_threaded_fibonacci" (snd (time_time (process t1)))).
  2:{ unfold multi_threaded_fibonacci.
      destruct (cache_free_strategy_outcome "multi_threaded_fibonacci"
                  (fun n => Return (fibonacci n)) h1 fib_numbers (process t1)) as [-> _].
      rewrite comprehension_returns. reflexivity. }
  2:{ reflexivity. }
  unfold then_ at 1. cbn [show]. unfold then_ at 1. cbn [say].
  unfold then_ at 1.
  match goal with |- context [run _ ?t2] => set (t3 := t2) end.
  rewrite (run_timed (multi_process_fibonacci h2 fib_numbers) t3
             (map fibonacci fib_numbers) "multi_process_fibonacci" (snd (time_time (process t3)))).
  2:{ unfold multi_process_fibonacci.
      destruct (cache_free_strategy_outcome "multi_process_fibonacci"
                  (fun n => Return (fibonacci n)) h2 fib_numbers (process t3)) as [_ ->].
      rewrite comprehension_returns. reflexivity. }
  2:{ reflexivity. }
  subst t3 t1. rewrite !Hvals. unfold show, timed.
  cbn [process screen time_time fst snd clock reads stdout memo].
  rewrite <- !app_assoc. reflexivity.
Qed.

(** X8: [main] of [concu_vs_parall_with_patters.py], in full.  From a sound
    cache and on all hosts the program prints, for each of its four runs in
    turn, the header, the timing line and the same four results 9227465,
    14930352, 24157817, 39088169; it reads the clock eight times; and it
    leaves the cache of the main process sound, with every entry it had and
    with the four inputs as keys, which the memoized run of the thread pool
    stored. *)
Theorem main_with_patterns_prints_four_results (h1 h2 h3 h4 : host) (t : terminal) :
  let w := process t in
  let values := [9227465; 14930352; 24157817; 39088169] in
  let elapsed k := PrimFloat.sub (clock w (S k + reads w)%nat) (clock w (k + reads w)%nat) in
  sound (memo w) ->
  exists c,
    ConcuVsParallWithPatterns.main h1 h2 h3 h4 t =
    (Return tt,
     {| process :=
          {| clock := clock w;
             reads := 8 + reads w;
             stdout := stdout w ++
               [Took "multi_threaded_fibonacci_naive" (elapsed 0%nat);
                Took "multi_threaded_fibonacci_memo" (elapsed 2%nat);
                Took "multi_process_fibonacci_naive" (elapsed 4%nat);
                Took "multi_process_fibonacci_memo" (elapsed 6%nat)];
             memo := c |};
        screen := screen t ++
          [Text "=== Multi-Threading with Naive Fibonacci ===";
           Timing (Took "multi_threaded_fibonacci_naive" (elapsed 0%nat));
           Values "Thread Results (Naive):" values;
           Text (after_blank_line "=== Multi-Threading with Memoized Fibonacci ===");
           Timing (Took "multi_threaded_fibonacci_memo" (elapsed 2%nat));
           Values "Thread Results (Memo):" values;
           Text (after_blank_line "=== Multi-Processing with Naive Fibonacci ===");
           Timing (Took "multi_process_fibonacci_naive" (elapsed 4%nat));
           Values "Process Results (Naive):" values;
           Text (after_blank_line "=== Multi-Processing with Memoized Fibonacci ===");
           Timing (Took "multi_process_fibonacci_memo" (elapsed 6%nat));
           Values "Process Results (Memo):" values] |}) /\
    sound c /\
    memo w ⊆ c /\
    (forall x, x ∈ fib_numbers -> c !! x = Some (fibonacci_naive x)).
Proof.
  destruct t as [[k r out c0] scr]. cbv zeta. cbn [process memo clock reads stdout screen].
  intros Hw. destruct fib_numbers_values as [Hvals _].
  destruct (thread_memo_strategy h2 fib_numbers
              {| clock := k; reads := S (S r);
                 stdout := out ++ [Took "multi_threaded_fibonacci_naive"
                                     (PrimFloat.sub (k (S r)) (k r))];
                 memo := c0 |} Hw) as (c & Hrun2 & Hc & Hsub & Hin).
  exists c. split; [| split; [exact Hc | split; [exact Hsub | exact Hin]]].
  unfold ConcuVsParallWithPatterns.main, then_ at 1. cbn [say process screen].
  unfold then_ at 1.
  match goal with |- context [run _ ?t0] => set (t1 := t0) end.
  rewrite (run_timed (multi_threaded_fibonacci_naive h1 fib_numbers) t1
             (map fibonacci_naive fib_numbers) "multi_threaded_fibonacci_naive"
             (snd (time_time (process t1)))).
  2:{ unfold multi_threaded_fibonacci_naive, naive_worker.
      destruct (cache_free_strategy_outcome "multi_threaded_fibonacci_naive"
                  (fun n => Return (fibonacci_naive n)) h1 fib_numbers (process t1)) as [-> _].
      rewrite comprehension_returns. reflexivity. }
  2:{ reflexivity. }
  subst t1. unfold timed. cbn [process screen time_time fst snd clock reads stdout memo].
  rewrite Hvals.
  unfold then_ at 1. unfold show at 1. cbn [process screen].
  unfold then_ at 1. unfold say at 1. cbn [process screen].
  unfold then_ at 1.
  match goal with |- context [run _ ?t0] => set (t1 := t0) end.
  rewrite (run_timed (multi_threaded_fibonacci_memo h2 fib_numbers) t1
             (map fibonacci_naive fib_numbers) "multi_threaded_fibonacci_memo"
             (set_memo c (snd (time_time (process t1))))).
  2:{ exact Hrun2. }
  2:{ reflexivity. }
  subst t1. unfold timed, set_memo.
  cbn [process screen time_time fst snd clock reads stdout memo].
  rewrite Hvals.
  unfold then_ at 1. unfold show at 1. cbn [process screen].
  unfold then_ at 1. unfold say at 1. cbn [process screen].
  unfold then_ at 1.
  match goal with |- context [run _ ?t0] => set (t1 := t0) end.
  rewrite (run_timed (multi_process_fibonacci_naive h3 fib_numbers) t1
             (map fibonacci_naive fib_numbers) "multi_process_fibonacci_naive"
             (snd (time_time (process t1)))).
  2:{ unfold multi_process_fibonacci_naive, naive_worker.
      destruct (cache_free_strategy_outcome "multi_process_fibonacci_naive"
                  (fun n => Return (fibonacci_naive n)) h3 fib_numbers (process t1)) as [_ ->].
      rewrite comprehension_returns. reflexivity. }
  2:{ reflexivity. }
  subst t1. unfold timed. cbn [process screen time_time fst snd clock reads stdout memo].
  rewrite Hvals.
  unfold then_ at 1. unfold show at 1. cbn [process screen].
  unfold then_ at 1. unfold say at 1. cbn [process screen].
  unfold then_ at 1.
  match goal with |- context [run _ ?t0] => set (t1 := t0) end.
  rewrite (run_timed (multi_process_fibonacci_memo h4 fib_numbers) t1
             (map fibonacci_naive fib_numbers) "multi_process_fibonacci_memo"
             (snd (time_time (process t1)))).
  2:{ apply process_memo_strategy. exact Hc. }
  2:{ reflexivity. }
  subst t1. unfold timed, show.
  cbn [process screen time_time fst snd clock reads stdout memo].
  rewrite Hvals, <- !app_assoc. reflexivity.
Qed.

Lemma main_with_patterns_prints_four_results_witness :
  exists c : gmap Z Z,
    fst (ConcuVsParallWithPatterns.main in_turn last_first last_first in_turn (blank boot)) =
      Return tt /\
    c !! 38 = Some (fibonacci_naive 38).
Proof.
  destruct (main_with_patterns_prints_four_results
              in_turn last_first last_first in_turn (blank boot) sound_empty)
    as (c & Hmain & _ & _ & Hin).
  exists c. split.
  - rewrite Hmain. reflexivity.
  - apply Hin. apply list_elem_of_In. unfold fib_numbers. simpl. tauto.
Defined.

(** * The drawing application: strokes, undo and redo *)

Section DrawFacts.

Import Draw.

Lemma pop_app {A : Type} (l : list A) (x : A) : pop (l ++ [x]) = Some (x, l).
Proof.
  unfold pop. rewrite rev_app_distr. simpl. now rewrite rev_involutive.
Qed.

Lemma pop_Some {A : Type} (l r : list A) (x : A) :
  pop l = Some (x, r) -> l = r ++ [x].
Proof.
  unfold pop. intros H. destruct (rev l) as [|z t] eqn:E; [discriminate|].
  injection H as -> <-.
  rewrite <- (rev_involutive l), E. reflexivity.
Qed.

Lemma pop_None {A : Type} (l : list A) : pop l = None -> l = [].
Proof.
  unfold pop. intros H. destruct (rev l) as [|z t] eqn:E; [|discriminate].
  rewrite <- (rev_involutive l), E. reflexivity.
Qed.

Lemma item_itemconfig (c : Canvas) (s : item_state) (i j : nat) :
  item (itemconfig i s c) j =
  if decide (j = i) then configure s <$> item c j else item c j.
Proof.
  destruct j as [|j]; simpl.
  - destruct (decide (O = i)); reflexivity.
  - destruct i as [|i]; simpl.
    + destruct (decide (S j = O)); [lia | reflexivity].
    + destruct (decide (S j = S i)) as [E|E].
      * injection E as ->. apply list_lookup_alter_eq.
      * apply list_lookup_alter_ne. congruence.
Qed.

Lemma configure_twice (s s' : item_state) (o : option line_item) :
  configure s <$> (configure s' <$> o) = configure s <$> o.
Proof. destruct o; reflexivity. Qed.

Lemma item_itemconfig_each (stroke : list nat) (s : item_state) (c : Canvas) (j : nat) :
  item (itemconfig_each stroke s c) j =
  if decide (j ∈ stroke) then configure s <$> item c j else item c j.
Proof.
  unfold itemconfig_each. revert c.
  induction stroke as [|i stroke IH]; intros c; simpl.
  - destruct (decide (j ∈ [])) as [H|H]; [inversion H | reflexivity].
  - rewrite IH, item_itemconfig.
    destruct (decide (j ∈ stroke)) as [H1|H1];
      destruct (decide (j = i)) as [H2|H2];
      destruct (decide (j ∈ i :: stroke)) as [H3|H3];
      rewrite ?configure_twice; try reflexivity;
      exfalso; apply H3 || (apply H2; inversion H3; subst; tauto);
      subst; auto using list_elem_of_here, list_elem_of_further.
Qed.

Lemma length_itemconfig_each (stroke : list nat) (s : item_state) (c : Canvas) :
  length (itemconfig_each stroke s c) = length c.
Proof.
  unfold itemconfig_each. revert c.
  induction stroke as [|i stroke IH]; intros c; simpl; [reflexivity|].
  rewrite IH. destruct i; simpl; [reflexivity | apply length_alter].
Qed.

Lemma canvas_eq (c c' : Canvas) :
  (forall j, item c j = item c' j) -> c = c'.
Proof.
  intros H. apply list_eq. intros i. apply (H (S i)).
Qed.


Lemma item_bound (c : Canvas) (j : nat) :
  is_Some (item c j) -> (1 <= j <= length c)%nat.
Proof.
  destruct j as [|j]; simpl; intros [l H]; [discriminate|].
  apply lookup_lt_Some in H. lia.
Qed.

Lemma item_create_old (c : Canvas) (l : line_item) (j : nat) :
  is_Some (item c j) -> item (c ++ [l]) j = item c j.
Proof.
  destruct j as [|j]; simpl; intros [l' H]; [discriminate|].
  apply lookup_app_l. now apply lookup_lt_Some in H.
Qed.

Lemma item_create_new (c : Canvas) (l : line_item) :
  item (c ++ [l]) (S (length c)) = Some l.
Proof.
  unfold item. now apply list_lookup_middle.
Qed.

Lemma concat_snoc {A : Type} (ls : list (list A)) (l : list A) :
  concat (ls ++ [l]) = concat ls ++ l.
Proof. rewrite concat_app. simpl. now rewrite app_nil_r. Qed.

(** Every id that a stack or the stroke in progress holds names an item. *)
Lemma stacked_held (self : DrawingApp) (j : nat) :
  stacked self -> j ∈ held self -> is_Some (item (canvas self) j).
Proof.
  intros [_ Hu Hc Hr _] Hj. unfold held in Hj.
  rewrite Forall_forall in Hu, Hc, Hr. unfold shows in *.
  rewrite !elem_of_app in Hj. destruct Hj as [Hj|[Hj|Hj]].
  - specialize (Hu _ Hj). destruct (item (canvas self) j); [eauto | discriminate].
  - specialize (Hr _ Hj). destruct (item (canvas self) j); [eauto | discriminate].
  - specialize (Hc _ Hj). destruct (item (canvas self) j); [eauto | discriminate].
Qed.

Lemma stacked_init : stacked __init__.
Proof.
  split; simpl; try apply Forall_nil_2. apply NoDup_nil_2.
Qed.

Lemma on_button_press_stacked (event : Event) (self : DrawingApp) :
  stacked self -> stacked (on_button_press event self).
Proof.
  intros [Hn Hu Hc Hr Hs]. split; simpl; auto.
  unfold held in *. simpl. rewrite app_nil_r.
  rewrite app_assoc in Hn. now apply NoDup_app in Hn as [Hn _].
Qed.

Lemma draw_stacked (event : Event) (self : DrawingApp) :
  stacked self -> stacked (draw event self).
Proof.
  intros Hself. pose proof (stacked_held self) as Hheld.
  destruct Hself as [Hn Hu Hc Hr Hs].
  unfold draw. destruct (last_x self) as [lx|]; [destruct (last_y self) as [ly|]|];
    try (split; assumption).
  simpl. set (new := {| coords := (lx, ly, x event, y event); state := unset |}).
  assert (Hfresh : S (length (canvas self)) ∉ held self).
  { intros Hin. apply Hheld in Hin; [| split; assumption].
    apply item_bound in Hin. lia. }
  assert (Hold : forall j, j ∈ held self ->
                 item (canvas self ++ [new]) j = item (canvas self) j).
  { intros j Hj. apply item_create_old, Hheld; [split; assumption | exact Hj]. }
  unfold held in *. split; simpl.
  - unfold held. simpl. rewrite !app_assoc. apply NoDup_app. split; [| split].
    + now rewrite <- !app_assoc.
    + intros j Hj Hj'. apply list_elem_of_singleton in Hj'. subst j.
      apply Hfresh. now rewrite <- !app_assoc in Hj.
    + apply NoDup_singleton.
  - rewrite Forall_forall in *. intros j Hj. unfold shows.
    rewrite Hold; [now apply Hu |]. rewrite !elem_of_app. auto.
  - apply Forall_app. split.
    + rewrite Forall_forall in *. intros j Hj. unfold shows.
      rewrite Hold; [now apply Hc |]. rewrite !elem_of_app. auto.
    + apply Forall_singleton. unfold shows. now rewrite item_create_new.
  - rewrite Forall_forall in *. intros j Hj.
    rewrite Hold; [now apply Hr |]. rewrite !elem_of_app. auto.
  - exact Hs.
Qed.

Lemma on_button_release_stacked (event : Event) (self : DrawingApp) :
  stacked self -> stacked (on_button_release event self).
Proof.
  intros [Hn Hu Hc Hr Hs]. unfold held in Hn.
  apply NoDup_app in Hn as (Hn1 & Hn2 & Hn3).
  apply NoDup_app in Hn3 as (Hn3 & Hn4 & Hn5).
  apply Forall_app in Hs as [Hs1 Hs2].
  unfold on_button_release.
  destruct (current_stroke_item_ids self) as [|i stroke] eqn:E.
  - split; simpl; auto.
    + unfold held. simpl. now rewrite !app_nil_r.
    + now rewrite app_nil_r.
  - split; simpl; auto; try rewrite concat_snoc.
    + unfold held. simpl. rewrite concat_snoc, !app_nil_r.
      apply NoDup_app. split; [assumption | split; [| assumption]].
      intros j Hj Hj'. apply (Hn2 j Hj). apply elem_of_app. now right.
    + apply Forall_app. now split.
    + rewrite app_nil_r. apply Forall_app. split; [assumption|].
      now apply Forall_singleton.
Qed.

Lemma NoDup_perm {A : Type} (l k : list A) : l ≡ₚ k -> NoDup l -> NoDup k.
Proof. intros P H. now rewrite <- P. Qed.

Lemma undo_stacked (self : DrawingApp) : stacked self -> stacked (undo self).
Proof.
  intros Hself. unfold undo.
  destruct (pop (undo_stack self)) as [[stroke rest]|] eqn:E; [| exact Hself].
  apply pop_Some in E. destruct Hself as [Hn Hu Hc Hr Hs].
  set (others := concat rest ++ concat (redo_stack self) ++ current_stroke_item_ids self).
  assert (P : held self ≡ₚ stroke ++ others).
  { unfold held, others. rewrite E, concat_snoc. solve_Permutation. }
  assert (Hd : forall j, j ∈ stroke -> j ∈ others -> False).
  { apply (NoDup_perm _ _ P) in Hn. apply NoDup_app in Hn as (_ & Hd & _). exact Hd. }
  rewrite E in Hu, Hs. rewrite concat_snoc in Hu.
  apply Forall_app in Hu as [Hu1 Hu2].
  apply Forall_app in Hs as [Hs1 Hs2]. apply Forall_app in Hs1 as [Hs1 Hs1'].
  rewrite Forall_forall in Hu1, Hu2, Hc, Hr.
  split; simpl.
  - apply (NoDup_perm (held self)); [| exact Hn].
    rewrite P. unfold held, others. simpl. rewrite concat_snoc. solve_Permutation.
  - rewrite Forall_forall. intros j Hj. unfold shows.
    rewrite item_itemconfig_each.
    destruct (decide (j ∈ stroke)) as [Hin|_]; [| now apply Hu1].
    destruct (Hd j Hin). unfold others. rewrite !elem_of_app. auto.
  - rewrite Forall_forall. intros j Hj. unfold shows.
    rewrite item_itemconfig_each.
    destruct (decide (j ∈ stroke)) as [Hin|_]; [| now apply Hc].
    destruct (Hd j Hin). unfold others. rewrite !elem_of_app. auto.
  - rewrite concat_snoc. apply Forall_app. split; rewrite Forall_forall; intros j Hj;
      rewrite item_itemconfig_each.
    + destruct (decide (j ∈ stroke)) as [Hin|_]; [| now apply Hr].
      destruct (Hd j Hin). unfold others. rewrite !elem_of_app. auto.
    + destruct (decide (j ∈ stroke)) as [_|Hout]; [| contradiction].
      specialize (Hu2 j Hj). unfold shows in Hu2.
      destruct (item (canvas self) j); [reflexivity | discriminate].
  - rewrite app_assoc. apply Forall_app. split; [apply Forall_app; now split | assumption].
Qed.

Lemma redo_stacked (self : DrawingApp) : stacked self -> stacked (redo self).
Proof.
  intros Hself. unfold redo.
  destruct (pop (redo_stack self)) as [[stroke rest]|] eqn:E; [| exact Hself].
  apply pop_Some in E. destruct Hself as [Hn Hu Hc Hr Hs].
  set (others := concat (undo_stack self) ++ concat rest ++ current_stroke_item_ids self).
  assert (P : held self ≡ₚ stroke ++ others).
  { unfold held, others. rewrite E, concat_snoc. solve_Permutation. }
  assert (Hd : forall j, j ∈ stroke -> j ∈ others -> False).
  { apply (NoDup_perm _ _ P) in Hn. apply NoDup_app in Hn as (_ & Hd & _). exact Hd. }
  rewrite E in Hr, Hs. rewrite concat_snoc in Hr.
  apply Forall_app in Hr as [Hr1 Hr2].
  apply Forall_app in Hs as [Hs1 Hs2]. apply Forall_app in Hs2 as [Hs2 Hs2'].
  rewrite Forall_forall in Hu, Hc, Hr1, Hr2.
  split; simpl.
  - apply (NoDup_perm (held self)); [| exact Hn].
    rewrite P. unfold held, others. simpl. rewrite concat_snoc. solve_Permutation.
  - rewrite concat_snoc. apply Forall_app. split; rewrite Forall_forall; intros j Hj;
      unfold shows; rewrite item_itemconfig_each.
    + destruct (decide (j ∈ stroke)) as [Hin|_]; [| now apply Hu].
      destruct (Hd j Hin). unfold others. rewrite !elem_of_app. auto.
    + destruct (decide (j ∈ stroke)) as [_|Hout]; [| contradiction].
      specialize (Hr2 j Hj).
      destruct (item (canvas self) j); [reflexivity | discriminate].
  - rewrite Forall_forall. intros j Hj. unfold shows.
    rewrite item_itemconfig_each.
    destruct (decide (j ∈ stroke)) as [Hin|_]; [| now apply Hc].
    destruct (Hd j Hin). unfold others. rewrite !elem_of_app. auto.
  - rewrite Forall_forall. intros j Hj. rewrite item_itemconfig_each.
    destruct (decide (j ∈ stroke)) as [Hin|_]; [| now apply Hr1].
    destruct (Hd j Hin). unfold others. rewrite !elem_of_app. auto.
  - rewrite <- app_assoc. apply Forall_app. split; [assumption|].
    apply Forall_app. split; [assumption | assumption].
Qed.

Lemma dispatch_stacked (self : DrawingApp) (b : binding) :
  stacked self -> stacked (dispatch self b).
Proof.
  destruct b; simpl.
  - apply on_button_press_stacked.
  - apply draw_stacked.
  - apply on_button_release_stacked.
  - apply undo_stacked.
  - apply redo_stacked.
  - apply redo_stacked.
Qed.

Lemma mainloop_stacked (events : list binding) (self : DrawingApp) :
  stacked self -> stacked (mainloop events self).
Proof.
  unfold mainloop. revert self.
  induction events as [|b events IH]; intros self H; simpl; [exact H|].
  apply IH, dispatch_stacked, H.
Qed.


Lemma itemconfig_each_same (stroke : list nat) (s : item_state) (c : Canvas) :
  (forall j, j ∈ stroke -> state <$> item c j = Some s) ->
  itemconfig_each stroke s c = c.
Proof.
  intros H. apply canvas_eq. intros j. rewrite item_itemconfig_each.
  destruct (decide (j ∈ stroke)) as [Hin|_]; [| reflexivity].
  specialize (H j Hin). destruct (item c j) as [[xy st]|]; [| discriminate].
  simpl in H. injection H as ->. reflexivity.
Qed.

Lemma itemconfig_each_twice (stroke : list nat) (s s' : item_state) (c : Canvas) :
  itemconfig_each stroke s (itemconfig_each stroke s' c) = itemconfig_each stroke s c.
Proof.
  apply canvas_eq. intros j. rewrite !item_itemconfig_each.
  destruct (decide (j ∈ stroke)); [apply configure_twice | reflexivity].
Qed.

Lemma picture_ext (c c' : Canvas) :
  Forall2 (fun l l' => coords l = coords l' /\ displayed l = displayed l') c c' ->
  picture c = picture c'.
Proof.
  unfold picture. induction 1 as [|l l' c c' [H1 H2] _ IH]; [reflexivity|].
  simpl. rewrite <- H2. destruct (displayed l); simpl; congruence.
Qed.

Lemma picture_itemconfig_normal (stroke : list nat) (c : Canvas) :
  (forall j, j ∈ stroke -> shows c true j) ->
  picture (itemconfig_each stroke normal c) = picture c.
Proof.
  intros H. apply picture_ext. apply Forall2_same_length_lookup. split.
  - apply length_itemconfig_each.
  - intros i l l' Hl Hl'.
    pose proof (item_itemconfig_each stroke normal c (S i)) as E. unfold item in E.
    rewrite Hl, Hl' in E.
    destruct (decide (S i ∈ stroke)) as [Hin|_].
    + specialize (H _ Hin). unfold shows, item in H. rewrite Hl' in H.
      simpl in *. injection E as ->. injection H as H. split; [reflexivity|].
      rewrite H. reflexivity.
    + injection E as ->. auto.
Qed.

Lemma picture_app (c c' : Canvas) : picture (c ++ c') = picture c ++ picture c'.
Proof. unfold picture. now rewrite List.filter_app, map_app. Qed.

Lemma nonempty_pop {A : Type} (l : list A) :
  l <> [] -> exists x r, l = r ++ [x].
Proof.
  intros H. destruct (pop l) as [[x r]|] eqn:E.
  - exists x, r. now apply pop_Some.
  - now apply pop_None in E.
Qed.

Lemma redo_undo (self : DrawingApp) :
  stacked self -> redo_stack self <> [] -> undo (redo self) = self.
Proof.
  intros [Hn Hu Hc Hr Hs] Hne.
  destruct (nonempty_pop _ Hne) as (stroke & rest & E).
  rewrite E, concat_snoc in Hr. apply Forall_app in Hr as [_ Hr].
  rewrite Forall_forall in Hr.
  unfold redo. rewrite E, pop_app. unfold undo. simpl. rewrite pop_app.
  rewrite itemconfig_each_twice, (itemconfig_each_same stroke hidden) by exact Hr.
  rewrite <- E. destruct self; reflexivity.
Qed.

Lemma undo_redo (self : DrawingApp) :
  stacked self -> undo_stack self <> [] ->
  exists c, redo (undo self) =
            {| canvas := c; last_x := last_x self; last_y := last_y self;
               current_stroke_item_ids := current_stroke_item_ids self;
               undo_stack := undo_stack self; redo_stack := redo_stack self |} /\
            picture c = picture (canvas self) /\
            map coords c = map coords (canvas self).
Proof.
  intros [Hn Hu Hc Hr Hs] Hne.
  destruct (nonempty_pop _ Hne) as (stroke & rest & E).
  rewrite E, concat_snoc in Hu. apply Forall_app in Hu as [_ Hu].
  rewrite Forall_forall in Hu.
  unfold undo. rewrite E, pop_app. unfold redo. simpl. rewrite pop_app.
  rewrite itemconfig_each_twice.
  exists (itemconfig_each stroke normal (canvas self)). split; [reflexivity|]. split.
  - apply picture_itemconfig_normal. intros j Hj. exact (Hu j Hj).
  - apply list_eq. intros i. rewrite !list_lookup_fmap.
    pose proof (item_itemconfig_each stroke normal (canvas self) (S i)) as H.
    unfold item in H. rewrite H.
    destruct (decide (S i ∈ stroke)); [| reflexivity].
    destruct (canvas self !! i); reflexivity.
Qed.


(** A handler adds to the ids held by the stacks at most the id of the line it
    created, and changes no item but held ones. *)
Lemma held_dispatch (self : DrawingApp) (b : binding) (j : nat) :
  j ∈ held (dispatch self b) -> j ∈ held self \/ j = S (length (canvas self)).
Proof.
  destruct b as [event|event|event| | |]; unfold held; simpl.
  - rewrite !elem_of_app. rewrite elem_of_nil. tauto.
  - unfold draw. destruct (last_x self); [destruct (last_y self)|]; simpl;
      rewrite !elem_of_app, ?list_elem_of_singleton; tauto.
  - unfold on_button_release. destruct (current_stroke_item_ids self) eqn:E; simpl;
      rewrite ?concat_snoc, !elem_of_app, !elem_of_nil; tauto.
  - unfold handle_undo_key, undo.
    destruct (pop (undo_stack self)) as [[stroke rest]|] eqn:E; simpl; [| tauto].
    apply pop_Some in E. rewrite E, !concat_snoc, !elem_of_app. tauto.
  - unfold handle_redo_key, redo.
    destruct (pop (redo_stack self)) as [[stroke rest]|] eqn:E; simpl; [| tauto].
    apply pop_Some in E. rewrite E, !concat_snoc, !elem_of_app. tauto.
  - unfold handle_redo_key, redo.
    destruct (pop (redo_stack self)) as [[stroke rest]|] eqn:E; simpl; [| tauto].
    apply pop_Some in E. rewrite E, !concat_snoc, !elem_of_app. tauto.
Qed.

Lemma item_dispatch (self : DrawingApp) (b : binding) (j : nat) :
  is_Some (item (canvas self) j) -> j ∉ held self ->
  item (canvas (dispatch self b)) j = item (canvas self) j.
Proof.
  intros Hj Hout. destruct b as [event|event|event| | |]; simpl.
  - reflexivity.
  - unfold draw. destruct (last_x self); [destruct (last_y self)|]; simpl;
      try reflexivity. now apply item_create_old.
  - unfold on_button_release. now destruct (current_stroke_item_ids self).
  - unfold handle_undo_key, undo.
    destruct (pop (undo_stack self)) as [[stroke rest]|] eqn:E; simpl; [| reflexivity].
    apply pop_Some in E. rewrite item_itemconfig_each.
    destruct (decide (j ∈ stroke)) as [Hin|_]; [| reflexivity].
    destruct Hout. unfold held. rewrite E, concat_snoc, !elem_of_app. tauto.
  - unfold handle_redo_key, redo.
    destruct (pop (redo_stack self)) as [[stroke rest]|] eqn:E; simpl; [| reflexivity].
    apply pop_Some in E. rewrite item_itemconfig_each.
    destruct (decide (j ∈ stroke)) as [Hin|_]; [| reflexivity].
    destruct Hout. unfold held. rewrite E, concat_snoc, !elem_of_app. tauto.
  - unfold handle_redo_key, redo.
    destruct (pop (redo_stack self)) as [[stroke rest]|] eqn:E; simpl; [| reflexivity].
    apply pop_Some in E. rewrite item_itemconfig_each.
    destruct (decide (j ∈ stroke)) as [Hin|_]; [| reflexivity].
    destruct Hout. unfold held. rewrite E, concat_snoc, !elem_of_app. tauto.
Qed.

Lemma mainloop_app (events more : list binding) (self : DrawingApp) :
  mainloop (events ++ more) self = mainloop more (mainloop events self).
Proof. unfold mainloop. apply fold_left_app. Qed.

(** An item that no stack holds keeps its state for ever. *)
Lemma mainloop_unheld (events : list binding) (self : DrawingApp) (j : nat) :
  is_Some (item (canvas self) j) -> j ∉ held self ->
  item (canvas (mainloop events self)) j = item (canvas self) j /\
  j ∉ held (mainloop events self).
Proof.
  unfold mainloop. revert self.
  induction events as [|b events IH]; intros self Hj Hout; simpl; [auto|].
  pose proof (item_dispatch self b j Hj Hout) as E.
  destruct (IH (dispatch self b)) as [E' Hout'].
  - now rewrite E.
  - intros Hin. apply held_dispatch in Hin as [Hin| ->]; [contradiction|].
    apply item_bound in Hj. lia.
  - split; [now rewrite E', E | exact Hout'].
Qed.

(** The motions of a stroke, followed by the release of the button. *)
Lemma motions_then_release (points : list Event) (stop : Event) (self : DrawingApp)
    (lx ly : Z) :
  last_x self = Some lx -> last_y self = Some ly ->
  on_button_release stop (mainloop (map B1_Motion points) self) =
  {| canvas := canvas self ++ segments lx ly points;
     last_x := None; last_y := None;
     current_stroke_item_ids := [];
     undo_stack :=
       match current_stroke_item_ids self
             ++ seq (S (length (canvas self))) (length points) with
       | [] => undo_stack self
       | stroke => undo_stack self ++ [stroke]
       end;
     redo_stack := [] |}.
Proof.
  unfold mainloop. revert self lx ly.
  induction points as [|p points IH]; intros self lx ly Hx Hy; simpl.
  - rewrite !app_nil_r. unfold on_button_release.
    now destruct (current_stroke_item_ids self).
  - rewrite (IH (draw p self) (x p) (y p)).
    + unfold draw. rewrite Hx, Hy. simpl.
      rewrite <- !app_assoc, length_app. simpl.
      replace (S (length (canvas self) + 1)) with (S (S (length (canvas self)))) by lia.
      reflexivity.
    + unfold draw. rewrite Hx, Hy. reflexivity.
    + unfold draw. rewrite Hx, Hy. reflexivity.
Qed.

Lemma segments_length (x0 y0 : Z) (points : list Event) :
  length (segments x0 y0 points) = length points.
Proof.
  revert x0 y0. induction points as [|p points IH]; intros x0 y0; simpl; [reflexivity|].
  now rewrite IH.
Qed.

Lemma segments_displayed (x0 y0 : Z) (points : list Event) :
  picture (segments x0 y0 points) = map coords (segments x0 y0 points).
Proof.
  revert x0 y0. induction points as [|p points IH]; intros x0 y0; [reflexivity|].
  unfold picture in *. simpl. now rewrite IH.
Qed.

Lemma picture_hidden (c : Canvas) : picture (map (configure hidden) c) = [].
Proof. induction c as [|l c IH]; [reflexivity | exact IH]. Qed.

(** Hiding the items created last hides them and nothing else. *)
Lemma itemconfig_each_last (c c' : Canvas) (s : item_state) :
  itemconfig_each (seq (S (length c)) (length c')) s (c ++ c') =
  c ++ map (configure s) c'.
Proof.
  apply canvas_eq. intros [|i]; rewrite item_itemconfig_each.
  - destruct (decide (O ∈ seq (S (length c)) (length c'))) as [H|_]; [| reflexivity].
    apply elem_of_seq in H. lia.
  - unfold item.
    destruct (decide (S i ∈ seq (S (length c)) (length c'))) as [H|H];
      rewrite elem_of_seq in H.
    + rewrite !lookup_app_r by lia. now rewrite list_lookup_fmap.
    + destruct (decide (i < length c)%nat) as [Hlt|Hge].
      * now rewrite !lookup_app_l by lia.
      * rewrite !lookup_app_r by lia.
        rewrite !lookup_ge_None_2; [reflexivity | rewrite length_map; lia | lia].
Qed.


Lemma undo_push (self : DrawingApp) (rest : list (list nat)) (stroke : list nat) :
  undo_stack self = rest ++ [stroke] ->
  undo self =
  {| canvas := itemconfig_each stroke hidden (canvas self);
     last_x := last_x self; last_y := last_y self;
     current_stroke_item_ids := current_stroke_item_ids self;
     undo_stack := rest; redo_stack := redo_stack self ++ [stroke] |}.
Proof. intros E. unfold undo. now rewrite E, pop_app. Qed.

Lemma redo_push (self : DrawingApp) (rest : list (list nat)) (stroke : list nat) :
  redo_stack self = rest ++ [stroke] ->
  redo self =
  {| canvas := itemconfig_each stroke normal (canvas self);
     last_x := last_x self; last_y := last_y self;
     current_stroke_item_ids := current_stroke_item_ids self;
     undo_stack := undo_stack self ++ [stroke]; redo_stack := rest |}.
Proof. intros E. unfold redo. now rewrite E, pop_app. Qed.

Lemma stroke_events_run (self : DrawingApp) (start : Event) (points : list Event)
    (stop : Event) :
  mainloop (stroke_events start points stop) self =
  {| canvas := canvas self ++ segments (x start) (y start) points;
     last_x := None; last_y := None;
     current_stroke_item_ids := [];
     undo_stack :=
       match points with
       | [] => undo_stack self
       | _ :: _ => undo_stack self ++ [seq (S (length (canvas self))) (length points)]
       end;
     redo_stack := [] |}.
Proof.
  unfold stroke_events.
  change (mainloop (ButtonPress_1 start :: ?l) self)
    with (mainloop l (on_button_press start self)).
  rewrite mainloop_app.
  change (mainloop [ButtonRelease_1 stop] ?a) with (on_button_release stop a).
  rewrite (motions_then_release points stop _ (x start) (y start)) by reflexivity.
  simpl. now destruct points.
Qed.

(** X9.  In every state that the application reaches from its initial state,
    whatever the sequence of mouse and key events: the ids held by the undo
    stack, the redo stack and the stroke in progress name items of the canvas
    and are pairwise distinct; the items of the undo stack and of the stroke
    in progress are displayed, those of the redo stack are hidden; and no
    stroke of a stack is empty. *)
Theorem stacks_stay_consistent (events : list binding) :
  stacked (mainloop events __init__).
Proof. apply mainloop_stacked, stacked_init. Qed.

(** X10.  In a reachable state with something to redo, [redo] followed by
    [undo] gives back the very same state: stacks, stroke in progress, last
    position and every item of the canvas. *)
Theorem redo_then_undo_is_identity (events : list binding) :
  let self := mainloop events __init__ in
  redo_stack self <> [] -> undo (redo self) = self.
Proof.
  intros self H. apply redo_undo; [apply mainloop_stacked, stacked_init | exact H].
Qed.

Lemma redo_then_undo_is_identity_witness :
  let events := [ButtonPress_1 {| x := 1; y := 1 |}; B1_Motion {| x := 2; y := 3 |};
                 ButtonRelease_1 {| x := 2; y := 3 |}; Control_z] in
  let self := mainloop events __init__ in
  redo_stack self = [[1%nat]] /\ undo (redo self) = self.
Proof.
  intros events self. split; [reflexivity|].
  apply (redo_then_undo_is_identity events). discriminate.
Defined.

(** X11.  In a reachable state with something to undo, [undo] followed by
    [redo] gives back the same picture, the same lines, the same stacks, the
    same stroke in progress and the same last position.  (The items of the
    stroke end in state [normal], which a line that was never undone does not
    have: the two states need not be equal.) *)
Theorem undo_then_redo_restores_picture (events : list binding) :
  let self := mainloop events __init__ in
  undo_stack self <> [] ->
  let self' := redo (undo self) in
  picture (canvas self') = picture (canvas self) /\
  map coords (canvas self') = map coords (canvas self) /\
  undo_stack self' = undo_stack self /\
  redo_stack self' = redo_stack self /\
  current_stroke_item_ids self' = current_stroke_item_ids self /\
  last_x self' = last_x self /\ last_y self' = last_y self.
Proof.
  intros self H.
  destruct (undo_redo self) as (c & -> & Hp & Hc);
    [apply mainloop_stacked, stacked_init | exact H |].
  simpl. auto 10.
Qed.

Lemma undo_then_redo_restores_picture_witness :
  let events := [ButtonPress_1 {| x := 1; y := 1 |}; B1_Motion {| x := 2; y := 3 |};
                 ButtonRelease_1 {| x := 2; y := 3 |}] in
  let self := mainloop events __init__ in
  undo_stack self = [[1%nat]] /\
  picture (canvas (redo (undo self))) = [(1, 1, 2, 3)] /\
  redo (undo self) <> self.
Proof.
  intros events self. split; [reflexivity|]. split.
  - destruct (undo_then_redo_restores_picture events) as [H _]; [discriminate|].
    etransitivity; [exact H | reflexivity].
  - discriminate.
Defined.

(** X12.  Once the mouse button is released, a hidden line stays hidden for
    ever: the release has emptied the redo stack, so that no later sequence of
    events shows the line again or puts it back on a stack. *)
Theorem undone_stroke_is_lost_after_release
    (events : list binding) (event : Event) (more : list binding) (j : nat) :
  let self := mainloop (events ++ [ButtonRelease_1 event]) __init__ in
  state <$> item (canvas self) j = Some hidden ->
  state <$> item (canvas (mainloop more self)) j = Some hidden /\
  j ∉ held (mainloop more self).
Proof.
  intros self Hj.
  assert (Hs : stacked self) by apply mainloop_stacked, stacked_init.
  assert (Hr : redo_stack self = [] /\ current_stroke_item_ids self = []).
  { unfold self. rewrite mainloop_app.
    change (mainloop [ButtonRelease_1 event] ?a) with (on_button_release event a).
    unfold on_button_release.
    now destruct (current_stroke_item_ids (mainloop events __init__)). }
  destruct Hr as [Hr Hc].
  assert (Hout : j ∉ held self).
  { unfold held. rewrite Hr, Hc. simpl. rewrite app_nil_r. intros Hin.
    destruct Hs as [_ Hu _ _ _]. rewrite Forall_forall in Hu.
    specialize (Hu j Hin). unfold shows in Hu.
    destruct (item (canvas self) j) as [[xy st]|]; [| discriminate].
    simpl in *. injection Hj as ->. discriminate. }
  destruct (mainloop_unheld more self j) as [E Hout']; [| exact Hout |].
  - destruct (item (canvas self) j); [eauto | discriminate].
  - split; [now rewrite E | exact Hout'].
Qed.

Lemma undone_stroke_is_lost_after_release_witness :
  let events := [ButtonPress_1 {| x := 1; y := 1 |}; B1_Motion {| x := 2; y := 3 |};
                 ButtonRelease_1 {| x := 2; y := 3 |}; Control_z;
                 ButtonPress_1 {| x := 5; y := 5 |}] in
  let self := mainloop (events ++ [ButtonRelease_1 {| x := 5; y := 5 |}]) __init__ in
  state <$> item (canvas self) 1 = Some hidden /\
  state <$> item (canvas (mainloop [Control_Shift_z; Control_z; Control_Z] self)) 1
  = Some hidden.
Proof.
  intros events self. split; [reflexivity|].
  destruct (undone_stroke_is_lost_after_release events {| x := 5; y := 5 |}
              [Control_Shift_z; Control_z; Control_Z] 1%nat) as [H _];
    [reflexivity|].
  exact H.
Defined.

(** X13.  A whole stroke, from any state: pressing the button at [start],
    moving through [points] and releasing adds one line per motion, each from
    the previous point to the next, all displayed; it pushes their ids on the
    undo stack as one entry; and it empties the redo stack.  A click without a
    motion pushes nothing, and still empties the redo stack. *)
Theorem stroke_is_one_undo_entry (self : DrawingApp) (start : Event)
    (points : list Event) (stop : Event) :
  let after := mainloop (stroke_events start points stop) self in
  after =
  {| canvas := canvas self ++ segments (x start) (y start) points;
     last_x := None; last_y := None;
     current_stroke_item_ids := [];
     undo_stack :=
       match points with
       | [] => undo_stack self
       | _ :: _ => undo_stack self ++ [seq (S (length (canvas self))) (length points)]
       end;
     redo_stack := [] |} /\
  picture (canvas after) =
  picture (canvas self) ++ map coords (segments (x start) (y start) points) /\
  redo after = after.
Proof.
  intros after. unfold after. rewrite stroke_events_run. simpl.
  split; [reflexivity|]. split; [| reflexivity].
  now rewrite picture_app, segments_displayed.
Qed.

(** X14.  Undoing a stroke that was just drawn, from any state: the picture
    is the one before the stroke, the undo stack is the one before the stroke,
    and the redo stack holds the stroke alone; redoing it shows the picture
    with the stroke again. *)
Theorem undo_removes_the_last_stroke (self : DrawingApp) (start : Event)
    (points : list Event) (stop : Event) :
  points <> [] ->
  let after := mainloop (stroke_events start points stop) self in
  picture (canvas (undo after)) = picture (canvas self) /\
  undo_stack (undo after) = undo_stack self /\
  redo_stack (undo after) = [seq (S (length (canvas self))) (length points)] /\
  picture (canvas (redo (undo after))) = picture (canvas after) /\
  undo_stack (redo (undo after)) = undo_stack after.
Proof.
  intros Hne after. unfold after. rewrite stroke_events_run.
  destruct points as [|p points]; [contradiction|]. cbv beta iota.
  set (segs := segments (x start) (y start) (p :: points)).
  assert (Hlen : length (p :: points) = length segs)
    by (unfold segs; now rewrite segments_length).
  rewrite Hlen. set (stroke := seq (S (length (canvas self))) (length segs)).
  rewrite (undo_push _ (undo_stack self) stroke) by reflexivity.
  cbn [canvas undo_stack redo_stack last_x last_y current_stroke_item_ids app].
  rewrite (redo_push _ [] stroke) by reflexivity.
  cbn [canvas undo_stack redo_stack last_x last_y current_stroke_item_ids app].
  rewrite itemconfig_each_twice. unfold stroke.
  rewrite !itemconfig_each_last, !picture_app, picture_hidden, app_nil_r.
  repeat split; try reflexivity.
  f_equal. unfold segs. generalize (x start) (y start) (p :: points). clear.
  intros x0 y0 points. revert x0 y0.
  induction points as [|p points IH]; intros x0 y0; [reflexivity|].
  unfold picture in *. simpl. now rewrite IH.
Qed.

Lemma undo_removes_the_last_stroke_witness :
  let points := [{| x := 2; y := 3 |}; {| x := 4; y := 4 |}] in
  let after := mainloop (stroke_events {| x := 1; y := 1 |} points {| x := 4; y := 4 |})
                 __init__ in
  picture (canvas after) = [(1, 1, 2, 3); (2, 3, 4, 4)] /\
  picture (canvas (undo after)) = [].
Proof.
  intros points after. split; [reflexivity|].
  destruct (undo_removes_the_last_stroke __init__ {| x := 1; y := 1 |} points
              {| x := 4; y := 4 |}) as [H _]; [discriminate|].
  exact H.
Defined.

End DrawFacts.

(** * The reaction game *)

Section ReactionGameFacts.

Import ReactionGame.

Lemma position_in_range {A : Type} (l : list A) (i : Z) :
  0 <= i < Z.of_nat (length l) -> position l i = Return (Z.to_nat i).
Proof.
  intros H. unfold position.
  destruct (0 <=? i) eqn:E1; [| lia]. destruct (i <? Z.of_nat (length l)) eqn:E2; [| lia].
  reflexivity.
Qed.

Lemma getitem_in_range {A : Type} (l : list A) (i : Z) :
  0 <= i < Z.of_nat (length l) ->
  exists a, l !! Z.to_nat i = Some a /\ getitem l i = Return a.
Proof.
  intros H. unfold getitem. rewrite position_in_range by exact H.
  destruct (lookup_lt_is_Some_2 l (Z.to_nat i)) as [a Ha]; [lia|].
  exists a. now rewrite Ha.
Qed.

Lemma imap_lit (key_idx : Z) (buttons : list colour) :
  length buttons = 8%nat ->
  imap (fun i _ => if Z.of_nat i =? key_idx then red else gray) buttons = lit key_idx.
Proof.
  intros H. do 9 (destruct buttons as [|? buttons]; try discriminate). reflexivity.
Qed.

Lemma report_return (self : ReactionGame) : report (Return tt, self) = self.
Proof. reflexivity. Qed.

Lemma start_game_well_formed (self : ReactionGame) :
  1 <= level self -> reported self = [] -> length (key_buttons self) = 8%nat ->
  (forall k, 0 <= random self k <= 7) ->
  waiting_for_click self = false -> pending self = [] ->
  is_game_running self = false ->
  well_formed (report (start_game self)).
Proof.
  intros Hl Hr Hb Hrnd Hw Hp Hrun. unfold start_game. rewrite Hrun.
  destruct self as [lvl len s idx run wait lbl btns nxt pend rnd drw rep].
  simpl in *. subst. unfold well_formed, in_level, level_sequence, getting_ready. simpl.
  split; [exact Hl|]. split; [reflexivity|]. split; [exact Hb|]. split; [exact Hrnd|].
  right. unfold lights_per_level, lights_increment.
  split; [reflexivity|]. split; [reflexivity|]. split; [| split; [lia | left; auto]].
  split; [reflexivity|]. split.
  - rewrite length_map, length_seq. lia.
  - apply Forall_forall. intros key_idx Hin. apply list_elem_of_fmap in Hin as (k & -> & _).
    apply Hrnd.
Qed.


Lemma sequence_entry (self : ReactionGame) :
  level_sequence self -> 0 <= current_index self < sequence_length self ->
  exists key_idx,
    sequence self !! Z.to_nat (current_index self) = Some key_idx /\
    getitem (sequence self) (current_index self) = Return key_idx /\
    0 <= key_idx <= 7.
Proof.
  intros (_ & Hlen & Hall) Hidx.
  destruct (getitem_in_range (sequence self) (current_index self)) as (k & Hk & Hg);
    [lia|].
  exists k. split; [exact Hk|]. split; [exact Hg|].
  rewrite Forall_forall in Hall. apply Hall. eapply list_elem_of_lookup_2, Hk.
Qed.

Lemma config_bg_in_range (i : Z) (c : colour) (self : ReactionGame) :
  length (key_buttons self) = 8%nat -> 0 <= i <= 7 ->
  config_bg i c self =
  (Return tt, set_key_buttons (<[Z.to_nat i := c]> (key_buttons self)) self).
Proof.
  intros Hb Hi. unfold config_bg. rewrite position_in_range by lia. reflexivity.
Qed.

Lemma on_key_press_well_formed (char : string) (self : ReactionGame) :
  well_formed self -> well_formed (report (on_key_press char self)).
Proof.
  intros Hwf. pose proof Hwf as (Hl & Hr & Hb & Hrnd & Hph). unfold on_key_press.
  destruct (is_game_running self) eqn:Hrun; [| exact Hwf].
  destruct (waiting_for_click self) eqn:Hw; [| exact Hwf]. simpl.
  destruct (key_map !! lower char) as [pressed_idx|]; [| exact Hwf].
  destruct Hph as [(Hrun' & _)|(_ & Hnxt & Hseq & Hidx & Hphase)]; [congruence|].
  destruct (sequence_entry self Hseq Hidx) as (key_idx & Hk & Hg & Hrange).
  rewrite Hg. destruct (pressed_idx =? key_idx).
  - rewrite config_bg_in_range by assumption.
    destruct self as [lvl len s idx run wait lbl btns nxt pend rnd drw rep].
    simpl in *. subst.
    destruct Hphase as [(? & _)|[(_ & Hp & _)|(? & _)]]; try discriminate.
    simpl in Hp. subst pend.
    split; [exact Hl|]. split; [reflexivity|].
    split; [rewrite <- Hb; apply length_insert|]. split; [exact Hrnd|].
    right. split; [reflexivity|]. split; [reflexivity|]. split; [exact Hseq|].
    split; [exact Hidx|]. right. right. split; reflexivity.
  - destruct self as [lvl len s idx run wait lbl btns nxt pend rnd drw rep].
    simpl in *. subst.
    split; [exact Hl|]. split; [reflexivity|]. split; [exact Hb|]. split; [exact Hrnd|].
    right. split; [reflexivity|]. split; [reflexivity|]. split; [exact Hseq|].
    split; [exact Hidx|].
    destruct Hphase as [(? & _)|[Ha|(? & _)]]; try discriminate.
    right. left. exact Ha.
Qed.

Lemma light_next_key_well_formed (self : ReactionGame) :
  1 <= level self -> reported self = [] -> length (key_buttons self) = 8%nat ->
  (forall k, 0 <= random self k <= 7) ->
  is_game_running self = true -> next_level_button self = disabled ->
  level_sequence self -> 0 <= current_index self <= sequence_length self ->
  waiting_for_click self = false -> pending self = [] ->
  well_formed (report (light_next_key self)).
Proof.
  intros Hl Hr Hb Hrnd Hrun Hnxt Hseq Hidx Hw Hp. unfold light_next_key.
  destruct (current_index self >=? sequence_length self) eqn:E.
  - unfold finish_level.
    destruct self as [lvl len s idx run wait lbl btns nxt pend rnd drw rep].
    simpl in *. subst.
    split; [exact Hl|]. split; [reflexivity|]. split; [rewrite <- Hb; apply length_map|].
    split; [exact Hrnd|]. left. split; [reflexivity|]. split; reflexivity.
  - assert (Hidx' : 0 <= current_index self < sequence_length self) by lia.
    destruct (sequence_entry self Hseq Hidx') as (key_idx & Hk & Hg & Hrange).
    rewrite Hg. rewrite imap_lit by exact Hb.
    destruct self as [lvl len s idx run wait lbl btns nxt pend rnd drw rep].
    simpl in *. subst.
    split; [exact Hl|]. split; [reflexivity|]. split; [reflexivity|].
    split; [exact Hrnd|].
    right. split; [reflexivity|]. split; [reflexivity|]. split; [exact Hseq|].
    split; [exact Hidx'|]. right. left. split; [reflexivity|]. split; [reflexivity|].
    exists key_idx. split; [exact Hk | reflexivity].
Qed.

Lemma reset_key_well_formed (self : ReactionGame) :
  1 <= level self -> reported self = [] -> length (key_buttons self) = 8%nat ->
  (forall k, 0 <= random self k <= 7) ->
  is_game_running self = true -> next_level_button self = disabled ->
  level_sequence self -> 0 <= current_index self < sequence_length self ->
  waiting_for_click self = false -> pending self = [] ->
  well_formed (report (reset_key self)).
Proof.
  intros Hl Hr Hb Hrnd Hrun Hnxt Hseq Hidx Hw Hp. unfold reset_key.
  destruct (sequence_entry self Hseq Hidx) as (key_idx & Hk & Hg & Hrange).
  rewrite Hg, config_bg_in_range by assumption.
  apply light_next_key_well_formed;
    destruct self as [lvl len s idx run wait lbl btns nxt pend rnd drw rep];
    simpl in *; auto; try lia.
  rewrite <- Hb. apply length_insert.
Qed.

Lemma dispatch_well_formed (self : ReactionGame) (e : event) :
  well_formed self -> well_formed (dispatch self e).
Proof.
  intros Hwf. pose proof Hwf as (Hl & Hr & Hb & Hrnd & Hph).
  destruct e as [| |char|k]; simpl.
  - destruct Hph as [(Hrun & Hw & Hp)|(Hrun & _)].
    + now apply start_game_well_formed.
    + unfold start_game. rewrite Hrun. exact Hwf.
  - destruct (next_level_button self) eqn:Hnxt; [| exact Hwf].
    destruct Hph as [(Hrun & Hw & Hp)|(_ & Hnxt' & _)]; [| congruence].
    unfold next_level. apply start_game_well_formed; simpl; auto. lia.
  - now apply on_key_press_well_formed.
  - destruct (pending self !! k) as [[ms cb]|] eqn:Hk; [| exact Hwf].
    destruct Hph as [(_ & _ & Hp)|(Hrun & Hnxt & Hseq & Hidx & Hphase)].
    { rewrite Hp in Hk. discriminate. }
    destruct Hphase as [(Hw & Hp & Hz)|[(_ & Hp & _)|(Hw & Hp)]];
      rewrite Hp in Hk |- *; destruct k as [|k]; try discriminate;
      injection Hk as <- <-; simpl.
    + apply light_next_key_well_formed; simpl; auto. lia.
    + apply reset_key_well_formed; simpl; auto.
Qed.

Lemma init_well_formed (random : nat -> Z) :
  (forall k, 0 <= random k <= 7) -> well_formed (__init__ random).
Proof.
  intros H. split; [simpl; lia|]. split; [reflexivity|]. split; [reflexivity|].
  split; [exact H|]. left. split; [reflexivity|]. split; reflexivity.
Qed.

Lemma mainloop_well_formed (events : list event) (self : ReactionGame) :
  well_formed self -> well_formed (mainloop events self).
Proof.
  unfold mainloop. revert self.
  induction events as [|e events IH]; intros self H; simpl; [exact H|].
  apply IH, dispatch_well_formed, H.
Qed.


(** The key labelled on a button is a key of that button. *)
Lemma label_is_key (key_idx : Z) :
  0 <= key_idx <= 7 -> key_map !! lower (label_of key_idx) = Some key_idx.
Proof.
  intros H.
  assert (E : key_idx = 0 \/ key_idx = 1 \/ key_idx = 2 \/ key_idx = 3 \/
              key_idx = 4 \/ key_idx = 5 \/ key_idx = 6 \/ key_idx = 7) by lia.
  destruct E as [->|[->|[->|[->|[->|[->|[->| ->]]]]]]]; reflexivity.
Qed.

Lemma lit_pressed (key_idx : Z) (c : colour) :
  0 <= key_idx <= 7 -> length (<[Z.to_nat key_idx := c]> (lit key_idx)) = 8%nat.
Proof. intros _. now rewrite length_insert. Qed.

Ltac assigned :=
  cbv [after awaiting completed set_level set_sequence_length set_sequence
       set_current_index set_is_game_running set_waiting_for_click set_info_label
       set_key_buttons set_next_level_button set_pending set_drawn set_reported
       level sequence_length sequence current_index is_game_running waiting_for_click
       info_label key_buttons next_level_button pending random drawn reported].

Lemma play_one (self : ReactionGame) (keys : list Z) (i : Z) :
  Forall (fun key_idx => 0 <= key_idx <= 7) keys ->
  0 <= i < Z.of_nat (length keys) ->
  mainloop (play [default 0 (keys !! Z.to_nat i)]) (awaiting self keys i) =
  if i + 1 >=? Z.of_nat (length keys) then completed self keys
  else awaiting self keys (i + 1).
Proof.
  intros Hall Hi.
  destruct (getitem_in_range keys i Hi) as (k & Hk & Hg).
  assert (Hrange : 0 <= k <= 7).
  { rewrite Forall_forall in Hall. apply Hall. eapply list_elem_of_lookup_2, Hk. }
  destruct self as [lvl len s idx run wt lbl btns nxt pend rnd drw rep].
  unfold awaiting, completed. rewrite Hk. cbn [default from_option id level info_label random drawn].
  unfold play, mainloop. cbn [flat_map fold_left app dispatch].
  unfold on_key_press.
  cbn [is_game_running waiting_for_click negb orb sequence current_index].
  rewrite (label_is_key k Hrange), Hg, Z.eqb_refl.
  rewrite config_bg_in_range; [| reflexivity | exact Hrange].
  assigned. cbn [app report lookup list_lookup call delete list_delete].
  unfold reset_key.
  assigned. rewrite Hg.
  rewrite config_bg_in_range; [| apply length_insert | exact Hrange].
  assigned. unfold light_next_key. assigned.
  assert (E8 : length (<[Z.to_nat k := gray]> (<[Z.to_nat k := green]> (lit k))) = 8%nat)
    by now rewrite !length_insert.
  destruct (i + 1 >=? Z.of_nat (length keys)) eqn:E.
  - unfold finish_level. assigned. cbn [report]. f_equal; [lia|].
    revert E8. generalize (<[Z.to_nat k := gray]> (<[Z.to_nat k := green]> (lit k))).
    intros l Hl. do 9 (destruct l as [|? l]; try discriminate). reflexivity.
  - destruct (getitem_in_range keys (i + 1)) as (k' & Hk' & Hg'); [lia|].
    rewrite Hg'. assigned. cbn [report]. rewrite Hk'. cbn [default from_option id]. f_equal.
    apply imap_lit. exact E8.
Qed.

Lemma game_mainloop_app (events more : list event) (self : ReactionGame) :
  mainloop (events ++ more) self = mainloop more (mainloop events self).
Proof. unfold mainloop. apply fold_left_app. Qed.

Lemma play_from (self : ReactionGame) (keys : list Z) (n : nat) (i : Z) :
  Forall (fun key_idx => 0 <= key_idx <= 7) keys ->
  0 <= i < Z.of_nat (length keys) -> Z.of_nat (length keys) - i = Z.of_nat n ->
  mainloop (play (drop (Z.to_nat i) keys)) (awaiting self keys i) = completed self keys.
Proof.
  intros Hall. revert i. induction n as [|n IH]; intros i Hi Hn; [lia|].
  destruct (lookup_lt_is_Some_2 keys (Z.to_nat i)) as [k Hk]; [lia|].
  rewrite (drop_S _ _ _ Hk).
  change (play (k :: ?l)) with (play [k] ++ play l). rewrite game_mainloop_app.
  pose proof (play_one self keys i Hall Hi) as H. rewrite Hk in H.
  cbn [default from_option id] in H. rewrite H.
  destruct (i + 1 >=? Z.of_nat (length keys)) eqn:E.
  - rewrite drop_ge by lia. reflexivity.
  - replace (S (Z.to_nat i)) with (Z.to_nat (i + 1)) by lia. apply IH; lia.
Qed.

(** A level, from the call of [start_game] on: the timer lights the first
    key, and the keys of the sequence, each followed by its timer, complete
    the level. *)
Lemma start_then_play (self : ReactionGame) :
  1 <= level self -> reported self = [] -> length (key_buttons self) = 8%nat ->
  (forall k, 0 <= random self k <= 7) ->
  waiting_for_click self = false -> pending self = [] ->
  is_game_running self = false ->
  let n := lights_per_level + (level self - 1) * lights_increment in
  let keys := map (fun k => random self (drawn self + k)%nat) (seq 0 (Z.to_nat n)) in
  mainloop (Timer 0 :: play keys) (report (start_game self)) =
  {| level := level self; sequence_length := n; sequence := keys; current_index := n;
     is_game_running := false; waiting_for_click := false;
     info_label := "Level " ++ str (level self) ++ " complete!";
     key_buttons := replicate 8 gray;
     next_level_button := normal; pending := []; random := random self;
     drawn := (drawn self + Z.to_nat n)%nat; reported := [] |}.
Proof.
  intros Hl Hr Hb Hrnd Hw Hp Hrun n keys.
  assert (Hlen : Z.of_nat (length keys) = n).
  { unfold keys. rewrite length_map, length_seq.
    unfold n, lights_per_level, lights_increment. lia. }
  assert (Hall : Forall (fun key_idx => 0 <= key_idx <= 7) keys).
  { apply Forall_forall. intros key_idx Hin.
    apply list_elem_of_fmap in Hin as (k & -> & _). apply Hrnd. }
  assert (Hn : 10 <= n) by (unfold n, lights_per_level, lights_increment; lia).
  destruct (getitem_in_range keys 0) as (k0 & Hk0 & Hg0); [lia|].
  destruct self as [lvl len s idx run wt lbl btns nxt pend rnd drw rep].
  cbn [level reported key_buttons random waiting_for_click pending is_game_running drawn]
    in *. subst.
  unfold start_game. cbn [is_game_running]. unfold randints. assigned.
  fold n. fold keys. cbn [app report].
  unfold mainloop. cbn [fold_left dispatch]. assigned.
  cbn [lookup list_lookup delete list_delete call]. unfold light_next_key. assigned.
  destruct (0 >=? n) eqn:E; [lia|]. rewrite Hg0. assigned. cbn [report].
  rewrite imap_lit by exact Hb.
  pose proof (play_from
    {| level := lvl; sequence_length := n; sequence := keys; current_index := 0;
       is_game_running := true; waiting_for_click := true;
       info_label := "Get ready... Level " ++ str lvl; key_buttons := lit k0;
       next_level_button := disabled; pending := []; random := rnd;
       drawn := (drw + Z.to_nat n)%nat; reported := [] |}
    keys (Z.to_nat n) 0 Hall) as H.
  unfold awaiting, completed, mainloop in H.
  cbn [level info_label random drawn] in H. rewrite Hk0, Hlen in H.
  cbn [default from_option id drop Z.to_nat] in H.
  apply H; lia.
Qed.


Lemma wrong_key (char : string) (self : ReactionGame) :
  well_formed self -> waiting_for_click self = true ->
  key_map !! lower char <> sequence self !! Z.to_nat (current_index self) ->
  dispatch self (KeyPress char) = self \/
  dispatch self (KeyPress char) = set_info_label "Wrong key! Try again..." self.
Proof.
  intros (Hl & Hr & Hb & Hrnd & Hph) Hw Hne. cbn [dispatch]. unfold on_key_press.
  rewrite Hw.
  destruct Hph as [(_ & Hw' & _)|(Hrun & Hnxt & Hseq & Hidx & Hphase)]; [congruence|].
  rewrite Hrun. cbn [negb orb].
  destruct (key_map !! lower char) as [pressed_idx|]; [| now left].
  destruct (sequence_entry self Hseq Hidx) as (key_idx & Hk & Hg & Hrange).
  rewrite Hg. destruct (pressed_idx =? key_idx) eqn:E; [| now right].
  apply Z.eqb_eq in E. subst. now rewrite Hk in Hne.
Qed.

Lemma report_random (r : outcome unit * ReactionGame) :
  random (report r) = random (snd r).
Proof. destruct r as [[[]|e] self]; reflexivity. Qed.

Lemma config_bg_random (i : Z) (c : colour) (self : ReactionGame) :
  random (snd (config_bg i c self)) = random self.
Proof. unfold config_bg. now destruct (position (key_buttons self) i). Qed.

Lemma start_game_random (self : ReactionGame) :
  random (snd (start_game self)) = random self.
Proof. unfold start_game. now destruct (is_game_running self). Qed.

Lemma light_next_key_random (self : ReactionGame) :
  random (snd (light_next_key self)) = random self.
Proof.
  unfold light_next_key.
  destruct (current_index self >=? sequence_length self); [reflexivity|].
  now destruct (getitem (sequence self) (current_index self)).
Qed.

Lemma reset_key_random (self : ReactionGame) :
  random (snd (reset_key self)) = random self.
Proof.
  unfold reset_key.
  destruct (getitem (sequence self) (current_index self)) as [correct_idx|]; [| reflexivity].
  pose proof (config_bg_random correct_idx gray self) as H.
  destruct (config_bg correct_idx gray self) as [[[]|e] self']; [| exact H].
  rewrite light_next_key_random. exact H.
Qed.

Lemma on_key_press_random (char : string) (self : ReactionGame) :
  random (snd (on_key_press char self)) = random self.
Proof.
  unfold on_key_press.
  destruct (negb (is_game_running self) || negb (waiting_for_click self));
    [reflexivity|].
  destruct (key_map !! lower char) as [pressed_idx|]; [| reflexivity].
  destruct (getitem (sequence self) (current_index self)) as [correct_idx|]; [| reflexivity].
  destruct (pressed_idx =? correct_idx); [| reflexivity].
  pose proof (config_bg_random correct_idx green self) as H.
  now destruct (config_bg correct_idx green self) as [[[]|e] self'].
Qed.

(** The numbers that [random] returns are not the game's to change. *)
Lemma dispatch_random (self : ReactionGame) (e : event) :
  random (dispatch self e) = random self.
Proof.
  destruct e as [| |char|k]; cbn [dispatch].
  - now rewrite report_random, start_game_random.
  - destruct (next_level_button self); [| reflexivity].
    unfold next_level. now rewrite report_random, start_game_random.
  - now rewrite report_random, on_key_press_random.
  - destruct (pending self !! k) as [[ms [|]]|]; [| | reflexivity]; cbn [call];
      rewrite report_random.
    + now rewrite light_next_key_random.
    + now rewrite reset_key_random.
Qed.

Lemma mainloop_random (events : list event) (self : ReactionGame) :
  random (mainloop events self) = random self.
Proof.
  unfold mainloop. revert self.
  induction events as [|e events IH]; intros self; simpl; [reflexivity|].
  now rewrite IH, dispatch_random.
Qed.

(** X15.  Whatever the player does and whenever the timers fire, as long as
    [random.randint(0, 7)] returns numbers from 0 to 7: no callback of the
    game ever raises (every index into the sequence and into the key buttons
    is in range), at most one timer is pending, and the game keeps its
    invariant: between two levels nothing is pending; during a level the
    sequence has [10 + 5 * (level - 1)] entries, the [Next Level] button is
    disabled, and a key is awaited exactly when that key, the entry of the
    sequence at the current index, is the one lit in red. *)
Theorem game_never_raises (randint : nat -> Z) (events : list event) :
  (forall k, 0 <= randint k <= 7) ->
  let self := mainloop events (__init__ randint) in
  reported self = [] /\ (length (pending self) <= 1)%nat /\ well_formed self.
Proof.
  intros Hrnd self.
  assert (Hwf : well_formed self) by now apply mainloop_well_formed, init_well_formed.
  split; [apply Hwf|]. split; [| exact Hwf].
  destruct Hwf as (_ & _ & _ & _ & [(_ & _ & ->)|(_ & _ & _ & _ & Hphase)]);
    [simpl; lia|].
  destruct Hphase as [(_ & -> & _)|[(_ & -> & _)|(_ & ->)]]; simpl; lia.
Qed.

Lemma game_never_raises_witness :
  let randint := fun _ : nat => 3 in
  let events := [Start_command; Timer 0; KeyPress "x"; KeyPress "F"; Next_level_command;
                 Timer 1; Timer 0; Start_command; KeyPress "f"] in
  current_index (mainloop events (__init__ randint)) = 1 /\
  reported (mainloop events (__init__ randint)) = [].
Proof.
  intros randint events. split; [reflexivity|].
  apply (game_never_raises randint events). intros k. unfold randint. lia.
Defined.

(** X16.  A level can always be completed, and by exactly its keys: in a
    reachable state between two levels, a click on [Start], the timer that
    lights the first key, and then for each of the [10 + 5 * (level - 1)]
    numbers drawn the key labelled on the button of that number followed by
    the timer that resets it, end the level: the label reads that the level
    is complete, all buttons are gray, the [Next Level] button is enabled and
    nothing is pending. *)
Theorem level_is_completed_by_its_keys (randint : nat -> Z) (events : list event) :
  (forall k, 0 <= randint k <= 7) ->
  let self := mainloop events (__init__ randint) in
  is_game_running self = false ->
  let n := lights_per_level + (level self - 1) * lights_increment in
  let keys := map (fun k => randint (drawn self + k)%nat) (seq 0 (Z.to_nat n)) in
  mainloop (Start_command :: Timer 0 :: play keys) self =
  {| level := level self; sequence_length := n; sequence := keys; current_index := n;
     is_game_running := false; waiting_for_click := false;
     info_label := "Level " ++ str (level self) ++ " complete!";
     key_buttons := replicate 8 gray;
     next_level_button := normal; pending := []; random := randint;
     drawn := (drawn self + Z.to_nat n)%nat; reported := [] |}.
Proof.
  intros Hrnd self Hrun n keys.
  assert (Hwf : well_formed self) by now apply mainloop_well_formed, init_well_formed.
  assert (Hsame : random self = randint) by apply mainloop_random.
  destruct Hwf as (Hl & Hr & Hb & Hrnd' & [(_ & Hw & Hp)|(Hrun' & _)]); [| congruence].
  change (mainloop (Start_command :: ?l) self) with (mainloop l (report (start_game self))).
  unfold keys, n. rewrite <- Hsame. now apply start_then_play.
Qed.

Lemma level_is_completed_by_its_keys_witness :
  let randint := fun k : nat => Z.of_nat (k mod 8) in
  mainloop (Start_command :: Timer 0 :: play [0; 1; 2; 3; 4; 5; 6; 7; 0; 1])
           (__init__ randint) =
  {| level := 1; sequence_length := 10; sequence := [0; 1; 2; 3; 4; 5; 6; 7; 0; 1];
     current_index := 10; is_game_running := false; waiting_for_click := false;
     info_label := "Level 1 complete!"; key_buttons := replicate 8 gray;
     next_level_button := normal; pending := []; random := randint;
     drawn := 10; reported := [] |}.
Proof.
  intros randint.
  apply (level_is_completed_by_its_keys randint []).
  - intros k. unfold randint. pose proof (Nat.mod_upper_bound k 8). lia.
  - reflexivity.
Defined.

(** X17.  The next level is five keys longer: in a reachable state in which
    the [Next Level] button is enabled, a click on it starts the level of the
    next number, which the timer and the [10 + 5 * level] keys then drawn
    complete in the same way. *)
Theorem next_level_adds_five_keys (randint : nat -> Z) (events : list event) :
  (forall k, 0 <= randint k <= 7) ->
  let self := mainloop events (__init__ randint) in
  next_level_button self = normal ->
  let n := lights_per_level + level self * lights_increment in
  let keys := map (fun k => randint (drawn self + k)%nat) (seq 0 (Z.to_nat n)) in
  mainloop (Next_level_command :: Timer 0 :: play keys) self =
  {| level := level self + 1; sequence_length := n; sequence := keys; current_index := n;
     is_game_running := false; waiting_for_click := false;
     info_label := "Level " ++ str (level self + 1) ++ " complete!";
     key_buttons := replicate 8 gray;
     next_level_button := normal; pending := []; random := randint;
     drawn := (drawn self + Z.to_nat n)%nat; reported := [] |}.
Proof.
  intros Hrnd self Hnxt n keys.
  assert (Hwf : well_formed self) by now apply mainloop_well_formed, init_well_formed.
  assert (Hsame : random self = randint) by apply mainloop_random.
  destruct Hwf as (Hl & Hr & Hb & Hrnd' & [(Hrun & Hw & Hp)|(_ & Hnxt' & _)]);
    [| congruence].
  unfold mainloop at 1. cbn [fold_left dispatch]. rewrite Hnxt. unfold next_level.
  set (self' := set_info_label _ _).
  pose proof (start_then_play self') as H.
  cbn [level reported key_buttons random waiting_for_click pending is_game_running
       drawn self' set_info_label set_level] in H.
  replace (level self + 1 - 1) with (level self) in H by lia.
  unfold keys, n. rewrite <- Hsame. apply H; auto. lia.
Qed.

Lemma next_level_adds_five_keys_witness :
  let randint := fun _ : nat => 3 in
  let self := mainloop (Start_command :: Timer 0 :: play (replicate 10 3))
                (__init__ randint) in
  level (mainloop (Next_level_command :: Timer 0 :: play (replicate 15 3)) self) = 2 /\
  info_label (mainloop (Next_level_command :: Timer 0 :: play (replicate 15 3)) self)
  = "Level 2 complete!"%string.
Proof.
  intros randint self.
  pose proof (next_level_adds_five_keys randint
                (Start_command :: Timer 0 :: play (replicate 10 3))) as H.
  cbv zeta in H. fold self in H.
  assert (Hrnd : forall k : nat, 0 <= randint k <= 7) by (intros k; unfold randint; lia).
  assert (Hnxt : next_level_button self = normal) by reflexivity.
  specialize (H Hrnd Hnxt).
  change (map _ (seq 0 _)) with (replicate 15 3) in H.
  rewrite H. split; reflexivity.
Defined.

(** KELVIN SIGN is a text of the key [k]: [str.lower] maps it to the letter. *)
Lemma kelvin_sign_is_the_k_key :
  lower kelvin_sign = "k"%string /\ key_map !! lower kelvin_sign = Some 5.
Proof. split; reflexivity. Qed.

(** X18.  While a key is awaited, key presses other than the awaited key
    change nothing but the text of the label: the game goes on awaiting the
    same key, no timer is started and the index does not move.  A press is
    other than the awaited key when its text, put in lower case as
    [str.lower] does, is no key of [key_map] or the key of another button. *)
Theorem wrong_keys_change_only_the_label
    (randint : nat -> Z) (events : list event) (chars : list string) :
  (forall k, 0 <= randint k <= 7) ->
  let self := mainloop events (__init__ randint) in
  waiting_for_click self = true ->
  Forall (fun char => key_map !! lower char <>
                      sequence self !! Z.to_nat (current_index self)) chars ->
  exists text, mainloop (map KeyPress chars) self = set_info_label text self.
Proof.
  intros Hrnd self Hw Hall.
  assert (Hwf : well_formed self) by now apply mainloop_well_formed, init_well_formed.
  clearbody self. revert self Hw Hwf Hall.
  induction chars as [|char chars IH]; intros self Hw Hwf Hall.
  - exists (info_label self). now destruct self.
  - apply Forall_cons in Hall as [Hne Hall].
    change (mainloop (map KeyPress (char :: chars)) self)
      with (mainloop (map KeyPress chars) (dispatch self (KeyPress char))).
    destruct (wrong_key char self Hwf Hw Hne) as [->| ->].
    + now apply IH.
    + destruct (IH (set_info_label "Wrong key! Try again..." self)) as [text H].
      * exact Hw.
      * destruct Hwf as (Hl & Hr & Hb & Hrnd' & Hph).
        split; [exact Hl|]. split; [exact Hr|]. split; [exact Hb|]. split; [exact Hrnd'|].
        exact Hph.
      * exact Hall.
      * exists text. rewrite H. reflexivity.
Qed.

Lemma wrong_keys_change_only_the_label_witness :
  let randint := fun _ : nat => 3 in
  let self := mainloop [Start_command; Timer 0] (__init__ randint) in
  exists text,
    mainloop (map KeyPress ["a"; "x"; "S"; ""; kelvin_sign]%string) self =
    set_info_label text self.
Proof.
  intros randint self.
  apply (wrong_keys_change_only_the_label randint [Start_command; Timer 0]).
  - intros k. unfold randint. lia.
  - reflexivity.
  - repeat constructor; discriminate.
Defined.

End ReactionGameFacts.
